(** * Truth-or-die: the round orchestrator and its calculation engine

    A shallow embedding of [src/utils/randomizer.ts] (position assignment),
    [src/utils/calculation.ts] (P&L, liquidation, payout) and of the
    [GameStateManager] class (lobby / round state machine).

    Conventions of the embedding.
    - In the manager a JavaScript [number] is a rational ([Q]): arithmetic
      is exact and every value is finite.  Division by zero (which
      JavaScript answers with [Infinity] or [NaN]) is outside the model; the
      statements that divide carry the corresponding side condition.  What
      depends on the rounding of doubles is stated on the module [Double],
      which computes on binary64 as the source does.
    - A JavaScript [Map] is an association list in insertion order, with
      the [set]/[get]/[has] behaviour of the language.
    - Each handler of [GameStateManager] runs to completion before the next
      event is taken up; what a handler reads from its environment (the
      clock, the random number generator, the price feed) is an explicit
      argument.  The price feed is connected: [getCurrentPrice] answers
      with a price, having cleared its five-second timer, or rejects when
      that timer fires.
    - The database is always available: a call fails only where the
      client's contract says so (a single-row update of a missing row, a
      uniqueness conflict, a new lobby entry that the schema refuses). *)

From Stdlib Require Import QArith Qminmax ZArith List String Bool Arith Lia Lqa.
From Stdlib Require Import Permutation.
Import ListNotations.

Open Scope Q_scope.

(** ** Position sides *)

Inductive Side : Type := LONG | SHORT.

Definition Side_eqb (a b : Side) : bool :=
  match a, b with
  | LONG, LONG | SHORT, SHORT => true
  | _, _ => false
  end.

(** ** JavaScript [Map] with string keys *)

Module JsMap.

Definition t (V : Type) : Type := list (string * V).

Definition empty {V : Type} : t V := [].

Fixpoint get {V : Type} (k : string) (m : t V) : option V :=
  match m with
  | [] => None
  | (k', v) :: m' => if String.eqb k k' then Some v else get k m'
  end.

Definition has {V : Type} (k : string) (m : t V) : bool :=
  match get k m with Some _ => true | None => false end.

(** [set] replaces the value of a key that is present, keeping its place,
    and appends a key that is absent. *)
Fixpoint set {V : Type} (k : string) (v : V) (m : t V) : t V :=
  match m with
  | [] => [(k, v)]
  | (k', v') :: m' =>
      if String.eqb k k' then (k', v) :: m' else (k', v') :: set k v m'
  end.

Definition keys {V : Type} (m : t V) : list string := map fst m.
Definition values {V : Type} (m : t V) : list V := map snd m.
Definition entries {V : Type} (m : t V) : list (string * V) := m.
Definition size {V : Type} (m : t V) : nat := List.length m.

End JsMap.

(** ** Calculation engine ([calculation.ts]) *)

Definition calculatePnL (positionType : Side)
    (entryPrice currentPrice entryAmount leverage : Q) : Q :=
  let priceChange := currentPrice - entryPrice in
  let priceChangePercent := priceChange / entryPrice in
  match positionType with
  | LONG => entryAmount * priceChangePercent * leverage
  | SHORT => entryAmount * - priceChangePercent * leverage
  end.

Definition calculatePnLPercentage (pnl entryAmount : Q) : Q :=
  (pnl / entryAmount) * 100.

Definition calculateLiquidationPrice (positionType : Side)
    (entryPrice leverage : Q) : Q :=
  let liquidationPercentage := 1 / leverage in
  match positionType with
  | LONG => entryPrice * (1 - liquidationPercentage)
  | SHORT => entryPrice * (1 + liquidationPercentage)
  end.

Definition isLiquidated (positionType : Side)
    (entryPrice currentPrice leverage : Q) : bool :=
  let liquidationPrice :=
    calculateLiquidationPrice positionType entryPrice leverage in
  match positionType with
  | LONG => Qle_bool currentPrice liquidationPrice
  | SHORT => Qle_bool liquidationPrice currentPrice
  end.

Definition calculatePayout (entryAmount pnl : Q)
    (didShoot liquidated : bool) : Q :=
  if liquidated then 0 else Qmax 0 (entryAmount + pnl).

(** ** Randomizer ([randomizer.ts]) *)

(** The elements of a list paired with their indices, as [forEach] visits
    them. *)
Definition indexed {A : Type} (l : list A) : list (nat * A) :=
  combine (seq 0 (List.length l)) l.

(** [sortRandom] stands for [[...playerIds].sort(() => Math.random() - 0.5)]:
    the outcome of one run of the library sort under a random comparator. *)
Definition assignRandomPositions (sortRandom : list string -> list string)
    (playerIds : list string) : JsMap.t Side :=
  let shuffled := sortRandom playerIds in
  let halfPoint := (List.length shuffled / 2)%nat in
  fold_left
    (fun positions '(index, playerId) =>
       JsMap.set playerId (if (index <? halfPoint)%nat then LONG else SHORT)
         positions)
    (indexed shuffled) JsMap.empty.

(** One executable shuffle: an insertion sort whose comparator answers are
    read from a list of coin flips ([true]: the new element goes first). *)
Fixpoint insert_by (coins : list bool) (x : string) (l : list string)
    {struct l} : list string * list bool :=
  match l with
  | [] => ([x], coins)
  | y :: l' =>
      match coins with
      | [] => (x :: y :: l', [])
      | true :: coins' => (x :: y :: l', coins')
      | false :: coins' =>
          let '(r, rest) := insert_by coins' x l' in (y :: r, rest)
      end
  end.

Fixpoint shuffle_with (coins : list bool) (l : list string)
    : list string * list bool :=
  match l with
  | [] => ([], coins)
  | x :: l' =>
      let '(r, rest) := shuffle_with coins l' in insert_by rest x r
  end.

Definition shuffle_by (coins : list bool) (l : list string) : list string :=
  fst (shuffle_with coins l).

Definition count_side (s : Side) (m : JsMap.t Side) : nat :=
  List.length (filter (Side_eqb s) (JsMap.values m)).

(** ** Data model ([types.ts]) *)

Inductive GamePhase : Type := LOBBY | ROUND.

Definition GamePhase_eqb (a b : GamePhase) : bool :=
  match a, b with
  | LOBBY, LOBBY | ROUND, ROUND => true
  | _, _ => false
  end.

Module PriceData.
Record t : Type := mk {
  pair : string;
  price : Q;
  confidence : Q;
  expo : Z;
  publishTime : Z
}.
End PriceData.

Module PlayerPosition.
Record t : Type := mk {
  playerId : string;
  positionType : Side;
  betAmount : Q;
  entryPrice : Q;
  currentPnl : Q;
  liquidated : bool;
  didShoot : bool;
  shotAt : option Z
}.

Definition with_currentPnl (v : Q) (p : t) : t :=
  mk (playerId p) (positionType p) (betAmount p) (entryPrice p)
     v (liquidated p) (didShoot p) (shotAt p).
Definition with_liquidated (v : bool) (p : t) : t :=
  mk (playerId p) (positionType p) (betAmount p) (entryPrice p)
     (currentPnl p) v (didShoot p) (shotAt p).
Definition with_didShoot (v : bool) (p : t) : t :=
  mk (playerId p) (positionType p) (betAmount p) (entryPrice p)
     (currentPnl p) (liquidated p) v (shotAt p).
Definition with_shotAt (v : option Z) (p : t) : t :=
  mk (playerId p) (positionType p) (betAmount p) (entryPrice p)
     (currentPnl p) (liquidated p) (didShoot p) v.
End PlayerPosition.

Module RoundState.
Record t : Type := mk {
  id : string;
  pair : string;
  entryPrice : Q;
  currentPrice : Q;
  leverage : Q;
  startTime : Z;
  endTime : option Z;
  duration : Q;
  totalWagered : Q;
  positions : JsMap.t PlayerPosition.t
}.

Definition with_currentPrice (v : Q) (r : t) : t :=
  mk (id r) (pair r) (entryPrice r) v (leverage r) (startTime r)
     (endTime r) (duration r) (totalWagered r) (positions r).
Definition with_positions (v : JsMap.t PlayerPosition.t) (r : t) : t :=
  mk (id r) (pair r) (entryPrice r) (currentPrice r) (leverage r)
     (startTime r) (endTime r) (duration r) (totalWagered r) v.
End RoundState.

Module GameState.
Record t : Type := mk {
  phase : GamePhase;
  currentRound : option RoundState.t;
  lobbyStartTime : option Z;
  lobbyEndTime : option Z
}.

Definition with_currentRound (v : option RoundState.t) (g : t) : t :=
  mk (phase g) v (lobbyStartTime g) (lobbyEndTime g).
End GameState.

Module LobbyPlayer.
Record t : Type := mk {
  playerId : string;
  username : string;
  betAmount : Q;
  balance : Q;
  joinedAt : Z
}.
End LobbyPlayer.

(** ** Configuration ([config.ts]); every value is read from the process
    environment, [default_CONFIG] holds the fall-back values. *)

Record Config : Type := mkConfig {
  DEFAULT_LEVERAGE : Q;
  LOBBY_DURATION_SECONDS : Z;
  MIN_ROUND_DURATION_SECONDS : Z;
  MAX_ROUND_DURATION_SECONDS : Z;
  DEFAULT_DEMO_BALANCE : Q;
  MIN_BET_AMOUNT : Q
}.

Definition default_CONFIG : Config :=
  mkConfig 500 20 10 120 100 (1 # 100).

(** ** Persistence (the Prisma client)

    The tables the orchestrator writes, with the operations it calls.  The
    columns are those the calls name; [id] and [username] of a player are
    unique (both are used as the [where] of a single-row operation), a
    single-row [update] of a missing row is an error, [updateMany] of no row
    is not.  The schema is not among the sources.  The counters of a new
    player row, which the [create] of the upsert does not name, are taken to
    start at zero.  What the schema demands of a new lobby entry is a
    parameter, kept with the tables as [lobbyEntryConstraint]; a [create]
    that does not meet it is an error, as [prisma.lobbyEntry.create] rejects
    on a violated constraint.  Storage itself never fails. *)

Module Prisma.

Record PlayerRow : Type := mkPlayer {
  id : string;
  username : string;
  demoBalance : Q;
  totalPnl : Q;
  gamesPlayed : Z;
  gamesWon : Z;
  gamesLost : Z
}.

Record PositionRow : Type := mkPosition {
  roundId : string;
  playerId : string;
  positionType : Side;
  entryAmount : Q;
  liquidated : bool;
  didShoot : bool;
  shotAt : option Z;
  exitPrice : option Q;
  pnl : option Q
}.

Inductive RoundStatus : Type := active | completed.

Record RoundRow : Type := mkRound {
  round_id : string;
  round_pair : string;
  round_entryPrice : Q;
  round_leverage : Q;
  durationSeconds : Q;
  startedAt : Z;
  status : RoundStatus;
  round_exitPrice : option Q;
  endedAt : option Z
}.

Record LobbyEntryRow : Type := mkLobbyEntry {
  entry_playerId : string;
  entry_betAmount : Q
}.

Record t : Type := mk {
  player : list PlayerRow;
  position : list PositionRow;
  round : list RoundRow;
  lobbyEntry : list LobbyEntryRow;
  (* the new row, the rows of the table: does the schema take it? *)
  lobbyEntryConstraint : LobbyEntryRow -> list LobbyEntryRow -> bool
}.

(** No row, and a schema that takes every lobby entry. *)
Definition empty : t := mk [] [] [] [] (fun _ _ => true).

Definition with_player (v : list PlayerRow) (d : t) : t :=
  mk v (position d) (round d) (lobbyEntry d) (lobbyEntryConstraint d).
Definition with_position (v : list PositionRow) (d : t) : t :=
  mk (player d) v (round d) (lobbyEntry d) (lobbyEntryConstraint d).
Definition with_round (v : list RoundRow) (d : t) : t :=
  mk (player d) (position d) v (lobbyEntry d) (lobbyEntryConstraint d).
Definition with_lobbyEntry (v : list LobbyEntryRow) (d : t) : t :=
  mk (player d) (position d) (round d) v (lobbyEntryConstraint d).
Definition with_lobbyEntryConstraint
    (v : LobbyEntryRow -> list LobbyEntryRow -> bool) (d : t) : t :=
  mk (player d) (position d) (round d) (lobbyEntry d) v.

(** One lobby entry per player: a constraint a schema may put on the table. *)
Definition uniquePlayerId (row : LobbyEntryRow) (rows : list LobbyEntryRow)
    : bool :=
  negb (existsb (fun r => String.eqb (entry_playerId r) (entry_playerId row))
          rows).

(** [player.findUnique({ where: { id } })] *)
Definition player_findUnique (where_id : string) (d : t)
    : option PlayerRow :=
  find (fun r => String.eqb (id r) where_id) (player d).

Definition player_findByUsername (where_username : string) (d : t)
    : option PlayerRow :=
  find (fun r => String.eqb (username r) where_username) (player d).

(** [player.update({ where: { id }, data })]: [None] when no row has
    that id. *)
Definition player_update (where_id : string)
    (data : PlayerRow -> PlayerRow) (d : t) : option t :=
  match player_findUnique where_id d with
  | None => None
  | Some _ =>
      Some (with_player
              (map (fun r => if String.eqb (id r) where_id
                             then data r else r) (player d)) d)
  end.

(** [player.upsert({ where: { username }, update: { id }, create: { id,
    username, demoBalance } })]: [None] when the id is already that of a
    row with another username. *)
Definition player_upsert (where_username : string) (new_id : string)
    (create_demoBalance : Q) (d : t) : option (PlayerRow * t) :=
  if existsb (fun r => String.eqb (id r) new_id
                       && negb (String.eqb (username r) where_username))
             (player d)
  then None
  else
    match player_findByUsername where_username d with
    | Some row =>
        let row' := mkPlayer new_id (username row) (demoBalance row)
                      (totalPnl row) (gamesPlayed row) (gamesWon row)
                      (gamesLost row) in
        Some (row',
              with_player
                (map (fun r => if String.eqb (username r) where_username
                               then row' else r) (player d)) d)
    | None =>
        let row := mkPlayer new_id where_username create_demoBalance
                     0 0%Z 0%Z 0%Z in
        Some (row, with_player (player d ++ [row]) d)
    end.

(** [position.updateMany({ where: { roundId, playerId }, data })] *)
Definition position_updateMany (where_roundId where_playerId : string)
    (data : PositionRow -> PositionRow) (d : t) : t :=
  with_position
    (map (fun r => if String.eqb (roundId r) where_roundId
                      && String.eqb (playerId r) where_playerId
                   then data r else r) (position d)) d.

Definition position_create (row : PositionRow) (d : t) : t :=
  with_position (position d ++ [row]) d.

Definition round_create (row : RoundRow) (d : t) : t :=
  with_round (round d ++ [row]) d.

(** [round.update({ where: { id }, data })] *)
Definition round_update (where_id : string)
    (data : RoundRow -> RoundRow) (d : t) : option t :=
  if existsb (fun r => String.eqb (round_id r) where_id) (round d)
  then Some (with_round
               (map (fun r => if String.eqb (round_id r) where_id
                              then data r else r) (round d)) d)
  else None.

(** [lobbyEntry.create({ data })]: [None] when the schema refuses the
    row. *)
Definition lobbyEntry_create (row : LobbyEntryRow) (d : t) : option t :=
  if lobbyEntryConstraint d row (lobbyEntry d)
  then Some (with_lobbyEntry (lobbyEntry d ++ [row]) d)
  else None.

(** [lobbyEntry.deleteMany({ where: { playerId: { in: ids } } })] *)
Definition lobbyEntry_deleteMany (ids : list string) (d : t) : t :=
  with_lobbyEntry
    (filter (fun r => negb (existsb (String.eqb (entry_playerId r)) ids))
       (lobbyEntry d)) d.

End Prisma.

(** ** Events emitted by the manager (it extends [EventEmitter]) *)

Inductive Event : Type :=
| lobby_start (lobbyEndTime : Z) (duration : Z)
| lobby_update (secondsRemaining : Z) (playersInLobby : nat)
    (totalWagered : Q) (players : list LobbyPlayer.t)
| round_start (roundId pair : string) (entryPrice leverage duration
    totalWagered : Q) (positions : list (string * Side * Q))
| price_update (roundId pair : string) (currentPrice : Q)
    (positions : list (string * Q * Q * bool))
| player_liquidated (playerId roundId : string) (finalPrice loss : Q)
| player_shoot (playerId roundId : string)
    (exitPrice pnl payout newBalance : Q)
| round_end (roundId pair : string) (finalPrice : Q) (reason : string)
    (payouts : list (string * Q * Q * bool))
| lobby_player_joined (playerId username : string) (betAmount balance : Q).

Definition is_lobby_update (e : Event) : bool :=
  match e with lobby_update _ _ _ _ => true | _ => false end.

(** ** Errors thrown by the handlers *)

Inductive GameError : Type :=
| Cannot_join_lobby_during_active_round
| Minimum_bet
| Already_in_lobby
| Insufficient_balance
| No_active_round
| Round_ID_mismatch
| Position_not_found
| Already_shot
| Position_liquidated
| PrismaError
| TypeError.

Inductive outcome (A : Type) : Type :=
| Done (a : A)
| Thrown (e : GameError).
Arguments Done {A} a.
Arguments Thrown {A} e.

Definition is_Done {A : Type} (o : outcome A) : bool :=
  match o with Done _ => true | Thrown _ => false end.

(** ** The state of the process

    The fields of [GameStateManager], the pending timers of the runtime, the
    database and the log of emitted events (oldest first).  [lobbyInterval]
    is the local [lobbyUpdateInterval] of the latest activation of
    [startLobby]: the periodic broadcast that belongs to the current lobby. *)

Inductive TimeoutCallback : Type := endLobby_cb | endRound_cb.

Record World : Type := mkWorld {
  gameState : GameState.t;
  lobbyPlayers : JsMap.t LobbyPlayer.t;
  lobbyTimer : option nat;
  roundTimer : option nat;
  priceUnsubscribe : option string;
  timeouts : list (nat * TimeoutCallback);
  intervals : list nat;
  lobbyInterval : option nat;
  nextHandle : nat;
  db : Prisma.t;
  emitted : list Event
}.

Definition with_gameState (v : GameState.t) (w : World) : World :=
  mkWorld v (lobbyPlayers w) (lobbyTimer w) (roundTimer w)
    (priceUnsubscribe w) (timeouts w) (intervals w) (lobbyInterval w)
    (nextHandle w) (db w) (emitted w).
Definition with_lobbyPlayers (v : JsMap.t LobbyPlayer.t) (w : World)
    : World :=
  mkWorld (gameState w) v (lobbyTimer w) (roundTimer w)
    (priceUnsubscribe w) (timeouts w) (intervals w) (lobbyInterval w)
    (nextHandle w) (db w) (emitted w).
Definition with_priceUnsubscribe (v : option string) (w : World) : World :=
  mkWorld (gameState w) (lobbyPlayers w) (lobbyTimer w) (roundTimer w)
    v (timeouts w) (intervals w) (lobbyInterval w)
    (nextHandle w) (db w) (emitted w).
Definition with_timeouts (v : list (nat * TimeoutCallback)) (w : World)
    : World :=
  mkWorld (gameState w) (lobbyPlayers w) (lobbyTimer w) (roundTimer w)
    (priceUnsubscribe w) v (intervals w) (lobbyInterval w)
    (nextHandle w) (db w) (emitted w).
Definition with_intervals (v : list nat) (w : World) : World :=
  mkWorld (gameState w) (lobbyPlayers w) (lobbyTimer w) (roundTimer w)
    (priceUnsubscribe w) (timeouts w) v (lobbyInterval w)
    (nextHandle w) (db w) (emitted w).
Definition with_db (v : Prisma.t) (w : World) : World :=
  mkWorld (gameState w) (lobbyPlayers w) (lobbyTimer w) (roundTimer w)
    (priceUnsubscribe w) (timeouts w) (intervals w) (lobbyInterval w)
    (nextHandle w) v (emitted w).

(** [this.emit(...)] *)
Definition emit (e : Event) (w : World) : World :=
  mkWorld (gameState w) (lobbyPlayers w) (lobbyTimer w) (roundTimer w)
    (priceUnsubscribe w) (timeouts w) (intervals w) (lobbyInterval w)
    (nextHandle w) (db w) (emitted w ++ [e]).

Definition phase (w : World) : GamePhase := GameState.phase (gameState w).
Definition currentRound (w : World) : option RoundState.t :=
  GameState.currentRound (gameState w).

(** ** Handlers as state transformers that may throw.  What was written
    before a throw stays written. *)

Definition Op (A : Type) : Type := World -> outcome A * World.

Definition ret {A : Type} (a : A) : Op A := fun w => (Done a, w).

Definition throw {A : Type} (e : GameError) : Op A := fun w => (Thrown e, w).

Definition bind {A B : Type} (c : Op A) (k : A -> Op B) : Op B :=
  fun w =>
    match c w with
    | (Done a, w') => k a w'
    | (Thrown e, w') => (Thrown e, w')
    end.

Definition get : Op World := fun w => (Done w, w).

Definition modify (f : World -> World) : Op unit := fun w => (Done tt, f w).

(** A database call that answers [None] rejects with a Prisma error. *)
Definition prisma {A : Type} (call : Prisma.t -> option (A * Prisma.t))
    : Op A :=
  fun w =>
    match call (db w) with
    | Some (a, d) => (Done a, with_db d w)
    | None => (Thrown PrismaError, w)
    end.

Declare Scope op_scope.
Delimit Scope op_scope with op.
Notation "x <- c ;; k" := (bind c (fun x => k))
  (at level 61, c at next level, right associativity) : op_scope.
Notation "c ;; k" := (bind c (fun _ => k))
  (at level 61, right associativity) : op_scope.

Definition Qlt_bool (a b : Q) : bool := negb (Qle_bool b a).

(** [Math.ceil(a / b)] on integers, [b] positive. *)
Definition ceil_div (a b : Z) : Z := (- ((- a) / b))%Z.

(** What one activation of a handler reads from outside the manager. *)
Record Env : Type := mkEnv {
  now : Z;                            (* Date.now() *)
  selectedPair : option string;       (* selectRandomPair(getHighVolatilityPairs()) *)
  priceSample : option PriceData.t;   (* getCurrentPrice: None on time-out *)
  newRoundId : string;                (* the id round.create answers with *)
  randomDuration : Q;                 (* generateRandomDuration(...) *)
  sortRandom : list string -> list string
}.

(** ** [GameStateManager] *)

Section GameStateManager.

Variable CONFIG : Config.

Local Open Scope op_scope.

(** [new GameStateManager()] *)
Definition constructor (clock : Z) : World :=
  mkWorld
    (GameState.mk LOBBY None (Some clock)
       (Some (clock + LOBBY_DURATION_SECONDS CONFIG * 1000)%Z))
    JsMap.empty None None None [] [] None 0%nat Prisma.empty [].

Definition startLobby (clock : Z) (w : World) : World :=
  let lobbyEndTime := (clock + LOBBY_DURATION_SECONDS CONFIG * 1000)%Z in
  let timer := nextHandle w in
  let lobbyUpdateInterval := S (nextHandle w) in
  mkWorld
    (GameState.mk LOBBY None (Some clock) (Some lobbyEndTime))
    JsMap.empty
    (Some timer) (roundTimer w) (priceUnsubscribe w)
    (timeouts w ++ [(timer, endLobby_cb)])
    (intervals w ++ [lobbyUpdateInterval])
    (Some lobbyUpdateInterval)
    (S (S (nextHandle w)))
    (db w)
    (emitted w
       ++ [lobby_start lobbyEndTime (LOBBY_DURATION_SECONDS CONFIG)]).

Definition initialize (clock : Z) (w : World) : World := startLobby clock w.

Definition sumBets (players : list LobbyPlayer.t) : Q :=
  fold_left (fun sum p => sum + LobbyPlayer.betAmount p) players 0.

(** The callback given to [setInterval] in [startLobby]; [h] is the
    interval it was registered under ([lobbyUpdateInterval]). *)
Definition lobbyUpdateCallback (h : nat) (clock : Z) (w : World) : World :=
  if negb (GamePhase_eqb (phase w) LOBBY)
  then with_intervals (filter (fun i => negb (Nat.eqb i h)) (intervals w)) w
  else
    let lobbyEndTime :=
      match GameState.lobbyEndTime (gameState w) with
      | Some e => e
      | None => 0%Z
      end in
    let secondsRemaining :=
      Z.max 0 (ceil_div (lobbyEndTime - clock) 1000) in
    let totalWagered := sumBets (JsMap.values (lobbyPlayers w)) in
    emit (lobby_update secondsRemaining (JsMap.size (lobbyPlayers w))
            totalWagered (JsMap.values (lobbyPlayers w))) w.

(** The loop of [startRound] over the assigned sides. *)
Fixpoint createPositions (roundId : string) (entryPrice : Q)
    (assignments : list (string * Side))
    (positions : JsMap.t PlayerPosition.t)
    : Op (JsMap.t PlayerPosition.t) :=
  match assignments with
  | [] => ret positions
  | (playerId, positionType) :: rest =>
      w <- get ;;
      match JsMap.get playerId (lobbyPlayers w) with
      | None => throw TypeError
      | Some lobbyPlayer =>
          let bet := LobbyPlayer.betAmount lobbyPlayer in
          let positions' :=
            JsMap.set playerId
              (PlayerPosition.mk playerId positionType bet entryPrice
                 0 false false None) positions in
          modify (fun w =>
            with_db (Prisma.position_create
                       (Prisma.mkPosition roundId playerId positionType
                          bet false false None None None) (db w)) w) ;;
          prisma (fun d =>
            option_map (fun d' => (tt, d'))
              (Prisma.player_update playerId
                 (fun r => Prisma.mkPlayer (Prisma.id r)
                    (Prisma.username r) (Prisma.demoBalance r - bet)
                    (Prisma.totalPnl r) (Prisma.gamesPlayed r)
                    (Prisma.gamesWon r) (Prisma.gamesLost r)) d)) ;;
          createPositions roundId entryPrice rest positions'
      end
  end.

Definition startRound (pair : string) (env : Env) : Op unit :=
  let clock := now env in
  let leverage := DEFAULT_LEVERAGE CONFIG in
  let duration := randomDuration env in
  match priceSample env with
  | None => modify (startLobby clock)
  | Some priceData =>
      let entryPrice := PriceData.price priceData in
      w <- get ;;
      let totalWagered := sumBets (JsMap.values (lobbyPlayers w)) in
      let round_id := newRoundId env in
      modify (fun w =>
        with_db (Prisma.round_create
                   (Prisma.mkRound round_id pair entryPrice leverage
                      duration clock Prisma.active None None) (db w)) w) ;;
      let playerIds := JsMap.keys (lobbyPlayers w) in
      let positionAssignments :=
        assignRandomPositions (sortRandom env) playerIds in
      positions <- createPositions round_id entryPrice
                     (JsMap.entries positionAssignments) JsMap.empty ;;
      modify (fun w =>
        with_db (Prisma.lobbyEntry_deleteMany playerIds (db w)) w) ;;
      modify (fun w =>
        let timer := nextHandle w in
        mkWorld
          (GameState.mk ROUND
             (Some (RoundState.mk round_id pair entryPrice entryPrice
                      leverage clock None duration totalWagered positions))
             (GameState.lobbyStartTime (gameState w))
             (GameState.lobbyEndTime (gameState w)))
          JsMap.empty
          (lobbyTimer w) (Some timer) (Some pair)
          (timeouts w ++ [(timer, endRound_cb)])
          (intervals w) (lobbyInterval w)
          (S (nextHandle w))
          (db w)
          (emitted w
             ++ [round_start round_id pair entryPrice leverage duration
                   totalWagered
                   (map (fun '(playerId, pos) =>
                           (playerId, PlayerPosition.positionType pos,
                            PlayerPosition.betAmount pos))
                      (JsMap.entries positions))]))
  end.

Definition endLobby (env : Env) : Op unit :=
  w <- get ;;
  if Nat.eqb (JsMap.size (lobbyPlayers w)) 0
  then modify (startLobby (now env))
  else
    match selectedPair env with
    | None => modify (startLobby (now env))
    | Some selected => startRound selected env
    end.

(** One turn of the loop of [handlePriceUpdate]: the position after the
    tick, and what was emitted and written on the way. *)
Definition updatePosition (round : RoundState.t) (price : Q)
    (playerId : string) (position : PlayerPosition.t) (w : World)
    : PlayerPosition.t * World :=
  if PlayerPosition.liquidated position || PlayerPosition.didShoot position
  then (position, w)
  else
    let pnl :=
      calculatePnL (PlayerPosition.positionType position)
        (PlayerPosition.entryPrice position) price
        (PlayerPosition.betAmount position) (RoundState.leverage round) in
    let position := PlayerPosition.with_currentPnl pnl position in
    if isLiquidated (PlayerPosition.positionType position)
         (PlayerPosition.entryPrice position) price
         (RoundState.leverage round)
    then
      let position := PlayerPosition.with_liquidated true position in
      let bet := PlayerPosition.betAmount position in
      let w := emit (player_liquidated playerId (RoundState.id round)
                       price bet) w in
      let w :=
        with_db (Prisma.position_updateMany (RoundState.id round) playerId
                   (fun r => Prisma.mkPosition (Prisma.roundId r)
                      (Prisma.playerId r) (Prisma.positionType r)
                      (Prisma.entryAmount r) true (Prisma.didShoot r)
                      (Prisma.shotAt r) (Some price) (Some (- bet)))
                   (db w)) w in
      let w :=
        match Prisma.player_update playerId
                (fun r => Prisma.mkPlayer (Prisma.id r)
                   (Prisma.username r) (Prisma.demoBalance r)
                   (Prisma.totalPnl r - bet) (Prisma.gamesPlayed r)
                   (Prisma.gamesWon r) (Prisma.gamesLost r + 1)%Z)
                (db w) with
        | Some d => with_db d w
        | None => w                (* .catch: logged *)
        end in
      (position, w)
    else (position, w).

Fixpoint updatePositions (round : RoundState.t) (price : Q)
    (entries : list (string * PlayerPosition.t)) (w : World)
    : list (string * PlayerPosition.t) * World :=
  match entries with
  | [] => ([], w)
  | (playerId, position) :: rest =>
      let '(position', w1) :=
        updatePosition round price playerId position w in
      let '(rest', w2) := updatePositions round price rest w1 in
      ((playerId, position') :: rest', w2)
  end.

Definition handlePriceUpdate (priceData : PriceData.t) (w : World)
    : World :=
  match phase w, currentRound w with
  | ROUND, Some round =>
      let price := PriceData.price priceData in
      let '(positions, w1) :=
        updatePositions round price
          (JsMap.entries (RoundState.positions round)) w in
      let round' :=
        RoundState.with_positions positions
          (RoundState.with_currentPrice price round) in
      let w2 :=
        with_gameState
          (GameState.with_currentRound (Some round') (gameState w1)) w1 in
      emit (price_update (RoundState.id round) (RoundState.pair round)
              price
              (map (fun '(playerId, pos) =>
                      (playerId, PlayerPosition.currentPnl pos,
                       calculatePnLPercentage
                         (PlayerPosition.currentPnl pos)
                         (PlayerPosition.betAmount pos),
                       PlayerPosition.liquidated pos))
                 (JsMap.entries positions))) w2
  | _, _ => w
  end.

(** The settlement loop of [endRound]. *)
Fixpoint settlePositions (round : RoundState.t) (finalPrice : Q)
    (entries : list (string * PlayerPosition.t))
    (payouts : list (string * Q * Q * bool))
    : Op (list (string * Q * Q * bool)) :=
  match entries with
  | [] => ret payouts
  | (playerId, position) :: rest =>
      let pnl :=
        if PlayerPosition.didShoot position
           || PlayerPosition.liquidated position
        then PlayerPosition.currentPnl position
        else calculatePnL (PlayerPosition.positionType position)
               (PlayerPosition.entryPrice position) finalPrice
               (PlayerPosition.betAmount position)
               (RoundState.leverage round) in
      let payout :=
        calculatePayout (PlayerPosition.betAmount position) pnl
          (PlayerPosition.didShoot position)
          (PlayerPosition.liquidated position) in
      let payouts :=
        payouts ++ [(playerId, payout, pnl,
                     PlayerPosition.didShoot position)] in
      modify (fun w =>
        with_db (Prisma.position_updateMany (RoundState.id round) playerId
                   (fun r => Prisma.mkPosition (Prisma.roundId r)
                      (Prisma.playerId r) (Prisma.positionType r)
                      (Prisma.entryAmount r) (Prisma.liquidated r)
                      (Prisma.didShoot r) (Prisma.shotAt r)
                      (Some finalPrice) (Some pnl))
                   (db w)) w) ;;
      let balanceChange := payout in
      let pnlChange := pnl in
      prisma (fun d =>
        option_map (fun d' => (tt, d'))
          (Prisma.player_update playerId
             (fun r => Prisma.mkPlayer (Prisma.id r) (Prisma.username r)
                (Prisma.demoBalance r + balanceChange)
                (Prisma.totalPnl r + pnlChange)
                (Prisma.gamesPlayed r + 1)%Z
                (if Qlt_bool 0 pnl then (Prisma.gamesWon r + 1)%Z
                 else Prisma.gamesWon r)
                (if Qlt_bool 0 pnl then Prisma.gamesLost r
                 else if Qlt_bool pnl 0 then (Prisma.gamesLost r + 1)%Z
                 else Prisma.gamesLost r)) d)) ;;
      settlePositions round finalPrice rest payouts
  end.

Definition endRound (reason : string) (clock : Z) : Op unit :=
  w <- get ;;
  match phase w, currentRound w with
  | ROUND, Some round =>
      let finalPrice := RoundState.currentPrice round in
      modify (with_priceUnsubscribe None) ;;
      payouts <- settlePositions round finalPrice
                   (JsMap.entries (RoundState.positions round)) [] ;;
      prisma (fun d =>
        option_map (fun d' => (tt, d'))
          (Prisma.round_update (RoundState.id round)
             (fun r => Prisma.mkRound (Prisma.round_id r)
                (Prisma.round_pair r) (Prisma.round_entryPrice r)
                (Prisma.round_leverage r) (Prisma.durationSeconds r)
                (Prisma.startedAt r) Prisma.completed (Some finalPrice)
                (Some clock)) d)) ;;
      modify (emit (round_end (RoundState.id round) (RoundState.pair round)
                      finalPrice reason payouts)) ;;
      modify (startLobby clock)
  | _, _ => ret tt
  end.

Definition joinLobby (playerId username : string) (betAmount : Q)
    (clock : Z) : Op unit :=
  w <- get ;;
  if negb (GamePhase_eqb (phase w) LOBBY)
  then throw Cannot_join_lobby_during_active_round
  else if Qlt_bool betAmount (MIN_BET_AMOUNT CONFIG)
  then throw Minimum_bet
  else if JsMap.has playerId (lobbyPlayers w)
  then throw Already_in_lobby
  else
    player <- prisma (Prisma.player_upsert username playerId
                        (DEFAULT_DEMO_BALANCE CONFIG)) ;;
    if Qlt_bool (Prisma.demoBalance player) betAmount
    then throw Insufficient_balance
    else
      modify (fun w =>
        with_lobbyPlayers
          (JsMap.set playerId
             (LobbyPlayer.mk playerId username betAmount
                (Prisma.demoBalance player) clock)
             (lobbyPlayers w)) w) ;;
      prisma (fun d =>
        option_map (fun d' => (tt, d'))
          (Prisma.lobbyEntry_create
             (Prisma.mkLobbyEntry playerId betAmount) d)) ;;
      modify (emit (lobby_player_joined playerId username betAmount
                      (Prisma.demoBalance player))).

Definition shoot (playerId roundId : string) (clock : Z) : Op unit :=
  w <- get ;;
  match phase w, currentRound w with
  | ROUND, Some round =>
      if negb (String.eqb (RoundState.id round) roundId)
      then throw Round_ID_mismatch
      else
        match JsMap.get playerId (RoundState.positions round) with
        | None => throw Position_not_found
        | Some position =>
            if PlayerPosition.didShoot position then throw Already_shot
            else if PlayerPosition.liquidated position
            then throw Position_liquidated
            else
              let position :=
                PlayerPosition.with_shotAt (Some clock)
                  (PlayerPosition.with_didShoot true position) in
              modify (fun w =>
                with_gameState
                  (GameState.with_currentRound
                     (Some (RoundState.with_positions
                              (JsMap.set playerId position
                                 (RoundState.positions round)) round))
                     (gameState w)) w) ;;
              let exitPrice := RoundState.currentPrice round in
              let pnl := PlayerPosition.currentPnl position in
              let payout :=
                calculatePayout (PlayerPosition.betAmount position) pnl
                  true false in
              modify (fun w =>
                with_db (Prisma.position_updateMany roundId playerId
                           (fun r => Prisma.mkPosition (Prisma.roundId r)
                              (Prisma.playerId r) (Prisma.positionType r)
                              (Prisma.entryAmount r) (Prisma.liquidated r)
                              true (Some clock) (Some exitPrice)
                              (Some pnl))
                           (db w)) w) ;;
              prisma (fun d =>
                option_map (fun d' => (tt, d'))
                  (Prisma.player_update playerId
                     (fun r => Prisma.mkPlayer (Prisma.id r)
                        (Prisma.username r)
                        (Prisma.demoBalance r + payout)
                        (Prisma.totalPnl r + pnl) (Prisma.gamesPlayed r)
                        (Prisma.gamesWon r) (Prisma.gamesLost r)) d)) ;;
              w' <- get ;;
              let newBalance :=
                match Prisma.player_findUnique playerId (db w') with
                | Some player => Prisma.demoBalance player
                | None => 0
                end in
              modify (emit (player_shoot playerId roundId exitPrice pnl
                              payout newBalance))
        end
  | _, _ => throw No_active_round
  end.

Definition getPlayerBalance (playerId : string) (w : World)
    : option (Q * Q * Z) :=
  match Prisma.player_findUnique playerId (db w) with
  | None => None
  | Some player =>
      Some (Prisma.demoBalance player, Prisma.totalPnl player,
            Prisma.gamesPlayed player)
  end.

(** ** The event loop

    What can happen next: a pending time-out or a live interval comes
    due, the feed delivers a tick of the subscribed pair, or a player
    command arrives.  An input that names no pending timer, or a tick for
    a pair that is not subscribed, changes nothing. *)

Inductive Input : Type :=
| TimeoutFires (h : nat) (env : Env)
| IntervalFires (h : nat) (clock : Z)
| PriceTick (priceData : PriceData.t)
| JoinLobby (playerId username : string) (betAmount : Q) (clock : Z)
| Shoot (playerId roundId : string) (clock : Z).

Definition pendingTimeout (h : nat) (w : World) : option TimeoutCallback :=
  option_map snd (find (fun t => Nat.eqb (fst t) h) (timeouts w)).

Definition dropTimeout (h : nat) (w : World) : World :=
  with_timeouts (filter (fun t => negb (Nat.eqb (fst t) h)) (timeouts w)) w.

Definition step (w : World) (i : Input) : outcome unit * World :=
  match i with
  | TimeoutFires h env =>
      match pendingTimeout h w with
      | Some endLobby_cb => endLobby env (dropTimeout h w)
      | Some endRound_cb =>
          endRound "time_expired" (now env) (dropTimeout h w)
      | None => (Done tt, w)
      end
  | IntervalFires h clock =>
      if existsb (Nat.eqb h) (intervals w)
      then (Done tt, lobbyUpdateCallback h clock w)
      else (Done tt, w)
  | PriceTick priceData =>
      match priceUnsubscribe w with
      | Some subscribed =>
          if String.eqb subscribed (PriceData.pair priceData)
          then (Done tt, handlePriceUpdate priceData w)
          else (Done tt, w)
      | None => (Done tt, w)
      end
  | JoinLobby playerId username betAmount clock =>
      joinLobby playerId username betAmount clock w
  | Shoot playerId roundId clock => shoot playerId roundId clock w
  end.

Definition run (w : World) (inputs : list Input) : World :=
  fold_left (fun w i => snd (step w i)) inputs w.

(** What the broadcast interval [h] emits when it comes due in [w]. *)
Definition emittedBy (w : World) (i : Input) : list Event :=
  skipn (List.length (emitted w)) (emitted (snd (step w i))).

End GameStateManager.

(** * Vocabulary of the statements *)

(** The side given to the player at [index] of the shuffled list. *)
Definition sideOfIndex (halfPoint index : nat) : Side :=
  if (index <? halfPoint)%nat then LONG else SHORT.

(** A position closed by a shot or by liquidation. *)
Definition terminal (p : PlayerPosition.t) : bool :=
  PlayerPosition.liquidated p || PlayerPosition.didShoot p.

(** The position of [playerId] in the active round. *)
Definition positionOf (playerId : string) (w : World)
    : option PlayerPosition.t :=
  match currentRound w with
  | Some round => JsMap.get playerId (RoundState.positions round)
  | None => None
  end.

(** The inputs that can arrive while a round lasts without ending it:
    everything but a time-out coming due. *)
Definition withinRound (i : Input) : bool :=
  match i with
  | TimeoutFires _ _ => false
  | _ => true
  end.

(** No position of the active round is both liquidated and shot. *)
Definition neverBoth (w : World) : Prop :=
  forall round playerId position,
    currentRound w = Some round ->
    In (playerId, position) (RoundState.positions round) ->
    PlayerPosition.liquidated position && PlayerPosition.didShoot position
      = false.

(** The balance the player table holds for [playerId]. *)
Definition balanceOf (playerId : string) (w : World) : option Q :=
  option_map Prisma.demoBalance (Prisma.player_findUnique playerId (db w)).

(** ** Sample worlds, used to exercise the statements *)

Definition sampleEnv (clock : Z) (price : Q) : Env :=
  mkEnv clock (Some "BTC/USD"%string)
    (Some (PriceData.mk "BTC/USD" price 1 0%Z clock)) "round-1" 30
    (shuffle_by [false; true; false]).

Definition sampleTick (price : Q) : PriceData.t :=
  PriceData.mk "BTC/USD" price 1 0%Z 0%Z.

(** A fresh process in its first lobby. *)
Definition sampleLobby : World :=
  initialize default_CONFIG 0%Z (constructor default_CONFIG 0%Z).

(** The first lobby after alice staked 10. *)
Definition sampleLobby1 : World :=
  run default_CONFIG sampleLobby
    [JoinLobby "a" "alice" 10 5%Z].

(** The round that starts from it at price 100: alice is SHORT. *)
Definition sampleRound : World :=
  run default_CONFIG sampleLobby1 [TimeoutFires 0 (sampleEnv 20000%Z 100)].

(** The id of the active round. *)
Definition roundIdOf (w : World) : option string :=
  option_map RoundState.id (currentRound w).

(** [w'] has the game state of [w]. *)
Definition sameGame (w w' : World) : Prop := gameState w' = gameState w.

(** A position as [shoot] marks it. *)
Definition shotPosition (clock : Z) (p : PlayerPosition.t)
    : PlayerPosition.t :=
  PlayerPosition.with_shotAt (Some clock)
    (PlayerPosition.with_didShoot true p).

(** That round after a tick at 99.9 (alice gains 5) ... *)
Definition sampleTicked : World :=
  run default_CONFIG sampleRound [PriceTick (sampleTick (999 # 10))].

(** ... and after alice's shot at that price. *)
Definition sampleShot : World :=
  run default_CONFIG sampleTicked [Shoot "a" "round-1" 21000%Z].

(** The round after a tick at alice's liquidation price, 100.2. *)
Definition sampleLiquidated : World :=
  run default_CONFIG sampleRound [PriceTick (sampleTick (1002 # 10))].

(** [w'] extends the log of [w] by events other than [lobby:update]. *)
Definition quiet (w w' : World) : Prop :=
  exists events,
    emitted w' = emitted w ++ events
    /\ existsb is_lobby_update events = false.

(** From [w] to [w'] the handle counter only grows and every live interval
    of [w'] was live in [w] or was created in between. *)
Definition timersGrow (w w' : World) : Prop :=
  (nextHandle w <= nextHandle w')%nat
  /\ forall h, In h (intervals w') ->
       In h (intervals w) \/ (nextHandle w <= h < nextHandle w')%nat.

(** Every live interval was handed out by the handle counter. *)
Definition handlesAllocated (w : World) : Prop :=
  forall h, In h (intervals w) -> (h < nextHandle w)%nat.

(** The process after [history], started at time [clock]. *)
Definition reached (CONFIG : Config) (clock : Z) (history : list Input)
    : World :=
  run CONFIG (initialize CONFIG clock (constructor CONFIG clock)) history.

(** The claim on the periodic broadcast, as the specification words it:
    whenever an interval comes due and broadcasts [lobby:update], the phase
    is LOBBY and the interval is the one of the current lobby. *)
Definition broadcastOwnedByCurrentLobby (CONFIG : Config) : Prop :=
  forall clock0 history h clock,
    let w := reached CONFIG clock0 history in
    existsb is_lobby_update (emittedBy CONFIG w (IntervalFires h clock))
      = true ->
    phase w = LOBBY /\ lobbyInterval w = Some h.

(** An environment in which no pair is volatile enough. *)
Definition idleEnv (clock : Z) : Env :=
  mkEnv clock None None "unused" 30 (fun l => l).

(** The claim on rejected joins, as it is worded: whatever the rejection,
    the roster is the one before the call. *)
Definition rosterUnchangedOnRejection (CONFIG : Config) : Prop :=
  forall playerId username betAmount clock w e,
    fst (joinLobby CONFIG playerId username betAmount clock w) = Thrown e ->
    lobbyPlayers (snd (joinLobby CONFIG playerId username betAmount clock w))
    = lobbyPlayers w.

(** A process over a schema with one lobby entry per player: bob staked 20
    in the first lobby, which ended with no volatile pair, so that the
    second lobby starts with bob's entry still in the table. *)
Definition sampleSecondLobby : World :=
  run default_CONFIG
    (with_db (Prisma.with_lobbyEntryConstraint Prisma.uniquePlayerId
                (db sampleLobby)) sampleLobby)
    [JoinLobby "b" "bob" 20 5%Z; TimeoutFires 0 (idleEnv 20000%Z)].

(** The handler [c] leaves every state related by [R] to the state it
    ends in, whether it returns or throws. *)
Definition keeps (R : World -> World -> Prop) {A : Type} (c : Op A) : Prop :=
  forall w, R w (snd (c w)).

(** * The rest of the randomizer and of the calculation engine *)

From Stdlib Require Import Qround.

Module VolatilityData.
Record t : Type := mk {
  pair : string;
  volatility : Q;                    (* standard deviation *)
  priceHistory : list Q;
  lastUpdated : Z
}.
End VolatilityData.

(** [Array.prototype.sort] with a comparator that is a consistent order: the
    sort is stable, so its result is the one of this insertion sort.
    [compare a b <= 0] keeps [a] before [b]. *)
Fixpoint sortInsert {A : Type} (compare : A -> A -> Q) (x : A) (l : list A)
    : list A :=
  match l with
  | [] => [x]
  | y :: l' =>
      if Qle_bool (compare x y) 0 then x :: y :: l'
      else y :: sortInsert compare x l'
  end.

Definition sort {A : Type} (compare : A -> A -> Q) (l : list A) : list A :=
  fold_right (sortInsert compare) [] l.

(** The comparator [(a, b) => b.volatility - a.volatility]. *)
Definition byVolatilityDesc (a b : VolatilityData.t) : Q :=
  VolatilityData.volatility b - VolatilityData.volatility a.

(** [array[index]] for an index computed with [Math.floor]. *)
Definition at_index {A : Type} (l : list A) (index : Z) : option A :=
  if (index <? 0)%Z then None else nth_error l (Z.to_nat index).

(** [random] is the value [Math.random()] answers with. *)
Definition selectRandomPair (volatilityData : list VolatilityData.t)
    (random : Q) : option string :=
  if Nat.eqb (List.length volatilityData) 0 then None
  else
    let sorted := sort byVolatilityDesc volatilityData in
    let topCount :=
      Z.max 1 (Qceiling (inject_Z (Z.of_nat (List.length sorted)) * (3 # 10))) in
    let topPairs := firstn (Z.to_nat topCount) sorted in
    let randomIndex :=
      Qfloor (random * inject_Z (Z.of_nat (List.length topPairs))) in
    option_map VolatilityData.pair (at_index topPairs randomIndex).

(** [Math.round]: the nearest integer, a half going up. *)
Definition Math_round (x : Q) : Z := Qfloor (x + (1 # 2)).

Definition generateRandomDuration (leverage minSeconds maxSeconds : Q)
    (random : Q) : Q :=
  let leverageFactor := 500 / leverage in
  let adjustedMax := Qmin (maxSeconds * leverageFactor) (maxSeconds * 5) in
  let duration := minSeconds + random * (adjustedMax - minSeconds) in
  inject_Z (Math_round (duration * 100)) / 100.

(** ** Vocabulary for them *)

(** How many elements of [l] are strictly more volatile than [v]. *)
Definition countAbove (v : Q) (l : list VolatilityData.t) : nat :=
  List.length
    (filter (fun d => Qlt_bool v (VolatilityData.volatility d)) l).

(** The size of the top slice of [selectRandomPair] for [n] candidates. *)
Definition topSlice (n : nat) : nat :=
  Z.to_nat (Z.max 1 (Qceiling (inject_Z (Z.of_nat n) * (3 # 10)))).

(** Descending order of volatility. *)
Fixpoint descending (l : list VolatilityData.t) : Prop :=
  match l with
  | [] => True
  | x :: l' =>
      (forall y, In y l' ->
         VolatilityData.volatility y <= VolatilityData.volatility x)
      /\ descending l'
  end.

(** Four candidates, for the examples. *)
Definition sampleCandidates : list VolatilityData.t :=
  [VolatilityData.mk "AAA" (2 # 1000) [] 0%Z;
   VolatilityData.mk "BBB" (9 # 1000) [] 0%Z;
   VolatilityData.mk "CCC" (5 # 1000) [] 0%Z;
   VolatilityData.mk "DDD" (7 # 1000) [] 0%Z].

(** * Vocabulary for the life cycle of lobbies and rounds *)

(** [w'] differs from [w] in the database and the event log at most. *)
Definition sameControl (w w' : World) : Prop :=
  w' = mkWorld (gameState w) (lobbyPlayers w) (lobbyTimer w) (roundTimer w)
         (priceUnsubscribe w) (timeouts w) (intervals w) (lobbyInterval w)
         (nextHandle w) (db w') (emitted w').

(** The phase and the presence of a round agree, and the roster is empty
    while a round lasts. *)
Definition phaseMatchesRound (w : World) : Prop :=
  (phase w = ROUND <-> currentRound w <> None)
  /\ (phase w = ROUND -> lobbyPlayers w = []).

(** The roster holds one entry per player, filed under the player's id,
    with a bet of at least the minimum that the snapshot balance covers. *)
Definition rosterWellFormed (CONFIG : Config) (w : World) : Prop :=
  NoDup (JsMap.keys (lobbyPlayers w))
  /\ forall k entry,
       In (k, entry) (lobbyPlayers w) ->
       LobbyPlayer.playerId entry = k
       /\ MIN_BET_AMOUNT CONFIG <= LobbyPlayer.betAmount entry
       /\ LobbyPlayer.betAmount entry <= LobbyPlayer.balance entry.

(** The positions of the active round: one per player, filed under the
    player's id, entered at the entry price of the round. *)
Definition positionsWellFormed (w : World) : Prop :=
  forall round,
    currentRound w = Some round ->
    NoDup (JsMap.keys (RoundState.positions round))
    /\ forall k position,
         In (k, position) (RoundState.positions round) ->
         PlayerPosition.playerId position = k
         /\ PlayerPosition.entryPrice position = RoundState.entryPrice round.

(** At most one time-out is pending; it is the one the phase is waiting
    for, and the manager holds its handle. *)
Definition timersMatchPhase (w : World) : Prop :=
  timeouts w = []
  \/ (exists h, timeouts w = [(h, endLobby_cb)]
                /\ phase w = LOBBY /\ lobbyTimer w = Some h)
  \/ (exists h, timeouts w = [(h, endRound_cb)]
                /\ phase w = ROUND /\ roundTimer w = Some h
                /\ exists round,
                     currentRound w = Some round
                     /\ priceUnsubscribe w = Some (RoundState.pair round)).

(** The feed subscription the manager holds is for the pair of the active
    round. *)
Definition subscriptionMatchesRound (w : World) : Prop :=
  forall subscribed,
    priceUnsubscribe w = Some subscribed ->
    phase w = ROUND
    /\ exists round,
         currentRound w = Some round /\ RoundState.pair round = subscribed.

(** The P&L at which [endRound] settles a position. *)
Definition settledPnl (round : RoundState.t) (position : PlayerPosition.t)
    : Q :=
  if PlayerPosition.didShoot position || PlayerPosition.liquidated position
  then PlayerPosition.currentPnl position
  else calculatePnL (PlayerPosition.positionType position)
         (PlayerPosition.entryPrice position) (RoundState.currentPrice round)
         (PlayerPosition.betAmount position) (RoundState.leverage round).

(** The player row of [playerId]. *)
Definition playerRow (playerId : string) (w : World)
    : option Prisma.PlayerRow :=
  Prisma.player_findUnique playerId (db w).

(** What the life-cycle invariants look at. *)
Definition controlView (w : World)
    : GamePhase * option string * JsMap.t LobbyPlayer.t
      * list (nat * TimeoutCallback) * option nat * option nat
      * option string :=
  (phase w, option_map RoundState.pair (currentRound w), lobbyPlayers w,
   timeouts w, lobbyTimer w, roundTimer w, priceUnsubscribe w).

(** The three life-cycle invariants together. *)
Definition lifecycle (w : World) : Prop :=
  phaseMatchesRound w /\ timersMatchPhase w /\ subscriptionMatchesRound w.

(** The bet the roster holds for [playerId] (0 when it holds none). *)
Definition betOf (roster : JsMap.t LobbyPlayer.t) (playerId : string) : Q :=
  match JsMap.get playerId roster with
  | Some entry => LobbyPlayer.betAmount entry
  | None => 0
  end.

(** The position [startRound] opens for a roster member. *)
Definition openedPosition (roster : JsMap.t LobbyPlayer.t) (entryPrice : Q)
    (assignment : string * Side) : string * PlayerPosition.t :=
  (fst assignment,
   PlayerPosition.mk (fst assignment) (snd assignment)
     (betOf roster (fst assignment)) entryPrice 0 false false None).

(** What a tick leaves alone in the row of a player: the balance and the
    counters of games played and won. *)
Definition untouchedByTick (row : Prisma.PlayerRow) : Q * Z * Z :=
  (Prisma.demoBalance row, Prisma.gamesPlayed row, Prisma.gamesWon row).

(** The row of a participant after [endRound] settled [position]. *)
Definition settledRow (round : RoundState.t) (position : PlayerPosition.t)
    (row : Prisma.PlayerRow) : Prisma.PlayerRow :=
  let pnl := settledPnl round position in
  Prisma.mkPlayer (Prisma.id row) (Prisma.username row)
    (Prisma.demoBalance row
     + calculatePayout (PlayerPosition.betAmount position) pnl
         (PlayerPosition.didShoot position)
         (PlayerPosition.liquidated position))
    (Prisma.totalPnl row + pnl)
    (Prisma.gamesPlayed row + 1)%Z
    (if Qlt_bool 0 pnl then (Prisma.gamesWon row + 1)%Z
     else Prisma.gamesWon row)
    (if Qlt_bool 0 pnl then Prisma.gamesLost row
     else if Qlt_bool pnl 0 then (Prisma.gamesLost row + 1)%Z
     else Prisma.gamesLost row).

(** * The price feed client and the volatility service *)

(** [Map.prototype.delete] *)
Definition JsMap_delete {V : Type} (k : string) (m : JsMap.t V) : JsMap.t V :=
  filter (fun e => negb (String.eqb k (fst e))) m.

(** A [Set] of callbacks.  A callback is an object compared by identity;
    it is named here by a number.  [add] ignores a member, [delete] ignores
    a stranger. *)
Definition Set_add (x : nat) (s : list nat) : list nat :=
  if existsb (Nat.eqb x) s then s else s ++ [x].

Definition Set_delete (x : nat) (s : list nat) : list nat :=
  filter (fun y => negb (Nat.eqb x y)) s.

Module PriceFeedClient.

Inductive ControlMessage : Type :=
| subscribe (pair : string)
| unsubscribe (pair : string).

Inductive MessageType : Type :=
| connected_msg | subscribed_msg | price_update_msg | error_msg.

(** A parsed [PriceFeedMessage]. *)
Record Message : Type := mkMessage {
  type : MessageType;
  pair : option string;
  data : option PriceData.t
}.

Record t : Type := mk {
  ws : bool;                           (* this.ws is not null *)
  connected : bool;
  reconnectAttempts : nat;
  reconnectTimeout : option Z;         (* delay of the pending timer *)
  subscriptions : JsMap.t (list nat);
  sent : list ControlMessage           (* written to the socket, in order *)
}.

Definition MAX_RECONNECT_ATTEMPTS : nat := 10.

Definition initial : t := mk false false 0 None [] [].

(** [subscribeToPair(pair, callback)]; [None] when it throws. *)
Definition subscribeToPair (pair : string) (callback : nat) (c : t)
    : option t :=
  if negb (ws c) || negb (connected c) then None
  else
    let c1 :=
      if negb (JsMap.has pair (subscriptions c))
      then mk (ws c) (connected c) (reconnectAttempts c) (reconnectTimeout c)
             (JsMap.set pair [] (subscriptions c))
             (sent c ++ [subscribe pair])
      else c in
    match JsMap.get pair (subscriptions c1) with
    | None => None                     (* the entry was just ensured *)
    | Some callbacks =>
        Some (mk (ws c1) (connected c1) (reconnectAttempts c1)
                (reconnectTimeout c1)
                (JsMap.set pair (Set_add callback callbacks)
                   (subscriptions c1))
                (sent c1))
    end.

(** The function [subscribeToPair(pair, callback)] returns. *)
Definition unsubscribeFrom (pair : string) (callback : nat) (c : t) : t :=
  match JsMap.get pair (subscriptions c) with
  | None => c
  | Some callbacks =>
      let callbacks' := Set_delete callback callbacks in
      let subscriptions' := JsMap.set pair callbacks' (subscriptions c) in
      if Nat.eqb (List.length callbacks') 0
      then mk (ws c) (connected c) (reconnectAttempts c) (reconnectTimeout c)
             (JsMap_delete pair subscriptions')
             (if ws c && connected c then sent c ++ [unsubscribe pair]
              else sent c)
      else mk (ws c) (connected c) (reconnectAttempts c) (reconnectTimeout c)
             subscriptions' (sent c)
    end.

(** [handleMessage] on a message that parsed: the callbacks it calls, in
    order, with the data it hands them. *)
Definition handleMessage (message : Message) (c : t)
    : list (nat * PriceData.t) :=
  match type message, pair message, data message with
  | price_update_msg, Some p, Some d =>
      if String.eqb p "" then []       (* an empty string is falsy *)
      else
        match JsMap.get p (subscriptions c) with
        | Some callbacks => map (fun cb => (cb, d)) callbacks
        | None => []
        end
  | _, _, _ => []
  end.

(** [attemptReconnect()]: the new state and the delay of the timer it
    sets, if it sets one. *)
Definition attemptReconnect (c : t) : t * option Z :=
  if (MAX_RECONNECT_ATTEMPTS <=? reconnectAttempts c)%nat then (c, None)
  else
    let attempts := S (reconnectAttempts c) in
    let delay := Z.min (1000 * 2 ^ Z.of_nat attempts) 30000 in
    (mk (ws c) (connected c) attempts (Some delay) (subscriptions c)
       (sent c),
     Some delay).

(** The socket opened / closed. *)
Definition onOpen (c : t) : t :=
  mk (ws c) true 0 (reconnectTimeout c) (subscriptions c) (sent c).

Definition onClose (c : t) : t * option Z :=
  attemptReconnect
    (mk (ws c) false (reconnectAttempts c) (reconnectTimeout c)
       (subscriptions c) (sent c)).

(** The state after [n] closes in a row, none of the reconnections in
    between having opened, with the delays that were set, oldest first. *)
Fixpoint closes (n : nat) (c : t) : t * list (option Z) :=
  match n with
  | O => (c, [])
  | S n' =>
      let '(c1, delays) := closes n' c in
      let '(c2, delay) := onClose c1 in
      (c2, delays ++ [delay])
  end.

(** No pair is kept with an empty set of callbacks. *)
Definition noEmptySet (c : t) : Prop :=
  forall p callbacks,
    In (p, callbacks) (subscriptions c) -> callbacks <> [].

(** The [price_update] message for [p] carrying [d]. *)
Definition priceUpdate (p : string) (d : PriceData.t) : Message :=
  mkMessage price_update_msg (Some p) (Some d).

End PriceFeedClient.

(** A connected client with two callbacks on one pair. *)
Definition sampleClient : PriceFeedClient.t :=
  PriceFeedClient.mk true true 0 None [("BTC/USD"%string, [1; 2]%nat)] [].

Module VolatilityService.

Record t : Type := mk {
  priceHistories : JsMap.t (list Q);
  volatilityData : JsMap.t VolatilityData.t
}.

Definition initial : t := mk [] [].

(** The part of [initialize(pairs)] that concerns the histories. *)
Definition initialize (pairs : list string) (s : t) : t :=
  fold_left
    (fun s pair => mk (JsMap.set pair [] (priceHistories s)) (volatilityData s))
    pairs s.

(** [WINDOW_SECONDS] is [CONFIG.VOLATILITY.WINDOW_SECONDS]. *)
Definition handlePriceUpdate (WINDOW_SECONDS : Z) (pair : string) (price : Q)
    (s : t) : t :=
  match JsMap.get pair (priceHistories s) with
  | None => s
  | Some history =>
      let history := history ++ [price] in
      let maxDataPoints := WINDOW_SECONDS in
      let history :=
        if (maxDataPoints <? Z.of_nat (List.length history))%Z
        then tl history else history in
      mk (JsMap.set pair history (priceHistories s)) (volatilityData s)
  end.

(** [calculateStandardDeviation] takes a square root, which the rationals
    do not have: the function is an argument. *)
Definition calculateAllVolatility
    (calculateStandardDeviation : list Q -> Q) (clock : Z) (s : t) : t :=
  fold_left
    (fun s '(tracked, history) =>
       if (List.length history <? 10)%nat then s
       else
         let volatility := calculateStandardDeviation history in
         mk (priceHistories s)
            (JsMap.set tracked
               (VolatilityData.mk tracked volatility history clock)
               (volatilityData s)))
    (JsMap.entries (priceHistories s)) s.

(** One turn of the loop of [calculateAllVolatility]. *)
Definition recordVolatility (calculateStandardDeviation : list Q -> Q)
    (clock : Z) (s : t) (e : string * list Q) : t :=
  let '(tracked, history) := e in
  if (List.length history <? 10)%nat then s
  else
    mk (priceHistories s)
       (JsMap.set tracked
          (VolatilityData.mk tracked (calculateStandardDeviation history)
             history clock)
          (volatilityData s)).

(** [MIN_THRESHOLD] is [CONFIG.VOLATILITY.MIN_THRESHOLD]. *)
Definition getHighVolatilityPairs (MIN_THRESHOLD : Q) (s : t)
    : list VolatilityData.t :=
  let threshold := MIN_THRESHOLD in
  sort byVolatilityDesc
    (filter (fun data => Qle_bool threshold (VolatilityData.volatility data))
       (JsMap.values (volatilityData s))).

Definition getVolatility (pair : string) (s : t) : option VolatilityData.t :=
  JsMap.get pair (volatilityData s).

Definition getAllVolatilityData (s : t) : list VolatilityData.t :=
  JsMap.values (volatilityData s).

(** The service after the ticks [prices] of [pair], oldest first. *)
Definition feed (WINDOW_SECONDS : Z) (pair : string) (prices : list Q)
    (s : t) : t :=
  fold_left (fun s price => handlePriceUpdate WINDOW_SECONDS pair price s)
    prices s.

(** [close()], as far as the two maps go. *)
Definition close (s : t) : t := mk [] [].

(** What happens to the service: [initialize(pairs)], a tick handed to the
    callback it subscribed for [pair], a firing of its 30-second interval
    when [Date.now()] is [clock], [close()]. *)
Inductive Call : Type :=
  | Initialize (pairs : list string)
  | Tick (pair : string) (price : Q)
  | Recalculate (clock : Z)
  | Close.

Definition call (WINDOW_SECONDS : Z)
    (calculateStandardDeviation : list Q -> Q) (c : Call) (s : t) : t :=
  match c with
  | Initialize pairs => initialize pairs s
  | Tick tracked price => handlePriceUpdate WINDOW_SECONDS tracked price s
  | Recalculate clock =>
      calculateAllVolatility calculateStandardDeviation clock s
  | Close => close s
  end.

Definition run (WINDOW_SECONDS : Z)
    (calculateStandardDeviation : list Q -> Q) (calls : list Call) (s : t)
    : t :=
  fold_left (fun s c => call WINDOW_SECONDS calculateStandardDeviation c s)
    calls s.

(** The maps have no key twice, and each record is filed under its own
    pair, holds at least ten samples and the deviation of these. *)
Definition consistent (calculateStandardDeviation : list Q -> Q) (s : t)
    : Prop :=
  NoDup (JsMap.keys (priceHistories s))
  /\ NoDup (JsMap.keys (volatilityData s))
  /\ forall k d,
       In (k, d) (JsMap.entries (volatilityData s)) ->
       VolatilityData.pair d = k
       /\ VolatilityData.volatility d
          = calculateStandardDeviation (VolatilityData.priceHistory d)
       /\ (10 <= List.length (VolatilityData.priceHistory d))%nat.

End VolatilityService.

(** The last [n] elements of a list. *)
Definition lastn {A : Type} (n : nat) (l : list A) : list A :=
  skipn (List.length l - n) l.

(** A stand-in for the deviation, and a service that tracked two pairs, saw
    ten ticks of one of them and recalculated once, for the examples. *)
Definition sampleDeviation (values : list Q) : Q :=
  inject_Z (Z.of_nat (List.length values)) / 1000.

Definition sampleCalls : list VolatilityService.Call :=
  VolatilityService.Initialize ["BTC/USD"%string; "ETH/USD"%string]
  :: map (fun price => VolatilityService.Tick "BTC/USD" (inject_Z price))
       [100; 101; 102; 103; 104; 105; 106; 107; 108; 109]%Z
  ++ [VolatilityService.Recalculate 1000].

(** * The calculation engine and the randomizer on doubles

    A JavaScript [number] is a binary64 double, and every operation on it
    rounds.  The manager above computes with exact rationals; what depends on
    the rounding (on which side of a threshold a price falls, which item a
    running sum stops at) is stated on the functions of this module, which
    compute as the source does. *)

From Stdlib Require Floats.

Module Double.

Import Floats.
Local Open Scope float_scope.

Definition calculateLiquidationPrice (positionType : Side)
    (entryPrice leverage : float) : float :=
  let liquidationPercentage := 1 / leverage in
  match positionType with
  | LONG => entryPrice * (1 - liquidationPercentage)
  | SHORT => entryPrice * (1 + liquidationPercentage)
  end.

(** [a >= b] is [b <= a]: both are false when either is [NaN]. *)
Definition isLiquidated (positionType : Side)
    (entryPrice currentPrice leverage : float) : bool :=
  let liquidationPrice :=
    calculateLiquidationPrice positionType entryPrice leverage in
  match positionType with
  | LONG => currentPrice <=? liquidationPrice
  | SHORT => liquidationPrice <=? currentPrice
  end.

(** The loop of [weightedRandomSelection]: [Some] when it returns from
    inside, [None] when it runs to the end. *)
Fixpoint weightedLoop {T : Type} (items : list T) (weights : list float)
    (random : float) : option T :=
  match items with
  | [] => None
  | item :: items' =>
      match weights with
      | [] => weightedLoop items' [] random      (* weight === undefined *)
      | weight :: weights' =>
          let random := random - weight in
          if random <=? 0 then Some item
          else weightedLoop items' weights' random
      end
  end.

(** [random] is the value [Math.random()] answers with. *)
Definition weightedRandomSelection {T : Type} (items : list T)
    (weights : list float) (random : float) : option T :=
  if Nat.eqb (List.length items) 0
     || negb (Nat.eqb (List.length items) (List.length weights))
  then None
  else
    let totalWeight := fold_left (fun sum w => sum + w) weights 0 in
    match weightedLoop items weights (random * totalWeight) with
    | Some item => Some item
    | None => nth_error items (List.length items - 1)
    end.

(** What is left of [random] in the loop after the first [n] weights. *)
Definition remainder (weights : list float) (random : float) (n : nat)
    : float :=
  fold_left (fun rest w => rest - w) (firstn n weights) random.

End Double.
(** * Properties *)

(** ** Calculation engine *)

Lemma Qlt_bool_iff (a b : Q) : Qlt_bool a b = true <-> a < b.
Proof.
  unfold Qlt_bool. rewrite negb_true_iff. split.
  - intros H. apply Qnot_le_lt. intros Hle.
    apply Qle_bool_iff in Hle. congruence.
  - intros H. destruct (Qle_bool b a) eqn:E; [|reflexivity].
    apply Qle_bool_iff in E. exfalso. exact (Qlt_not_le _ _ H E).
Qed.

Lemma calculatePayout_nonneg (entryAmount pnl : Q) (didShoot liquidated : bool) :
  0 <= calculatePayout entryAmount pnl didShoot liquidated.
Proof.
  unfold calculatePayout. destruct liquidated.
  - apply Qle_refl.
  - apply Q.le_max_l.
Qed.

(** C4. [calculatePayout] is 0 for a liquidated position and
    [max(0, betAmount + pnl)] otherwise; it is never negative, whatever the
    sign of [pnl]; the [didShoot] argument has no influence on it. *)
Theorem calculatePayout_formula (betAmount pnl : Q) (didShoot liquidated : bool) :
  calculatePayout betAmount pnl didShoot liquidated
    = (if liquidated then 0 else Qmax 0 (betAmount + pnl))
  /\ 0 <= calculatePayout betAmount pnl didShoot liquidated
  /\ calculatePayout betAmount pnl true liquidated
       = calculatePayout betAmount pnl false liquidated.
Proof.
  split; [reflexivity|]. split; [apply calculatePayout_nonneg|reflexivity].
Qed.

(** The two branches of the maximum, spelled out. *)
Lemma calculatePayout_open (betAmount pnl : Q) (didShoot : bool) :
  (0 <= betAmount + pnl ->
     calculatePayout betAmount pnl didShoot false == betAmount + pnl)
  /\ (betAmount + pnl <= 0 ->
     calculatePayout betAmount pnl didShoot false == 0).
Proof.
  unfold calculatePayout. split; intros H.
  - apply Q.max_r. exact H.
  - apply Q.max_l. exact H.
Qed.

(** ** Order of doubles *)

Section DoubleOrder.

Import Floats.
Local Open Scope float_scope.

Lemma SFcompare_refl (s : spec_float) :
  s <> S754_nan -> SFcompare s s = Some Eq.
Proof.
  destruct s as [[|]|[|]| |[|] m e]; intros H; try reflexivity;
    try (now contradiction H).
  all: simpl; rewrite Z.compare_refl, Pos.compare_refl; reflexivity.
Qed.

Lemma is_nan_spec (x : float) : is_nan x = true <-> Prim2SF x = S754_nan.
Proof.
  unfold is_nan. rewrite FloatAxioms.eqb_spec. unfold SFeqb.
  destruct (Prim2SF x) as [[|]|[|]| |[|] m e] eqn:E; simpl;
    try (split; discriminate).
  - tauto.
  - rewrite Z.compare_refl, Pos.compare_refl. simpl. split; discriminate.
  - rewrite Z.compare_refl, Pos.compare_refl. simpl. split; discriminate.
Qed.

Lemma leb_number_refl (x : float) : is_nan x = false -> (x <=? x) = true.
Proof.
  intros H. rewrite FloatAxioms.leb_spec. unfold SFleb.
  rewrite SFcompare_refl; [reflexivity|].
  intros E. apply is_nan_spec in E. congruence.
Qed.

Lemma leb_nan (x y : float) :
  is_nan x = true -> (x <=? y) = false /\ (y <=? x) = false.
Proof.
  intros H. apply is_nan_spec in H.
  rewrite !FloatAxioms.leb_spec, H. unfold SFleb.
  split; [reflexivity|].
  destruct (Prim2SF y) as [[|]|[|]| |[|] m e]; reflexivity.
Qed.

(** C5. On doubles, as the code computes: a LONG position is liquidated
    exactly when the price is at or below [entryPrice * (1 - 1/leverage)], a
    SHORT one exactly when it is at or above
    [entryPrice * (1 + 1/leverage)], each operation of the threshold being
    rounded; at the liquidation price itself, the value
    [calculateLiquidationPrice] returns, both sides are liquidated when that
    value is a number, and no price liquidates when it is [NaN]. *)
Theorem isLiquidated_closed_boundary (positionType : Side)
    (entryPrice currentPrice leverage : float) :
  let liquidationPrice :=
    Double.calculateLiquidationPrice positionType entryPrice leverage in
  Double.isLiquidated positionType entryPrice currentPrice leverage
    = match positionType with
      | LONG => currentPrice <=? entryPrice * (1 - 1 / leverage)
      | SHORT => entryPrice * (1 + 1 / leverage) <=? currentPrice
      end
  /\ (is_nan liquidationPrice = false ->
      Double.isLiquidated positionType entryPrice liquidationPrice leverage
      = true)
  /\ (is_nan liquidationPrice = true ->
      Double.isLiquidated positionType entryPrice currentPrice leverage
      = false).
Proof.
  cbv zeta. split; [now destruct positionType|]. split.
  - intros Hnumber. destruct positionType; unfold Double.isLiquidated;
      now apply leb_number_refl.
  - intros Hnan. destruct positionType; unfold Double.isLiquidated.
    + exact (proj2 (leb_nan _ currentPrice Hnan)).
    + exact (proj1 (leb_nan _ currentPrice Hnan)).
Qed.

(** For a SHORT position entered at 100 with leverage 10 the liquidation
    price is the double next above 110: it is liquidated there, and not yet
    at 110. *)
Lemma isLiquidated_closed_boundary_witness :
  Double.calculateLiquidationPrice SHORT 100 10 = 0x1.b800000000001p+6
  /\ Double.isLiquidated SHORT 100 0x1.b800000000001p+6 10 = true
  /\ Double.isLiquidated SHORT 100 110 10 = false
  /\ Double.isLiquidated LONG 100 90 10 = true.
Proof.
  split; [reflexivity|]. split; [|split; reflexivity].
  apply (isLiquidated_closed_boundary SHORT 100 110 10). reflexivity.
Defined.

End DoubleOrder.

(** C6. With a non-zero entry price, the P&L of a LONG position is
    [betAmount * ((currentPrice - entryPrice) / entryPrice) * leverage] and
    that of a SHORT position is its negation; at entry 100, price 110, bet 10
    and leverage 500 this is 500 for LONG and -500 for SHORT. *)
Theorem calculatePnL_formula (entryPrice currentPrice betAmount leverage : Q) :
  ~ entryPrice == 0 ->
  calculatePnL LONG entryPrice currentPrice betAmount leverage
    == betAmount * ((currentPrice - entryPrice) / entryPrice) * leverage
  /\ calculatePnL SHORT entryPrice currentPrice betAmount leverage
    == - (betAmount * ((currentPrice - entryPrice) / entryPrice) * leverage)
  /\ calculatePnL SHORT entryPrice currentPrice betAmount leverage
    == - calculatePnL LONG entryPrice currentPrice betAmount leverage
  /\ calculatePnL LONG 100 110 10 500 == 500
  /\ calculatePnL SHORT 100 110 10 500 == - (500).
Proof.
  intros _. unfold calculatePnL. cbv zeta.
  split; [reflexivity|]. split; [ring|]. split; [ring|].
  split; reflexivity.
Qed.

Lemma calculatePnL_formula_witness :
  calculatePnL LONG 100 110 10 500 == 500
  /\ calculatePnL SHORT 100 110 10 500 == - (500).
Proof.
  assert (H : ~ 100 == 0) by discriminate.
  destruct (calculatePnL_formula 100 110 10 500 H) as (_ & _ & _ & HL & HS).
  split; assumption.
Defined.

(** ** [JsMap] *)

Section JsMapFacts.

Context {V : Type}.

Lemma JsMap_get_None_iff (k : string) (m : JsMap.t V) :
  JsMap.get k m = None <-> ~ In k (JsMap.keys m).
Proof.
  induction m as [|[k' v] m IH]; simpl.
  - tauto.
  - destruct (String.eqb_spec k k') as [->|Hne].
    + split; [discriminate | intros H; exfalso; apply H; now left].
    + rewrite IH. split.
      * intros H [Heq|Hin]; [congruence | contradiction].
      * intros H Hin. apply H. now right.
Qed.

Lemma JsMap_has_false_iff (k : string) (m : JsMap.t V) :
  JsMap.has k m = false <-> ~ In k (JsMap.keys m).
Proof.
  unfold JsMap.has. rewrite <- JsMap_get_None_iff.
  destruct (JsMap.get k m); split; congruence.
Qed.

Lemma JsMap_set_fresh (k : string) (v : V) (m : JsMap.t V) :
  ~ In k (JsMap.keys m) -> JsMap.set k v m = m ++ [(k, v)].
Proof.
  induction m as [|[k' v'] m IH]; simpl; intros H.
  - reflexivity.
  - destruct (String.eqb_spec k k') as [->|Hne].
    + exfalso. apply H. now left.
    + rewrite IH; [reflexivity | tauto].
Qed.

Lemma JsMap_keys_set (k : string) (v : V) (m : JsMap.t V) :
  In k (JsMap.keys m) -> JsMap.keys (JsMap.set k v m) = JsMap.keys m.
Proof.
  induction m as [|[k' v'] m IH]; simpl; intros H.
  - contradiction.
  - destruct (String.eqb_spec k k') as [->|Hne]; simpl.
    + reflexivity.
    + f_equal. apply IH. destruct H; [congruence | assumption].
Qed.

Lemma JsMap_get_set_same (k : string) (v : V) (m : JsMap.t V) :
  JsMap.get k (JsMap.set k v m) = Some v.
Proof.
  induction m as [|[k' v'] m IH]; simpl.
  - now rewrite String.eqb_refl.
  - destruct (String.eqb_spec k k') as [->|Hne]; simpl.
    + now rewrite String.eqb_refl.
    + destruct (String.eqb_spec k k'); [contradiction | exact IH].
Qed.

Lemma JsMap_get_set_other (k k0 : string) (v : V) (m : JsMap.t V) :
  k0 <> k -> JsMap.get k0 (JsMap.set k v m) = JsMap.get k0 m.
Proof.
  intros Hne. induction m as [|[k' v'] m IH]; simpl.
  - destruct (String.eqb_spec k0 k); [contradiction | reflexivity].
  - destruct (String.eqb_spec k k') as [->|Hne']; simpl.
    + destruct (String.eqb_spec k0 k'); [contradiction | reflexivity].
    + destruct (String.eqb_spec k0 k'); [reflexivity | exact IH].
Qed.

Lemma JsMap_get_In (k : string) (v : V) (m : JsMap.t V) :
  JsMap.get k m = Some v -> In (k, v) m.
Proof.
  induction m as [|[k' v'] m IH]; simpl; [discriminate|].
  destruct (String.eqb_spec k k') as [->|Hne].
  - intros [= ->]. now left.
  - intros H. right. now apply IH.
Qed.

End JsMapFacts.

(** ** Randomizer *)

Lemma assign_fold (halfPoint : nat) (l : list (nat * string))
    (acc : JsMap.t Side) :
  NoDup (JsMap.keys acc ++ map snd l) ->
  fold_left
    (fun positions '(index, playerId) =>
       JsMap.set playerId (if (index <? halfPoint)%nat then LONG else SHORT)
         positions) l acc
  = acc ++ map (fun '(index, playerId) =>
                  (playerId, sideOfIndex halfPoint index)) l.
Proof.
  revert acc. induction l as [|[i k] l IH]; intros acc Hnd; simpl.
  - now rewrite app_nil_r.
  - simpl in Hnd.
    assert (Hk : ~ In k (JsMap.keys acc)).
    { intros Hin. apply NoDup_remove_2 in Hnd. apply Hnd.
      apply in_or_app. now left. }
    rewrite JsMap_set_fresh by exact Hk.
    rewrite IH.
    + rewrite <- app_assoc. reflexivity.
    + unfold JsMap.keys. rewrite map_app. simpl. rewrite <- app_assoc.
      simpl. exact Hnd.
Qed.

Lemma indexed_snd {A : Type} (l : list A) : map snd (indexed l) = l.
Proof.
  unfold indexed. generalize 0%nat.
  induction l as [|x l IH]; intros s; simpl; [reflexivity|].
  now rewrite IH.
Qed.

Lemma indexed_fst {A : Type} (l : list A) :
  map fst (indexed l) = seq 0 (List.length l).
Proof.
  unfold indexed. generalize 0%nat.
  induction l as [|x l IH]; intros s; simpl; [reflexivity|].
  now rewrite IH.
Qed.

Lemma count_below (h n : nat) :
  List.length (filter (fun i => (i <? h)%nat) (seq 0 n)) = Nat.min h n.
Proof.
  induction n as [|n IH].
  - now rewrite Nat.min_0_r.
  - rewrite seq_S, filter_app, length_app, IH. simpl.
    destruct (Nat.ltb_spec n h); simpl; lia.
Qed.

Lemma count_not_below (h n : nat) :
  List.length (filter (fun i => negb (i <? h)%nat) (seq 0 n)) = (n - h)%nat.
Proof.
  induction n as [|n IH].
  - reflexivity.
  - rewrite seq_S, filter_app, length_app, IH. cbn [filter Nat.add].
    destruct (Nat.ltb_spec n h); cbn [negb List.length]; lia.
Qed.

Lemma assignRandomPositions_entries (sortRandom : list string -> list string)
    (playerIds : list string) :
  NoDup (sortRandom playerIds) ->
  assignRandomPositions sortRandom playerIds
  = map (fun '(index, playerId) =>
           (playerId,
            sideOfIndex (List.length (sortRandom playerIds) / 2) index))
      (indexed (sortRandom playerIds)).
Proof.
  intros Hnd. unfold assignRandomPositions. cbv zeta.
  rewrite assign_fold; [reflexivity|].
  simpl. now rewrite indexed_snd.
Qed.

Lemma count_side_assigned (s : Side) (h : nat) (l : list string) :
  count_side s
    (map (fun '(index, playerId) => (playerId, sideOfIndex h index))
       (indexed l))
  = List.length (filter (fun i => Side_eqb s (sideOfIndex h i))
                   (seq 0 (List.length l))).
Proof.
  unfold count_side, JsMap.values. rewrite map_map.
  rewrite <- indexed_fst.
  induction (indexed l) as [|[i k] r IH]; simpl; [reflexivity|].
  destruct (Side_eqb s (sideOfIndex h i)); simpl; now rewrite IH.
Qed.

Lemma insert_by_perm (coins : list bool) (x : string) (l : list string) :
  Permutation (x :: l) (fst (insert_by coins x l)).
Proof.
  revert coins. induction l as [|y l IH]; intros coins; simpl.
  - apply Permutation_refl.
  - destruct coins as [|[|] coins]; simpl; try apply Permutation_refl.
    specialize (IH coins). destruct (insert_by coins x l) as [r rest].
    simpl in *. rewrite perm_swap. now apply perm_skip.
Qed.

Lemma shuffle_by_perm (coins : list bool) (l : list string) :
  Permutation l (shuffle_by coins l).
Proof.
  unfold shuffle_by. induction l as [|x l IH]; simpl.
  - apply Permutation_refl.
  - destruct (shuffle_with coins l) as [r rest]. simpl in IH.
    rewrite <- insert_by_perm. now apply perm_skip.
Qed.

(** C9. For distinct player ids, and whatever permutation the random sort
    produces, every id gets a side exactly once, [floor(n/2)] players are
    LONG and the other [n - floor(n/2)] are SHORT (the extra player of an
    odd roster is SHORT). *)
Theorem assignRandomPositions_split (sortRandom : list string -> list string)
    (playerIds : list string) :
  NoDup playerIds ->
  Permutation playerIds (sortRandom playerIds) ->
  let positions := assignRandomPositions sortRandom playerIds in
  let n := List.length playerIds in
  Permutation playerIds (JsMap.keys positions)
  /\ (forall id, In id playerIds ->
        count_occ string_dec (JsMap.keys positions) id = 1%nat
        /\ exists side, JsMap.get id positions = Some side)
  /\ (forall id, ~ In id playerIds -> JsMap.get id positions = None)
  /\ count_side LONG positions = (n / 2)%nat
  /\ count_side SHORT positions = (n - n / 2)%nat
  /\ (count_side LONG positions <= count_side SHORT positions
      <= count_side LONG positions + 1)%nat.
Proof.
  intros Hnd Hperm positions n.
  assert (Hnd' : NoDup (sortRandom playerIds))
    by (eapply Permutation_NoDup; eassumption).
  assert (Hlen : List.length (sortRandom playerIds) = n)
    by (symmetry; now apply Permutation_length).
  assert (Hpos := assignRandomPositions_entries sortRandom playerIds Hnd').
  fold positions in Hpos. rewrite Hlen in Hpos.
  assert (Hkeys : JsMap.keys positions = sortRandom playerIds).
  { rewrite Hpos. unfold JsMap.keys. rewrite map_map.
    rewrite <- (indexed_snd (sortRandom playerIds)) at 2.
    apply map_ext. now intros [i k]. }
  assert (HL : count_side LONG positions = (n / 2)%nat).
  { rewrite Hpos, count_side_assigned, Hlen.
    rewrite (filter_ext _ (fun i => (i <? n / 2)%nat)).
    - rewrite count_below. apply Nat.min_l.
      apply Nat.Div0.div_le_upper_bound. lia.
    - intros i. unfold sideOfIndex. now destruct (i <? n / 2)%nat. }
  assert (HS : count_side SHORT positions = (n - n / 2)%nat).
  { rewrite Hpos, count_side_assigned, Hlen.
    rewrite (filter_ext _ (fun i => negb (i <? n / 2)%nat)).
    - apply count_not_below.
    - intros i. unfold sideOfIndex. now destruct (i <? n / 2)%nat. }
  split; [now rewrite Hkeys|].
  split; [|split; [|split; [exact HL|split; [exact HS|]]]].
  - intros id Hin. split.
    + rewrite Hkeys. apply NoDup_count_occ'; [exact Hnd'|].
      eapply Permutation_in; eassumption.
    + destruct (JsMap.get id positions) eqn:E; [eauto|].
      apply JsMap_get_None_iff in E. exfalso. apply E. rewrite Hkeys.
      eapply Permutation_in; eassumption.
  - intros id Hnin. apply JsMap_get_None_iff. rewrite Hkeys.
    intros Hin. apply Hnin. eapply Permutation_in; [|exact Hin].
    now apply Permutation_sym.
  - rewrite HL, HS.
    pose proof (Nat.div_mod_eq n 2) as Hdm.
    pose proof (Nat.mod_upper_bound n 2 ltac:(lia)). lia.
Qed.

Lemma assignRandomPositions_split_witness :
  let positions :=
    assignRandomPositions (shuffle_by [false; true; false])
      ["ann"; "bob"; "cat"]%string in
  count_side LONG positions = 1%nat /\ count_side SHORT positions = 2%nat.
Proof.
  assert (Hnd : NoDup ["ann"; "bob"; "cat"]%string).
  { repeat constructor; simpl; intuition discriminate. }
  destruct (assignRandomPositions_split (shuffle_by [false; true; false])
              ["ann"; "bob"; "cat"]%string Hnd (shuffle_by_perm _ _))
    as (_ & _ & _ & HL & HS & _).
  split; assumption.
Defined.

(** ** [joinLobby] *)

Ltac unfold_op :=
  unfold bind, get, modify, throw, ret, prisma in *.

Ltac phase_clash Hphase :=
  match goal with
  | H : phase _ = _ |- _ => rewrite H in Hphase; discriminate
  end.

Lemma upsert_row (username new_id : string) (balance : Q) (d d' : Prisma.t)
    (row : Prisma.PlayerRow) :
  Prisma.player_upsert username new_id balance d = Some (row, d') ->
  Prisma.id row = new_id
  /\ Prisma.username row = username
  /\ In row (Prisma.player d')
  /\ Prisma.player_findByUsername username d' = Some row
  /\ Prisma.demoBalance row
     = match Prisma.player_findByUsername username d with
       | Some old => Prisma.demoBalance old
       | None => balance
       end.
Proof.
  unfold Prisma.player_upsert, Prisma.player_findByUsername.
  destruct (existsb _ _); [discriminate|].
  destruct (find _ (Prisma.player d)) as [old|] eqn:Hfind.
  - intros [= <- <-]. simpl.
    pose proof (find_some _ _ Hfind) as [Hin Hname].
    apply String.eqb_eq in Hname.
    split; [reflexivity|]. split; [exact Hname|]. split; [|split].
    + apply in_map_iff. exists old. rewrite Hname, String.eqb_refl. tauto.
    + clear Hin. revert Hfind.
      induction (Prisma.player d) as [|r rows IH]; simpl; [discriminate|].
      destruct (String.eqb (Prisma.username r) username) eqn:E.
      * intros _. simpl. rewrite Hname, String.eqb_refl. reflexivity.
      * intros H. simpl. rewrite E. now apply IH.
    + reflexivity.
  - intros [= <- <-]. simpl.
    split; [reflexivity|]. split; [reflexivity|]. split; [|split].
    + apply in_or_app. right. now left.
    + induction (Prisma.player d) as [|r rows IH]; simpl.
      * now rewrite String.eqb_refl.
      * simpl in Hfind.
        destruct (String.eqb (Prisma.username r) username);
          [discriminate | now apply IH].
    + reflexivity.
Qed.

(** C7. [joinLobby] fails, and the roster keeps its entries, when the bet
    is below the configured minimum, when the phase is ROUND, when the
    player is already in the roster, and when the balance of the persisted
    player record is below the bet.  When it succeeds, exactly one entry,
    for [playerId], has been appended to the roster. *)
Theorem joinLobby_rejects (CONFIG : Config) (playerId username : string)
    (betAmount : Q) (clock : Z) (w : World) :
  let result := fst (joinLobby CONFIG playerId username betAmount clock w) in
  let w' := snd (joinLobby CONFIG playerId username betAmount clock w) in
  (betAmount < MIN_BET_AMOUNT CONFIG ->
     is_Done result = false /\ lobbyPlayers w' = lobbyPlayers w)
  /\ (phase w = ROUND ->
     result = Thrown Cannot_join_lobby_during_active_round /\ w' = w)
  /\ (JsMap.has playerId (lobbyPlayers w) = true ->
     is_Done result = false /\ lobbyPlayers w' = lobbyPlayers w)
  /\ (forall player d,
        Prisma.player_upsert username playerId (DEFAULT_DEMO_BALANCE CONFIG)
          (db w) = Some (player, d) ->
        Prisma.demoBalance player < betAmount ->
        is_Done result = false /\ lobbyPlayers w' = lobbyPlayers w)
  /\ (match Prisma.player_findByUsername username (db w) with
      | Some stored => Prisma.demoBalance stored
      | None => DEFAULT_DEMO_BALANCE CONFIG
      end < betAmount ->
      is_Done result = false /\ lobbyPlayers w' = lobbyPlayers w)
  /\ (result = Done tt ->
     exists entry,
       lobbyPlayers w' = lobbyPlayers w ++ [(playerId, entry)]
       /\ LobbyPlayer.playerId entry = playerId
       /\ LobbyPlayer.betAmount entry = betAmount
       /\ JsMap.has playerId (lobbyPlayers w) = false
       /\ count_occ string_dec (JsMap.keys (lobbyPlayers w')) playerId
          = 1%nat).
Proof.
  cbv zeta. unfold joinLobby. unfold_op.
  destruct (GamePhase_eqb (phase w) LOBBY) eqn:Hphase; cbn [negb].
  2:{ repeat split; intros; solve [reflexivity | discriminate]. }
  destruct (Qlt_bool betAmount (MIN_BET_AMOUNT CONFIG)) eqn:Hmin.
  { simpl. repeat split; intros;
      solve [reflexivity | discriminate | phase_clash Hphase]. }
  destruct (JsMap.has playerId (lobbyPlayers w)) eqn:Hhas.
  { simpl. repeat split; intros;
      solve [reflexivity | discriminate | phase_clash Hphase]. }
  assert (Hmin' : ~ betAmount < MIN_BET_AMOUNT CONFIG).
  { intros H. apply Qlt_bool_iff in H. congruence. }
  destruct (Prisma.player_upsert username playerId
              (DEFAULT_DEMO_BALANCE CONFIG) (db w)) as [[player d]|] eqn:Hup.
  2:{ simpl. repeat split; intros;
        solve [reflexivity | discriminate | contradiction
              | phase_clash Hphase]. }
  destruct (Qlt_bool (Prisma.demoBalance player) betAmount) eqn:Hbal.
  { simpl. repeat split; intros;
      solve [reflexivity | discriminate | contradiction
            | phase_clash Hphase]. }
  split; [intros H; contradiction|].
  split; [intros H; rewrite H in Hphase; discriminate|].
  split; [discriminate|].
  split.
  { intros player0 d0 [= <- <-] Hlt. apply Qlt_bool_iff in Hlt. congruence. }
  split.
  { intros Hlt. destruct (upsert_row _ _ _ _ _ _ Hup) as (_ & _ & _ & _ & Heq).
    rewrite <- Heq in Hlt. apply Qlt_bool_iff in Hlt. congruence. }
  cbn [fst snd db with_db with_lobbyPlayers].
  destruct (Prisma.lobbyEntry_create
              (Prisma.mkLobbyEntry playerId betAmount) d) as [d'|];
    cbn [option_map fst snd]; [|discriminate].
  intros _. simpl.
  apply JsMap_has_false_iff in Hhas.
  exists (LobbyPlayer.mk playerId username betAmount
            (Prisma.demoBalance player) clock).
  rewrite JsMap_set_fresh by exact Hhas.
  split; [reflexivity|]. split; [reflexivity|]. split; [reflexivity|].
  split; [reflexivity|].
  apply (count_occ_not_In string_dec) in Hhas.
  unfold JsMap.keys in *. rewrite map_app, count_occ_app, Hhas. simpl.
  destruct (string_dec playerId playerId); [reflexivity | contradiction].
Qed.

Lemma joinLobby_rejects_witness :
  is_Done (fst (joinLobby default_CONFIG "b" "bob" (1 # 1000) 6%Z
                  sampleLobby1)) = false
  /\ fst (joinLobby default_CONFIG "b" "bob" 20 6%Z sampleRound)
     = Thrown Cannot_join_lobby_during_active_round
  /\ is_Done (fst (joinLobby default_CONFIG "a" "alice" 20 6%Z
                     sampleLobby1)) = false
  /\ is_Done (fst (joinLobby default_CONFIG "a" "alice" 200 6%Z
                     sampleLobby)) = false
  /\ is_Done (fst (joinLobby default_CONFIG "zed" "zed" 101 6%Z
                     sampleLobby1)) = false
  /\ JsMap.keys (lobbyPlayers
                   (snd (joinLobby default_CONFIG "b" "bob" 20 6%Z
                           sampleLobby1)))
     = ["a"; "b"]%string.
Proof.
  split; [|split; [|split; [|split; [|split]]]].
  - destruct (joinLobby_rejects default_CONFIG "b" "bob" (1 # 1000) 6%Z
                sampleLobby1) as (Hmin & _).
    apply Hmin. reflexivity.
  - destruct (joinLobby_rejects default_CONFIG "b" "bob" 20 6%Z
                sampleRound) as (_ & Hphase & _).
    apply Hphase. reflexivity.
  - destruct (joinLobby_rejects default_CONFIG "a" "alice" 20 6%Z
                sampleLobby1) as (_ & _ & Hhas & _).
    apply Hhas. reflexivity.
  - destruct (joinLobby_rejects default_CONFIG "a" "alice" 200 6%Z
                sampleLobby) as (_ & _ & _ & Hbalance & _).
    eapply Hbalance; [reflexivity | reflexivity].
  - destruct (joinLobby_rejects default_CONFIG "zed" "zed" 101 6%Z
                sampleLobby1) as (_ & _ & _ & _ & Hstored & _).
    apply Hstored. reflexivity.
  - destruct (joinLobby_rejects default_CONFIG "b" "bob" 20 6%Z
                sampleLobby1) as (_ & _ & _ & _ & _ & Hok).
    destruct (Hok eq_refl) as (entry & Hroster & _).
    rewrite Hroster. unfold JsMap.keys. rewrite map_app. reflexivity.
Defined.

(** C10, as worded, fails for its last part: the roster is written before
    [lobbyEntry.create] is awaited, so when that call is refused (bob's
    second join, over a table that wants one entry per player and still
    holds his first) [joinLobby] fails with bob in the roster. *)
Lemma rejected_join_changes_roster :
  ~ rosterUnchangedOnRejection default_CONFIG.
Proof.
  intros H.
  specialize (H "b"%string "bob"%string 20 21000%Z sampleSecondLobby
                PrismaError eq_refl).
  vm_compute in H. discriminate H.
Qed.

(** C10, amended.  When [joinLobby] is rejected for insufficient balance,
    the player record has already been created or updated: the database is
    the one the upsert left, and it holds the record of [username] with id
    [playerId].  The roster is unchanged on every rejection that is not the
    one of [lobbyEntry.create]: any error other than a database error, and
    the database error of the upsert. *)
Theorem joinLobby_rejected_after_upsert (CONFIG : Config)
    (playerId username : string) (betAmount : Q) (clock : Z) (w : World) :
  let result := fst (joinLobby CONFIG playerId username betAmount clock w) in
  let w' := snd (joinLobby CONFIG playerId username betAmount clock w) in
  (result = Thrown Insufficient_balance ->
     exists player,
       Prisma.player_upsert username playerId (DEFAULT_DEMO_BALANCE CONFIG)
         (db w) = Some (player, db w')
       /\ Prisma.player_findByUsername username (db w') = Some player
       /\ In player (Prisma.player (db w'))
       /\ Prisma.id player = playerId
       /\ Prisma.username player = username
       /\ Prisma.demoBalance player < betAmount)
  /\ (forall e,
        result = Thrown e ->
        e <> PrismaError
        \/ Prisma.player_upsert username playerId
             (DEFAULT_DEMO_BALANCE CONFIG) (db w) = None ->
        lobbyPlayers w' = lobbyPlayers w).
Proof.
  cbv zeta. unfold joinLobby. unfold_op.
  destruct (negb (GamePhase_eqb (phase w) LOBBY));
    [split; [discriminate | reflexivity]|].
  destruct (Qlt_bool betAmount (MIN_BET_AMOUNT CONFIG));
    [split; [discriminate | reflexivity]|].
  destruct (JsMap.has playerId (lobbyPlayers w));
    [split; [discriminate | reflexivity]|].
  destruct (Prisma.player_upsert username playerId
              (DEFAULT_DEMO_BALANCE CONFIG) (db w)) as [[player d]|] eqn:Hup;
    [|split; [discriminate | reflexivity]].
  destruct (Qlt_bool (Prisma.demoBalance player) betAmount) eqn:Hbal.
  - simpl. split; [|reflexivity]. intros _.
    destruct (upsert_row _ _ _ _ _ _ Hup) as (Hid & Hname & Hin & Hfind & _).
    exists player. apply Qlt_bool_iff in Hbal. repeat split; assumption.
  - cbn [fst snd db with_db with_lobbyPlayers].
    destruct (Prisma.lobbyEntry_create
                (Prisma.mkLobbyEntry playerId betAmount) d) as [d'|];
      cbn [option_map fst snd]; [split; discriminate|].
    split; [discriminate|].
    intros e [= <-] [Hother|Hnone]; [now contradiction Hother | discriminate].
Qed.

Lemma joinLobby_rejected_after_upsert_witness :
  balanceOf "a" sampleLobby = None
  /\ exists player,
       balanceOf "a"
         (snd (joinLobby default_CONFIG "a" "alice" 200 6%Z sampleLobby))
       = Some (Prisma.demoBalance player)
       /\ Prisma.demoBalance player < 200
       /\ lobbyPlayers
            (snd (joinLobby default_CONFIG "a" "alice" 200 6%Z sampleLobby))
          = [].
Proof.
  split; [reflexivity|].
  destruct (joinLobby_rejected_after_upsert default_CONFIG "a" "alice" 200
              6%Z sampleLobby) as [Hrec Hroster].
  destruct (Hrec eq_refl) as (player & Hup & _ & _ & _ & _ & Hlt).
  exists player. split; [|split].
  - vm_compute in Hup. injection Hup as Hplayer. rewrite <- Hplayer.
    reflexivity.
  - exact Hlt.
  - apply (Hroster Insufficient_balance); [reflexivity|].
    left. discriminate.
Defined.

(** ** Framing: what a handler leaves related *)

Section Frames.

Variable R : World -> World -> Prop.
Hypothesis R_refl : forall w, R w w.
Hypothesis R_trans : forall a b c, R a b -> R b c -> R a c.

Lemma keeps_ret {A : Type} (a : A) : keeps R (ret a).
Proof. intros w. apply R_refl. Qed.

Lemma keeps_throw {A : Type} (e : GameError) : keeps R (@throw A e).
Proof. intros w. apply R_refl. Qed.

Lemma keeps_get : keeps R get.
Proof. intros w. apply R_refl. Qed.

Lemma keeps_modify (f : World -> World) :
  (forall w, R w (f w)) -> keeps R (modify f).
Proof. intros H w. apply H. Qed.

Lemma keeps_bind {A B : Type} (c : Op A) (k : A -> Op B) :
  keeps R c -> (forall a, keeps R (k a)) -> keeps R (bind c k).
Proof.
  intros Hc Hk w. unfold bind. specialize (Hc w).
  destruct (c w) as [[a|e] w1]; simpl in *.
  - eapply R_trans; [exact Hc | apply Hk].
  - exact Hc.
Qed.

Hypothesis R_db : forall w d, R w (with_db d w).

Lemma keeps_prisma {A : Type} (call : Prisma.t -> option (A * Prisma.t)) :
  keeps R (prisma call).
Proof.
  intros w. unfold prisma.
  destruct (call (db w)) as [[a d]|]; simpl; [apply R_db | apply R_refl].
Qed.

Lemma keeps_createPositions (roundId : string) (entryPrice : Q)
    (assignments : list (string * Side))
    (positions : JsMap.t PlayerPosition.t) :
  keeps R (createPositions roundId entryPrice assignments positions).
Proof.
  revert positions.
  induction assignments as [|[playerId positionType] rest IH];
    intros positions; simpl.
  - apply keeps_ret.
  - apply keeps_bind; [apply keeps_get|]. intros w.
    destruct (JsMap.get playerId (lobbyPlayers w)); [|apply keeps_throw].
    apply keeps_bind; [apply keeps_modify; intros; apply R_db|]. intros _.
    apply keeps_bind; [apply keeps_prisma|]. intros _. apply IH.
Qed.

Lemma keeps_settlePositions (round : RoundState.t) (finalPrice : Q)
    (entries : list (string * PlayerPosition.t))
    (payouts : list (string * Q * Q * bool)) :
  keeps R (settlePositions round finalPrice entries payouts).
Proof.
  revert payouts.
  induction entries as [|[playerId position] rest IH]; intros payouts; simpl.
  - apply keeps_ret.
  - apply keeps_bind; [apply keeps_modify; intros; apply R_db|]. intros _.
    apply keeps_bind; [apply keeps_prisma|]. intros _. apply IH.
Qed.

Hypothesis R_emit : forall w e, ~ is_lobby_update e = true -> R w (emit e w).

Lemma keeps_updatePosition (round : RoundState.t) (price : Q)
    (playerId : string) (position : PlayerPosition.t) (w : World) :
  R w (snd (updatePosition round price playerId position w)).
Proof.
  unfold updatePosition.
  destruct (_ || _); [apply R_refl|]. cbv zeta.
  destruct (isLiquidated _ _ _ _); [|apply R_refl]. simpl.
  match goal with
  | |- R w (match _ with Some _ => _ | None => with_db ?d (emit ?e w) end) =>
      assert (H1 : R w (emit e w)) by (apply R_emit; cbn; discriminate);
      assert (H2 : R (emit e w) (with_db d (emit e w))) by apply R_db
  end.
  destruct (Prisma.player_update _ _ _).
  - eapply R_trans; [exact H1|]. eapply R_trans; [exact H2|]. apply R_db.
  - eapply R_trans; eassumption.
Qed.

Lemma keeps_updatePositions (round : RoundState.t) (price : Q)
    (entries : list (string * PlayerPosition.t)) (w : World) :
  R w (snd (updatePositions round price entries w)).
Proof.
  revert w. induction entries as [|[playerId position] rest IH];
    intros w; simpl.
  - apply R_refl.
  - pose proof (keeps_updatePosition round price playerId position w) as H1.
    destruct (updatePosition round price playerId position w) as [p w1].
    specialize (IH w1).
    destruct (updatePositions round price rest w1) as [r w2].
    simpl in *. eapply R_trans; eassumption.
Qed.

End Frames.

Ltac keeps_step :=
  lazymatch goal with
  | |- keeps _ (bind _ _) => apply keeps_bind; [assumption| |intros]
  | |- keeps _ (ret _) => apply keeps_ret; assumption
  | |- keeps _ (throw _) => apply keeps_throw; assumption
  | |- keeps _ get => apply keeps_get; assumption
  | |- keeps _ (prisma _) => apply keeps_prisma; assumption
  | |- keeps _ (modify _) => apply keeps_modify; intros
  | |- keeps _ (createPositions _ _ _ _) =>
      apply keeps_createPositions; assumption
  | |- keeps _ (settlePositions _ _ _ _) =>
      apply keeps_settlePositions; assumption
  | |- keeps _ (if ?b then _ else _) => destruct b
  | |- keeps _ (match ?x with _ => _ end) => destruct x
  end.

(** The fields a database write leaves alone. *)
Lemma with_db_same (w : World) : with_db (db w) w = w.
Proof. now destruct w. Qed.

(** ** Ticks and shots inside a round *)

Lemma sameGame_refl (w : World) : sameGame w w.
Proof. reflexivity. Qed.

Lemma sameGame_trans (a b c : World) :
  sameGame a b -> sameGame b c -> sameGame a c.
Proof. unfold sameGame. congruence. Qed.

Lemma sameGame_db (w : World) (d : Prisma.t) : sameGame w (with_db d w).
Proof. reflexivity. Qed.

Lemma sameGame_emit (w : World) (e : Event) : sameGame w (emit e w).
Proof. reflexivity. Qed.

Lemma updatePositions_sameGame (round : RoundState.t) (price : Q)
    (entries : list (string * PlayerPosition.t)) (w : World) :
  sameGame w (snd (updatePositions round price entries w)).
Proof.
  apply keeps_updatePositions.
  - exact sameGame_refl.
  - exact sameGame_trans.
  - exact sameGame_db.
  - intros ? ? _. apply sameGame_emit.
Qed.

Lemma joinLobby_sameGame (CONFIG : Config) (playerId username : string)
    (betAmount : Q) (clock : Z) :
  keeps sameGame (joinLobby CONFIG playerId username betAmount clock).
Proof.
  pose proof sameGame_refl. pose proof sameGame_trans.
  pose proof sameGame_db.
  unfold joinLobby. repeat keeps_step; reflexivity.
Qed.

Lemma lobbyUpdateCallback_sameGame (h : nat) (clock : Z) (w : World) :
  sameGame w (lobbyUpdateCallback h clock w).
Proof.
  unfold lobbyUpdateCallback. destruct (negb _); reflexivity.
Qed.

(** A tick leaves a closed position as it is, and gives an open one the
    P&L at the tick price. *)
Lemma updatePosition_terminal (round : RoundState.t) (price : Q)
    (playerId : string) (position : PlayerPosition.t) (w : World) :
  terminal position = true ->
  updatePosition round price playerId position w = (position, w).
Proof.
  unfold terminal, updatePosition. now intros ->.
Qed.

Lemma updatePosition_open (round : RoundState.t) (price : Q)
    (playerId : string) (position : PlayerPosition.t) (w : World) :
  terminal position = false ->
  let p' := fst (updatePosition round price playerId position w) in
  PlayerPosition.currentPnl p'
    = calculatePnL (PlayerPosition.positionType position)
        (PlayerPosition.entryPrice position) price
        (PlayerPosition.betAmount position) (RoundState.leverage round)
  /\ PlayerPosition.didShoot p' = false
  /\ PlayerPosition.positionType p' = PlayerPosition.positionType position
  /\ PlayerPosition.entryPrice p' = PlayerPosition.entryPrice position
  /\ PlayerPosition.betAmount p' = PlayerPosition.betAmount position.
Proof.
  unfold terminal, updatePosition. intros H. rewrite H. cbv zeta.
  apply orb_false_iff in H as [_ Hshoot]. simpl.
  destruct (isLiquidated _ _ _ _); simpl; repeat split; assumption.
Qed.

Lemma updatePosition_neverBoth (round : RoundState.t) (price : Q)
    (playerId : string) (position : PlayerPosition.t) (w : World) :
  PlayerPosition.liquidated position && PlayerPosition.didShoot position
    = false ->
  let p' := fst (updatePosition round price playerId position w) in
  PlayerPosition.liquidated p' && PlayerPosition.didShoot p' = false.
Proof.
  intros H. destruct (terminal position) eqn:Ht.
  - rewrite updatePosition_terminal by exact Ht. exact H.
  - destruct (updatePosition_open round price playerId position w Ht)
      as (_ & Hshoot & _).
    cbv zeta. rewrite Hshoot. apply andb_false_r.
Qed.

Lemma updatePositions_get (round : RoundState.t) (price : Q) (k : string)
    (entries : list (string * PlayerPosition.t)) (w : World) :
  match JsMap.get k entries with
  | None => JsMap.get k (fst (updatePositions round price entries w)) = None
  | Some p =>
      exists k' w',
        JsMap.get k (fst (updatePositions round price entries w))
        = Some (fst (updatePosition round price k' p w'))
  end.
Proof.
  revert w. induction entries as [|[k0 p0] rest IH]; intros w; simpl.
  - reflexivity.
  - destruct (updatePosition round price k0 p0 w) as [p1 w1] eqn:E1.
    specialize (IH w1).
    destruct (updatePositions round price rest w1) as [r w2]. simpl in *.
    destruct (String.eqb k k0).
    + exists k0, w. now rewrite E1.
    + exact IH.
Qed.

Lemma updatePositions_In (round : RoundState.t) (price : Q) (k : string)
    (p' : PlayerPosition.t) (entries : list (string * PlayerPosition.t))
    (w : World) :
  In (k, p') (fst (updatePositions round price entries w)) ->
  exists p w',
    In (k, p) entries /\ p' = fst (updatePosition round price k p w').
Proof.
  revert w. induction entries as [|[k0 p0] rest IH]; intros w; simpl.
  - contradiction.
  - destruct (updatePosition round price k0 p0 w) as [p1 w1] eqn:E1.
    specialize (IH w1).
    destruct (updatePositions round price rest w1) as [r w2]. simpl in *.
    intros [[= <- <-]|Hin].
    + exists p0, w. rewrite E1. split; [now left | reflexivity].
    + destruct (IH Hin) as (p & w' & Hp & Heq). exists p, w'. tauto.
Qed.

Lemma handlePriceUpdate_round (priceData : PriceData.t) (w : World)
    (round : RoundState.t) :
  phase w = ROUND ->
  currentRound w = Some round ->
  let w' := handlePriceUpdate priceData w in
  phase w' = ROUND
  /\ currentRound w'
     = Some (RoundState.with_positions
               (fst (updatePositions round (PriceData.price priceData)
                       (RoundState.positions round) w))
               (RoundState.with_currentPrice (PriceData.price priceData)
                  round)).
Proof.
  intros Hphase Hround. cbv zeta. unfold handlePriceUpdate.
  rewrite Hphase, Hround. unfold JsMap.entries.
  pose proof (updatePositions_sameGame round (PriceData.price priceData)
                (RoundState.positions round) w) as Hsame.
  destruct (updatePositions _ _ _ w) as [positions w1]. simpl in *.
  unfold phase, currentRound in *. simpl. rewrite Hsame. tauto.
Qed.

Lemma handlePriceUpdate_idle (priceData : PriceData.t) (w : World) :
  phase w <> ROUND \/ currentRound w = None ->
  handlePriceUpdate priceData w = w.
Proof.
  unfold handlePriceUpdate. intros [H|H].
  - destruct (phase w); [reflexivity | contradiction].
  - rewrite H. now destruct (phase w).
Qed.

(** Where [shoot] leaves the game state: untouched, or with the position
    of the player marked as shot. *)
Lemma shoot_gameState (playerId roundId : string) (clock : Z) (w : World) :
  let result := fst (shoot playerId roundId clock w) in
  let w' := snd (shoot playerId roundId clock w) in
  (is_Done result = false /\ w' = w)
  \/ (exists round position,
        phase w = ROUND
        /\ currentRound w = Some round
        /\ RoundState.id round = roundId
        /\ JsMap.get playerId (RoundState.positions round) = Some position
        /\ PlayerPosition.didShoot position = false
        /\ PlayerPosition.liquidated position = false
        /\ gameState w'
           = GameState.with_currentRound
               (Some (RoundState.with_positions
                        (JsMap.set playerId (shotPosition clock position)
                           (RoundState.positions round)) round))
               (gameState w)).
Proof.
  cbv zeta. unfold shoot. unfold_op.
  destruct (phase w) eqn:Hphase; [left; tauto|].
  destruct (currentRound w) as [round|] eqn:Hround; [|left; tauto].
  destruct (String.eqb_spec (RoundState.id round) roundId) as [Hid|Hid];
    cbn [negb]; [|left; tauto].
  destruct (JsMap.get playerId (RoundState.positions round))
    as [position|] eqn:Hget; [|left; tauto].
  destruct (PlayerPosition.didShoot position) eqn:Hshot; [left; tauto|].
  destruct (PlayerPosition.liquidated position) eqn:Hliq; [left; tauto|].
  right. exists round, position.
  repeat (split; [assumption || reflexivity|]).
  cbn [fst snd].
  match goal with
  | |- context [option_map _ ?u] => destruct u
  end; reflexivity.
Qed.

Lemma sameGame_views (w w' : World) (playerId : string) :
  sameGame w w' ->
  positionOf playerId w' = positionOf playerId w
  /\ phase w' = phase w
  /\ roundIdOf w' = roundIdOf w.
Proof.
  unfold sameGame, positionOf, roundIdOf, phase, currentRound.
  now intros ->.
Qed.

Lemma handlePriceUpdate_keeps_terminal (priceData : PriceData.t) (w : World)
    (playerId : string) (position : PlayerPosition.t) :
  positionOf playerId w = Some position ->
  terminal position = true ->
  let w' := handlePriceUpdate priceData w in
  positionOf playerId w' = Some position
  /\ phase w' = phase w
  /\ roundIdOf w' = roundIdOf w.
Proof.
  intros Hpos Hterm. cbv zeta.
  destruct (phase w) eqn:Hphase.
  { rewrite handlePriceUpdate_idle by (left; congruence). tauto. }
  unfold positionOf in Hpos.
  destruct (currentRound w) as [round|] eqn:Hround; [|discriminate].
  destruct (handlePriceUpdate_round priceData w round Hphase Hround)
    as [Hphase' Hround'].
  unfold positionOf, roundIdOf. rewrite Hround', Hround. simpl.
  split; [|split; [exact Hphase' | reflexivity]].
  pose proof (updatePositions_get round (PriceData.price priceData) playerId
                (RoundState.positions round) w) as Hget.
  rewrite Hpos in Hget. destruct Hget as (k' & w' & ->).
  now rewrite updatePosition_terminal.
Qed.

Lemma shoot_keeps_terminal (shooter roundId : string) (clock : Z) (w : World)
    (playerId : string) (position : PlayerPosition.t) :
  positionOf playerId w = Some position ->
  terminal position = true ->
  let w' := snd (shoot shooter roundId clock w) in
  positionOf playerId w' = Some position
  /\ phase w' = phase w
  /\ roundIdOf w' = roundIdOf w.
Proof.
  intros Hpos Hterm. cbv zeta.
  destruct (shoot_gameState shooter roundId clock w)
    as [[_ ->]|(round & p & Hphase & Hround & Hid & Hget & Hshot & Hliq & Hgs)];
    [tauto|].
  unfold positionOf, roundIdOf, phase, currentRound in *.
  rewrite Hgs. simpl. rewrite Hround in *. simpl.
  split; [|tauto].
  destruct (String.eqb_spec playerId shooter) as [->|Hne].
  - rewrite Hget in Hpos. injection Hpos as ->.
    unfold terminal in Hterm. rewrite Hshot, Hliq in Hterm. discriminate.
  - now rewrite JsMap_get_set_other.
Qed.

Lemma step_keeps_terminal (CONFIG : Config) (w : World) (i : Input)
    (playerId : string) (position : PlayerPosition.t) :
  withinRound i = true ->
  positionOf playerId w = Some position ->
  terminal position = true ->
  let w' := snd (step CONFIG w i) in
  positionOf playerId w' = Some position
  /\ phase w' = phase w
  /\ roundIdOf w' = roundIdOf w.
Proof.
  intros Hin Hpos Hterm. cbv zeta.
  destruct i as [h env|h clock|priceData|joiner username bet clock
                |shooter roundId clock]; simpl in *.
  - discriminate.
  - destruct (existsb _ _); simpl; [|tauto].
    destruct (sameGame_views w (lobbyUpdateCallback h clock w) playerId
                (lobbyUpdateCallback_sameGame h clock w)) as (-> & -> & ->).
    tauto.
  - destruct (priceUnsubscribe w); [|tauto].
    destruct (String.eqb _ _); simpl; [|tauto].
    now apply handlePriceUpdate_keeps_terminal.
  - destruct (sameGame_views w _ playerId
                (joinLobby_sameGame CONFIG joiner username bet clock w))
      as (-> & -> & ->).
    tauto.
  - now apply shoot_keeps_terminal.
Qed.

Lemma run_keeps_terminal (CONFIG : Config) (inputs : list Input) (w : World)
    (playerId : string) (position : PlayerPosition.t) :
  forallb withinRound inputs = true ->
  positionOf playerId w = Some position ->
  terminal position = true ->
  let w' := run CONFIG w inputs in
  positionOf playerId w' = Some position
  /\ phase w' = phase w
  /\ roundIdOf w' = roundIdOf w.
Proof.
  revert w. induction inputs as [|i inputs IH]; intros w Hin Hpos Hterm.
  - simpl. tauto.
  - simpl in Hin. apply andb_true_iff in Hin as [Hi Hin].
    destruct (step_keeps_terminal CONFIG w i playerId position Hi Hpos Hterm)
      as (Hpos1 & Hphase1 & Hid1).
    cbv zeta. unfold run. simpl. fold (run CONFIG (snd (step CONFIG w i)) inputs).
    destruct (IH _ Hin Hpos1 Hterm) as (-> & -> & ->). tauto.
Qed.

(** A shot at a closed position fails and changes nothing. *)
Lemma shoot_terminal_fails (playerId roundId : string) (clock : Z)
    (w : World) (position : PlayerPosition.t) :
  positionOf playerId w = Some position ->
  terminal position = true ->
  exists e, shoot playerId roundId clock w = (Thrown e, w).
Proof.
  unfold positionOf, terminal, shoot. unfold_op. intros Hpos Hterm.
  destruct (currentRound w) as [round|]; [|discriminate].
  destruct (phase w); [eauto|].
  destruct (negb _); [eauto|]. rewrite Hpos.
  destruct (PlayerPosition.didShoot position); [eauto|].
  rewrite orb_false_r in Hterm. rewrite Hterm. eauto.
Qed.

Lemma shoot_already_shot (playerId roundId : string) (clock : Z) (w : World)
    (position : PlayerPosition.t) :
  phase w = ROUND ->
  roundIdOf w = Some roundId ->
  positionOf playerId w = Some position ->
  PlayerPosition.didShoot position = true ->
  shoot playerId roundId clock w = (Thrown Already_shot, w).
Proof.
  unfold roundIdOf, positionOf, shoot. unfold_op.
  intros -> Hid Hpos Hshot.
  destruct (currentRound w) as [round|]; [|discriminate].
  simpl in Hid. injection Hid as Hid. simpl.
  rewrite Hid, String.eqb_refl. simpl. now rewrite Hpos, Hshot.
Qed.

Lemma shoot_success (playerId roundId : string) (clock : Z) (w : World) :
  fst (shoot playerId roundId clock w) = Done tt ->
  exists position,
    positionOf playerId w = Some position
    /\ terminal position = false
    /\ phase w = ROUND
    /\ roundIdOf w = Some roundId
    /\ positionOf playerId (snd (shoot playerId roundId clock w))
       = Some (shotPosition clock position)
    /\ phase (snd (shoot playerId roundId clock w)) = ROUND
    /\ roundIdOf (snd (shoot playerId roundId clock w)) = Some roundId.
Proof.
  intros Hok.
  destruct (shoot_gameState playerId roundId clock w)
    as [[Hfail _]|(round & p & Hphase & Hround & Hid & Hget & Hshot & Hliq
                   & Hgs)].
  { rewrite Hok in Hfail. discriminate. }
  exists p. unfold positionOf, roundIdOf, terminal, phase, currentRound in *.
  rewrite Hgs, Hround, Hshot, Hliq. simpl.
  rewrite JsMap_get_set_same, Hid. tauto.
Qed.

(** C3. [shoot] fails and changes nothing when the phase is not ROUND, when
    [roundId] is not the id of the active round, when the player has no
    position, when the position was already shot and when it is liquidated.
    When it succeeds the position gets [didShoot] with its [currentPnl]
    untouched, which after a tick is the P&L at that tick's price; from then
    on, as long as the round lasts, the position stays as it is and every
    further shot of the player fails. *)
Theorem shoot_rejects_and_freezes (CONFIG : Config)
    (playerId roundId : string) (clock : Z) (w : World) :
  (phase w <> ROUND ->
     shoot playerId roundId clock w = (Thrown No_active_round, w))
  /\ (roundIdOf w <> Some roundId ->
     exists e, shoot playerId roundId clock w = (Thrown e, w))
  /\ (positionOf playerId w = None ->
     exists e, shoot playerId roundId clock w = (Thrown e, w))
  /\ (forall position,
        positionOf playerId w = Some position ->
        PlayerPosition.didShoot position = true ->
        exists e, shoot playerId roundId clock w = (Thrown e, w))
  /\ (forall position,
        positionOf playerId w = Some position ->
        PlayerPosition.liquidated position = true ->
        exists e, shoot playerId roundId clock w = (Thrown e, w))
  /\ (fst (shoot playerId roundId clock w) = Done tt ->
      exists position,
        positionOf playerId w = Some position
        /\ terminal position = false
        /\ positionOf playerId (snd (shoot playerId roundId clock w))
           = Some (shotPosition clock position)
        /\ PlayerPosition.didShoot (shotPosition clock position) = true
        /\ PlayerPosition.currentPnl (shotPosition clock position)
           = PlayerPosition.currentPnl position
        /\ forall inputs clock',
             forallb withinRound inputs = true ->
             let later :=
               run CONFIG (snd (shoot playerId roundId clock w)) inputs in
             positionOf playerId later = Some (shotPosition clock position)
             /\ shoot playerId roundId clock' later
                = (Thrown Already_shot, later))
  /\ (forall priceData,
        fst (shoot playerId roundId clock (handlePriceUpdate priceData w))
          = Done tt ->
        exists round position,
          currentRound w = Some round
          /\ positionOf playerId
               (snd (shoot playerId roundId clock
                       (handlePriceUpdate priceData w))) = Some position
          /\ PlayerPosition.didShoot position = true
          /\ PlayerPosition.currentPnl position
             = calculatePnL (PlayerPosition.positionType position)
                 (PlayerPosition.entryPrice position)
                 (PriceData.price priceData)
                 (PlayerPosition.betAmount position)
                 (RoundState.leverage round)).
Proof.
  split; [|split; [|split; [|split; [|split; [|split]]]]].
  - unfold shoot. unfold_op. intros H.
    destruct (phase w); [reflexivity | contradiction].
  - unfold roundIdOf, shoot. unfold_op. intros H.
    destruct (phase w); [eauto|].
    destruct (currentRound w) as [round|]; [|eauto]. simpl in H.
    destruct (String.eqb_spec (RoundState.id round) roundId) as [Heq|Hne];
      [congruence | simpl; eauto].
  - unfold positionOf, shoot. unfold_op. intros H.
    destruct (phase w); [eauto|].
    destruct (currentRound w) as [round|]; [|eauto].
    destruct (negb _); [eauto|]. rewrite H. eauto.
  - intros position Hpos Hshot.
    apply (shoot_terminal_fails _ _ _ _ position Hpos).
    unfold terminal. rewrite Hshot. apply orb_true_r.
  - intros position Hpos Hliq.
    apply (shoot_terminal_fails _ _ _ _ position Hpos).
    unfold terminal. now rewrite Hliq.
  - intros Hok.
    destruct (shoot_success _ _ _ _ Hok)
      as (position & Hpos & Hterm & Hphase & Hid & Hpos' & Hphase' & Hid').
    exists position.
    split; [exact Hpos|]. split; [exact Hterm|]. split; [exact Hpos'|].
    split; [reflexivity|]. split; [reflexivity|].
    intros inputs clock' Hin.
    assert (Hshot : terminal (shotPosition clock position) = true).
    { unfold terminal. simpl. apply orb_true_r. }
    destruct (run_keeps_terminal CONFIG inputs _ playerId _ Hin Hpos' Hshot)
      as (Hpos2 & Hphase2 & Hid2).
    cbv zeta. split; [exact Hpos2|].
    apply (shoot_already_shot _ _ _ _ (shotPosition clock position)).
    + congruence.
    + congruence.
    + exact Hpos2.
    + reflexivity.
  - intros priceData Hok.
    destruct (shoot_success _ _ _ _ Hok)
      as (p1 & Hpos1 & Hterm1 & Hphase1 & _ & Hpos' & _).
    destruct (phase w) eqn:Hphase.
    { rewrite handlePriceUpdate_idle in Hphase1 by (left; congruence).
      congruence. }
    destruct (currentRound w) as [round|] eqn:Hround.
    2:{ rewrite handlePriceUpdate_idle in Hpos1 by now right.
        unfold positionOf in Hpos1. rewrite Hround in Hpos1. discriminate. }
    destruct (handlePriceUpdate_round priceData w round Hphase Hround)
      as [_ Hround1].
    unfold positionOf in Hpos1. rewrite Hround1 in Hpos1. simpl in Hpos1.
    pose proof (updatePositions_get round (PriceData.price priceData)
                  playerId (RoundState.positions round) w) as Hget.
    rewrite Hpos1 in Hget.
    destruct (JsMap.get playerId (RoundState.positions round)) as [p0|];
      [|discriminate].
    destruct Hget as (k' & w' & [= ->]).
    destruct (terminal p0) eqn:Hterm0.
    { rewrite updatePosition_terminal in Hterm1 by exact Hterm0.
      simpl in Hterm1. congruence. }
    destruct (updatePosition_open round (PriceData.price priceData) k' p0 w'
                Hterm0) as (Hpnl & _ & Htype & Hentry & Hbet).
    exists round, (shotPosition clock
                     (fst (updatePosition round (PriceData.price priceData)
                             k' p0 w'))).
    split; [reflexivity|]. split; [exact Hpos'|]. split; [reflexivity|].
    simpl. rewrite Hpnl, Htype, Hentry, Hbet. reflexivity.
Qed.

Lemma shoot_rejects_and_freezes_witness :
  shoot "a" "round-1" 7%Z sampleLobby1
    = (Thrown No_active_round, sampleLobby1)
  /\ (exists e,
        shoot "a" "round-2" 7%Z sampleRound = (Thrown e, sampleRound))
  /\ (exists e,
        shoot "zed" "round-1" 7%Z sampleRound = (Thrown e, sampleRound))
  /\ (exists e,
        shoot "a" "round-1" 7%Z sampleShot = (Thrown e, sampleShot))
  /\ (exists e,
        shoot "a" "round-1" 7%Z sampleLiquidated
        = (Thrown e, sampleLiquidated))
  /\ (exists position,
        positionOf "a" sampleShot = Some position
        /\ PlayerPosition.didShoot position = true
        /\ PlayerPosition.currentPnl position == 5)
  /\ shoot "a" "round-1" 23000%Z
       (run default_CONFIG sampleShot [PriceTick (sampleTick (998 # 10))])
     = (Thrown Already_shot,
        run default_CONFIG sampleShot [PriceTick (sampleTick (998 # 10))]).
Proof.
  split; [|split; [|split; [|split; [|split; [|split]]]]].
  - apply (shoot_rejects_and_freezes default_CONFIG "a" "round-1" 7%Z
             sampleLobby1).
    discriminate.
  - destruct (shoot_rejects_and_freezes default_CONFIG "a" "round-2" 7%Z
                sampleRound) as (_ & Hid & _).
    apply Hid. discriminate.
  - destruct (shoot_rejects_and_freezes default_CONFIG "zed" "round-1" 7%Z
                sampleRound) as (_ & _ & Hnone & _).
    apply Hnone. reflexivity.
  - destruct (shoot_rejects_and_freezes default_CONFIG "a" "round-1" 7%Z
                sampleShot) as (_ & _ & _ & Hshot & _).
    eapply Hshot; reflexivity.
  - destruct (shoot_rejects_and_freezes default_CONFIG "a" "round-1" 7%Z
                sampleLiquidated) as (_ & _ & _ & _ & Hliq & _).
    eapply Hliq; reflexivity.
  - destruct (shoot_rejects_and_freezes default_CONFIG "a" "round-1"
                21000%Z sampleRound) as (_ & _ & _ & _ & _ & _ & Htick).
    destruct (Htick (sampleTick (999 # 10)) eq_refl)
      as (round & position & Hround & Hpos & Hshot & Hpnl).
    exists position. split; [exact Hpos|]. split; [exact Hshot|].
    rewrite Hpnl. vm_compute in Hround, Hpos.
    injection Hround as <-. injection Hpos as <-. reflexivity.
  - destruct (shoot_rejects_and_freezes default_CONFIG "a" "round-1"
                21000%Z sampleTicked) as (_ & _ & _ & _ & _ & Hok & _).
    destruct (Hok eq_refl) as (position & _ & _ & _ & _ & _ & Hlater).
    apply (Hlater [PriceTick (sampleTick (998 # 10))] 23000%Z).
    reflexivity.
Defined.

(** ** No position is both liquidated and shot *)

Lemma JsMap_In_set {V : Type} (k k' : string) (v v' : V) (m : JsMap.t V) :
  In (k', v') (JsMap.set k v m) -> In (k', v') m \/ v' = v.
Proof.
  induction m as [|[k0 v0] m IH]; simpl.
  - intros [[= _ <-]|[]]. now right.
  - destruct (String.eqb k k0); simpl.
    + intros [[= _ <-]|H]; [now right | left; now right].
    + intros [H|H]; [left; now left|].
      destruct (IH H); [left; now right | now right].
Qed.

Lemma sameGame_neverBoth (w w' : World) :
  sameGame w w' -> neverBoth w -> neverBoth w'.
Proof.
  unfold sameGame, neverBoth, currentRound. intros ->. auto.
Qed.

Lemma createPositions_fresh (roundId : string) (entryPrice : Q)
    (assignments : list (string * Side))
    (positions0 positions : JsMap.t PlayerPosition.t) (w : World) :
  fst (createPositions roundId entryPrice assignments positions0 w)
    = Done positions ->
  forall k p,
    In (k, p) positions ->
    In (k, p) positions0
    \/ (PlayerPosition.liquidated p = false
        /\ PlayerPosition.didShoot p = false
        /\ PlayerPosition.currentPnl p = 0).
Proof.
  revert positions0 w.
  induction assignments as [|[playerId positionType] rest IH];
    intros positions0 w; simpl; unfold_op.
  - intros [= <-]. auto.
  - destruct (JsMap.get playerId (lobbyPlayers w)) as [lobbyPlayer|];
      [|discriminate].
    simpl.
    match goal with
    | |- context [option_map _ ?u] => destruct u; simpl; [|discriminate]
    end.
    intros Hdone k p Hin.
    destruct (IH _ _ Hdone k p Hin) as [Hold|Hnew]; [|now right].
    apply JsMap_In_set in Hold as [Hold| ->]; [now left | right].
    simpl. tauto.
Qed.

Lemma startRound_round (CONFIG : Config) (selected : string) (env : Env)
    (w : World) :
  let w' := snd (startRound CONFIG selected env w) in
  currentRound w' = None
  \/ sameGame w w'
  \/ exists round,
       currentRound w' = Some round
       /\ forall k p,
            In (k, p) (RoundState.positions round) ->
            PlayerPosition.liquidated p = false
            /\ PlayerPosition.didShoot p = false
            /\ PlayerPosition.currentPnl p = 0.
Proof.
  cbv zeta. unfold startRound.
  destruct (priceSample env) as [priceData|]; [|left; reflexivity].
  unfold_op. cbn [fst snd].
  match goal with
  | |- context [createPositions ?r ?e ?a ?p ?w0] =>
      pose proof (keeps_createPositions sameGame sameGame_refl
                    sameGame_trans sameGame_db r e a p w0) as Hsame;
      pose proof (createPositions_fresh r e a p) as Hfresh;
      destruct (createPositions r e a p w0) as [[positions|e'] w1] eqn:E
  end; simpl in *.
  - right. right. eexists. split; [reflexivity|]. simpl.
    intros k p Hin.
    match type of E with
    | createPositions _ _ _ _ ?w0 = _ =>
        specialize (Hfresh positions w0)
    end.
    rewrite E in Hfresh.
    destruct (Hfresh eq_refl k p Hin) as [[]|H]. exact H.
  - right. left. exact Hsame.
Qed.

Lemma endLobby_round (CONFIG : Config) (env : Env) (w : World) :
  let w' := snd (endLobby CONFIG env w) in
  currentRound w' = None
  \/ sameGame w w'
  \/ exists round,
       currentRound w' = Some round
       /\ forall k p,
            In (k, p) (RoundState.positions round) ->
            PlayerPosition.liquidated p = false
            /\ PlayerPosition.didShoot p = false
            /\ PlayerPosition.currentPnl p = 0.
Proof.
  cbv zeta. unfold endLobby. unfold_op.
  destruct (Nat.eqb _ _); [left; reflexivity|].
  destruct (selectedPair env); [|left; reflexivity].
  apply startRound_round.
Qed.

Lemma endRound_round (CONFIG : Config) (reason : string) (clock : Z)
    (w : World) :
  let w' := snd (endRound CONFIG reason clock w) in
  currentRound w' = None \/ sameGame w w'.
Proof.
  cbv zeta. unfold endRound. unfold_op.
  destruct (phase w); [right; reflexivity|].
  destruct (currentRound w) as [round|]; [|right; reflexivity].
  cbn [fst snd].
  match goal with
  | |- context [settlePositions ?r ?f ?e ?p ?w0] =>
      pose proof (keeps_settlePositions sameGame sameGame_refl
                    sameGame_trans sameGame_db r f e p w0) as Hsame;
      destruct (settlePositions r f e p w0) as [[payouts|e'] w1]
  end; simpl in *.
  - match goal with
    | |- context [option_map _ ?u] => destruct u; simpl
    end.
    + left. reflexivity.
    + right. exact Hsame.
  - right. exact Hsame.
Qed.

Lemma handlePriceUpdate_neverBoth (priceData : PriceData.t) (w : World) :
  neverBoth w -> neverBoth (handlePriceUpdate priceData w).
Proof.
  intros Hinv.
  destruct (phase w) eqn:Hphase.
  { now rewrite handlePriceUpdate_idle by (left; congruence). }
  destruct (currentRound w) as [round|] eqn:Hround.
  2:{ now rewrite handlePriceUpdate_idle by now right. }
  destruct (handlePriceUpdate_round priceData w round Hphase Hround)
    as [_ Hround'].
  intros round' k p' Hr Hin. rewrite Hround' in Hr. injection Hr as <-.
  simpl in Hin.
  apply updatePositions_In in Hin as (p & w' & Hp & ->).
  apply updatePosition_neverBoth. eapply Hinv; eassumption.
Qed.

Lemma shoot_neverBoth (playerId roundId : string) (clock : Z) (w : World) :
  neverBoth w -> neverBoth (snd (shoot playerId roundId clock w)).
Proof.
  intros Hinv.
  destruct (shoot_gameState playerId roundId clock w)
    as [[_ ->]|(round & p & _ & Hround & _ & Hget & Hshot & Hliq & Hgs)];
    [exact Hinv|].
  intros round' k p' Hr Hin. unfold currentRound in Hr.
  rewrite Hgs in Hr. simpl in Hr. injection Hr as <-. simpl in Hin.
  apply JsMap_In_set in Hin as [Hold| ->].
  - eapply Hinv; eassumption.
  - simpl. now rewrite Hliq.
Qed.

Lemma fresh_neverBoth (w : World) :
  (currentRound w = None
   \/ exists round,
        currentRound w = Some round
        /\ forall k p,
             In (k, p) (RoundState.positions round) ->
             PlayerPosition.liquidated p = false
             /\ PlayerPosition.didShoot p = false
             /\ PlayerPosition.currentPnl p = 0) ->
  neverBoth w.
Proof.
  intros [Hnone|(round & Hround & Hfresh)] round' k p Hr Hin.
  - congruence.
  - rewrite Hround in Hr. injection Hr as <-.
    destruct (Hfresh k p Hin) as (-> & _). reflexivity.
Qed.

Lemma step_neverBoth (CONFIG : Config) (w : World) (i : Input) :
  neverBoth w -> neverBoth (snd (step CONFIG w i)).
Proof.
  intros Hinv.
  destruct i as [h env|h clock|priceData|joiner username bet clock
                |shooter roundId clock]; simpl.
  - assert (Hdrop : neverBoth (dropTimeout h w)) by exact Hinv.
    destruct (pendingTimeout h w) as [[|]|]; [| |exact Hinv].
    + destruct (endLobby_round CONFIG env (dropTimeout h w))
        as [Hnone|[Hsame|Hfresh]].
      * apply fresh_neverBoth. now left.
      * eapply sameGame_neverBoth; eassumption.
      * apply fresh_neverBoth. now right.
    + destruct (endRound_round CONFIG "time_expired" (now env)
                  (dropTimeout h w)) as [Hnone|Hsame].
      * apply fresh_neverBoth. now left.
      * eapply sameGame_neverBoth; eassumption.
  - destruct (existsb _ _); simpl; [|exact Hinv].
    eapply sameGame_neverBoth; [apply lobbyUpdateCallback_sameGame|exact Hinv].
  - destruct (priceUnsubscribe w); [|exact Hinv].
    destruct (String.eqb _ _); simpl; [|exact Hinv].
    now apply handlePriceUpdate_neverBoth.
  - eapply sameGame_neverBoth; [apply joinLobby_sameGame | exact Hinv].
  - now apply shoot_neverBoth.
Qed.

Lemma run_neverBoth (CONFIG : Config) (inputs : list Input) (w : World) :
  neverBoth w -> neverBoth (run CONFIG w inputs).
Proof.
  revert w. induction inputs as [|i inputs IH]; intros w Hinv.
  - exact Hinv.
  - apply (IH (snd (step CONFIG w i))). now apply step_neverBoth.
Qed.

(** C8. Once a position is liquidated or shot, no sequence of ticks and
    commands of the round changes it again (its [currentPnl] included) and
    no later shot at it succeeds; and in every state the process can reach,
    no position has both [liquidated] and [didShoot]. *)
Theorem terminal_positions_are_final (CONFIG : Config) :
  (forall w playerId position inputs,
      positionOf playerId w = Some position ->
      terminal position = true ->
      forallb withinRound inputs = true ->
      let later := run CONFIG w inputs in
      positionOf playerId later = Some position
      /\ forall roundId clock,
           exists e, shoot playerId roundId clock later = (Thrown e, later))
  /\ (forall clock inputs,
        neverBoth
          (run CONFIG (initialize CONFIG clock (constructor CONFIG clock))
             inputs)).
Proof.
  split.
  - intros w playerId position inputs Hpos Hterm Hin. cbv zeta.
    destruct (run_keeps_terminal CONFIG inputs w playerId position Hin Hpos
                Hterm) as (Hpos' & _).
    split; [exact Hpos'|]. intros roundId clock.
    now apply (shoot_terminal_fails _ _ _ _ position).
  - intros clock inputs. apply run_neverBoth.
    intros round k p Hr. discriminate.
Qed.

Lemma terminal_positions_are_final_witness :
  let later :=
    run default_CONFIG sampleLiquidated
      [PriceTick (sampleTick 90); Shoot "a" "round-1" 30000%Z;
       PriceTick (sampleTick 110)] in
  positionOf "a" later = positionOf "a" sampleLiquidated
  /\ exists e, shoot "a" "round-1" 31000%Z later = (Thrown e, later).
Proof.
  destruct (terminal_positions_are_final default_CONFIG) as [Hfinal _].
  pose proof (Hfinal sampleLiquidated "a"%string) as H.
  specialize (H _ [PriceTick (sampleTick 90); Shoot "a" "round-1" 30000%Z;
                   PriceTick (sampleTick 110)] eq_refl eq_refl eq_refl).
  destruct H as [Hpos Hshoot]. split.
  - rewrite Hpos. reflexivity.
  - apply Hshoot.
Defined.

(** ** The periodic lobby broadcast *)

Lemma quiet_refl (w : World) : quiet w w.
Proof. exists []. now rewrite app_nil_r. Qed.

Lemma quiet_trans (a b c : World) : quiet a b -> quiet b c -> quiet a c.
Proof.
  intros (e1 & H1 & Q1) (e2 & H2 & Q2). exists (e1 ++ e2).
  rewrite H2, H1, app_assoc, existsb_app, Q1, Q2. tauto.
Qed.

Lemma quiet_db (w : World) (d : Prisma.t) : quiet w (with_db d w).
Proof. exists []. simpl. now rewrite app_nil_r. Qed.

Lemma quiet_emit (w : World) (e : Event) :
  ~ is_lobby_update e = true -> quiet w (emit e w).
Proof.
  intros H. exists [e]. split; [reflexivity|]. simpl.
  destruct (is_lobby_update e); [contradiction | reflexivity].
Qed.

Lemma quiet_startLobby (CONFIG : Config) (clock : Z) (w : World) :
  quiet w (startLobby CONFIG clock w).
Proof. eexists [_]. split; reflexivity. Qed.

Ltac quiet_modify :=
  first [ apply quiet_refl
        | apply quiet_db
        | exists []; simpl; rewrite app_nil_r; split; reflexivity
        | apply quiet_startLobby
        | apply quiet_emit; cbn; discriminate
        | eexists [_]; split; reflexivity ].

Lemma quiet_frames :
  (forall w, quiet w w)
  /\ (forall a b c, quiet a b -> quiet b c -> quiet a c)
  /\ (forall w d, quiet w (with_db d w)).
Proof. split; [exact quiet_refl | split; [exact quiet_trans | exact quiet_db]]. Qed.

Lemma joinLobby_quiet (CONFIG : Config) (playerId username : string)
    (betAmount : Q) (clock : Z) :
  keeps quiet (joinLobby CONFIG playerId username betAmount clock).
Proof.
  destruct quiet_frames as (Hrefl & Htrans & Hdb).
  unfold joinLobby. repeat keeps_step; quiet_modify.
Qed.

Lemma shoot_quiet (playerId roundId : string) (clock : Z) :
  keeps quiet (shoot playerId roundId clock).
Proof.
  destruct quiet_frames as (Hrefl & Htrans & Hdb).
  unfold shoot. repeat keeps_step; quiet_modify.
Qed.

Lemma endLobby_quiet (CONFIG : Config) (env : Env) :
  keeps quiet (endLobby CONFIG env).
Proof.
  destruct quiet_frames as (Hrefl & Htrans & Hdb).
  unfold endLobby, startRound. repeat keeps_step; quiet_modify.
Qed.

Lemma endRound_quiet (CONFIG : Config) (reason : string) (clock : Z) :
  keeps quiet (endRound CONFIG reason clock).
Proof.
  destruct quiet_frames as (Hrefl & Htrans & Hdb).
  unfold endRound. repeat keeps_step; quiet_modify.
Qed.

Lemma handlePriceUpdate_quiet (priceData : PriceData.t) (w : World) :
  quiet w (handlePriceUpdate priceData w).
Proof.
  unfold handlePriceUpdate.
  destruct (phase w); [apply quiet_refl|].
  destruct (currentRound w) as [round|]; [|apply quiet_refl].
  pose proof (keeps_updatePositions quiet quiet_refl quiet_trans quiet_db
                quiet_emit round (PriceData.price priceData)
                (JsMap.entries (RoundState.positions round)) w) as H.
  destruct (updatePositions _ _ _ w) as [positions w1]. simpl in H.
  eapply quiet_trans; [exact H|].
  eexists [_]. split; reflexivity.
Qed.

Lemma quiet_emittedBy (CONFIG : Config) (w : World) (i : Input) :
  quiet w (snd (step CONFIG w i)) ->
  existsb is_lobby_update (emittedBy CONFIG w i) = false.
Proof.
  intros (events & Hlog & Hquiet). unfold emittedBy.
  rewrite Hlog, skipn_app, skipn_all, Nat.sub_diag. exact Hquiet.
Qed.

Lemma step_quiet (CONFIG : Config) (w : World) (i : Input) :
  (forall h clock, i = IntervalFires h clock ->
     ~ (In h (intervals w) /\ phase w = LOBBY)) ->
  quiet w (snd (step CONFIG w i)).
Proof.
  intros Hi.
  destruct i as [h env|h clock|priceData|joiner username bet clock
                |shooter roundId clock]; simpl.
  - destruct (pendingTimeout h w) as [[|]|]; [| |apply quiet_refl].
    + apply (quiet_trans _ (dropTimeout h w));
        [quiet_modify | apply endLobby_quiet].
    + apply (quiet_trans _ (dropTimeout h w));
        [quiet_modify | apply endRound_quiet].
  - destruct (existsb (Nat.eqb h) (intervals w)) eqn:Hlive; simpl;
      [|apply quiet_refl].
    unfold lobbyUpdateCallback.
    destruct (GamePhase_eqb (phase w) LOBBY) eqn:Hphase; simpl;
      [|quiet_modify].
    exfalso. apply (Hi h clock eq_refl). split.
    + apply existsb_exists in Hlive as (x & Hin & Heq).
      apply Nat.eqb_eq in Heq. now subst.
    + now destruct (phase w).
  - destruct (priceUnsubscribe w); [|apply quiet_refl].
    destruct (String.eqb _ _); simpl; [|apply quiet_refl].
    apply handlePriceUpdate_quiet.
  - apply joinLobby_quiet.
  - apply shoot_quiet.
Qed.

Lemma timersGrow_refl (w : World) : timersGrow w w.
Proof. split; [lia | auto]. Qed.

Lemma timersGrow_trans (a b c : World) :
  timersGrow a b -> timersGrow b c -> timersGrow a c.
Proof.
  intros [Hab Iab] [Hbc Ibc]. split; [lia|].
  intros h Hin. destruct (Ibc h Hin) as [Hb|Hb]; [|right; lia].
  destruct (Iab h Hb); [now left | right; lia].
Qed.

Lemma timersGrow_db (w : World) (d : Prisma.t) : timersGrow w (with_db d w).
Proof. split; simpl; [lia | auto]. Qed.

Lemma timersGrow_emit (w : World) (e : Event) : timersGrow w (emit e w).
Proof. split; simpl; [lia | auto]. Qed.

Lemma timersGrow_startLobby (CONFIG : Config) (clock : Z) (w : World) :
  timersGrow w (startLobby CONFIG clock w).
Proof.
  split; simpl; [lia|]. intros h Hin.
  apply in_app_or in Hin as [Hin|[<-|[]]]; [now left | right; lia].
Qed.

Ltac timers_modify :=
  first [ apply timersGrow_refl
        | apply timersGrow_startLobby
        | split; simpl; [lia | auto] ].

Lemma timersGrow_frames :
  (forall w, timersGrow w w)
  /\ (forall a b c, timersGrow a b -> timersGrow b c -> timersGrow a c)
  /\ (forall w d, timersGrow w (with_db d w)).
Proof.
  split; [exact timersGrow_refl
         | split; [exact timersGrow_trans | exact timersGrow_db]].
Qed.

Lemma joinLobby_timers (CONFIG : Config) (playerId username : string)
    (betAmount : Q) (clock : Z) :
  keeps timersGrow (joinLobby CONFIG playerId username betAmount clock).
Proof.
  destruct timersGrow_frames as (Hrefl & Htrans & Hdb).
  unfold joinLobby. repeat keeps_step; timers_modify.
Qed.

Lemma shoot_timers (playerId roundId : string) (clock : Z) :
  keeps timersGrow (shoot playerId roundId clock).
Proof.
  destruct timersGrow_frames as (Hrefl & Htrans & Hdb).
  unfold shoot. repeat keeps_step; timers_modify.
Qed.

Lemma endLobby_timers (CONFIG : Config) (env : Env) :
  keeps timersGrow (endLobby CONFIG env).
Proof.
  destruct timersGrow_frames as (Hrefl & Htrans & Hdb).
  unfold endLobby, startRound. repeat keeps_step; timers_modify.
Qed.

Lemma endRound_timers (CONFIG : Config) (reason : string) (clock : Z) :
  keeps timersGrow (endRound CONFIG reason clock).
Proof.
  destruct timersGrow_frames as (Hrefl & Htrans & Hdb).
  unfold endRound. repeat keeps_step; timers_modify.
Qed.

Lemma handlePriceUpdate_timers (priceData : PriceData.t) (w : World) :
  timersGrow w (handlePriceUpdate priceData w).
Proof.
  unfold handlePriceUpdate.
  destruct (phase w); [apply timersGrow_refl|].
  destruct (currentRound w) as [round|]; [|apply timersGrow_refl].
  pose proof (keeps_updatePositions timersGrow timersGrow_refl
                timersGrow_trans timersGrow_db
                (fun w e _ => timersGrow_emit w e)
                round (PriceData.price priceData)
                (JsMap.entries (RoundState.positions round)) w) as H.
  destruct (updatePositions _ _ _ w) as [positions w1]. simpl in H.
  eapply timersGrow_trans; [exact H|]. timers_modify.
Qed.

Lemma lobbyUpdateCallback_timers (h : nat) (clock : Z) (w : World) :
  timersGrow w (lobbyUpdateCallback h clock w).
Proof.
  unfold lobbyUpdateCallback. destruct (negb _); [|apply timersGrow_emit].
  split; simpl; [lia|]. intros x Hin. apply filter_In in Hin. tauto.
Qed.

Lemma step_timers (CONFIG : Config) (w : World) (i : Input) :
  timersGrow w (snd (step CONFIG w i)).
Proof.
  destruct i as [h env|h clock|priceData|joiner username bet clock
                |shooter roundId clock]; simpl.
  - destruct (pendingTimeout h w) as [[|]|]; [| |apply timersGrow_refl].
    + apply (timersGrow_trans _ (dropTimeout h w));
        [timers_modify | apply endLobby_timers].
    + apply (timersGrow_trans _ (dropTimeout h w));
        [timers_modify | apply endRound_timers].
  - destruct (existsb _ _); simpl; [|apply timersGrow_refl].
    apply lobbyUpdateCallback_timers.
  - destruct (priceUnsubscribe w); [|apply timersGrow_refl].
    destruct (String.eqb _ _); simpl; [|apply timersGrow_refl].
    apply handlePriceUpdate_timers.
  - apply joinLobby_timers.
  - apply shoot_timers.
Qed.

Lemma run_timers (CONFIG : Config) (inputs : list Input) (w : World) :
  timersGrow w (run CONFIG w inputs).
Proof.
  revert w. induction inputs as [|i inputs IH]; intros w.
  - apply timersGrow_refl.
  - eapply timersGrow_trans; [apply (step_timers CONFIG w i)|]. apply IH.
Qed.

Lemma timersGrow_allocated (w w' : World) :
  timersGrow w w' -> handlesAllocated w -> handlesAllocated w'.
Proof.
  intros [Hle Hin] Hw h Hh. destruct (Hin h Hh) as [Hold|Hnew]; [|lia].
  specialize (Hw h Hold). lia.
Qed.

Lemma reached_allocated (CONFIG : Config) (clock : Z)
    (history : list Input) :
  handlesAllocated (reached CONFIG clock history).
Proof.
  unfold reached. eapply timersGrow_allocated; [apply run_timers|].
  intros h [<-|[]]. simpl. lia.
Qed.

Lemma cancelled_stays_cancelled (CONFIG : Config) (w : World) (h : nat)
    (inputs : list Input) :
  (h < nextHandle w)%nat ->
  ~ In h (intervals w) ->
  ~ In h (intervals (run CONFIG w inputs)).
Proof.
  intros Hlt Hout Hin.
  destruct (run_timers CONFIG inputs w) as [_ Hgrow].
  destruct (Hgrow h Hin); [contradiction | lia].
Qed.

(** C2.  The code breaks the claim: when the lobby timer expires on an
    empty roster a new lobby starts, and the interval of the lobby it
    replaces (handle 1) finds the phase LOBBY again, so that its own check
    does not cancel it: it still broadcasts, although the interval of the
    current lobby is handle 3. *)
Lemma stale_interval_still_broadcasts :
  ~ broadcastOwnedByCurrentLobby default_CONFIG.
Proof.
  intros H.
  destruct (H 0%Z [TimeoutFires 0 (idleEnv 20000%Z)] 1%nat 21000%Z eq_refl)
    as [_ Howner].
  discriminate Howner.
Qed.

(** X24.  In every state the process reaches: an input that makes the
    manager emit [lobby:update] is a live broadcast interval coming due
    while the phase is LOBBY; and a live interval that comes due while the
    phase is not LOBBY emits nothing, is cancelled, and is never live
    again. *)
Theorem lobby_update_only_in_LOBBY (CONFIG : Config) (clock0 : Z)
    (history : list Input) :
  let w := reached CONFIG clock0 history in
  (forall i,
      existsb is_lobby_update (emittedBy CONFIG w i) = true ->
      phase w = LOBBY
      /\ exists h clock, i = IntervalFires h clock /\ In h (intervals w))
  /\ (forall h clock,
        In h (intervals w) ->
        phase w <> LOBBY ->
        let w' := snd (step CONFIG w (IntervalFires h clock)) in
        emitted w' = emitted w
        /\ phase w' = phase w
        /\ forall inputs, ~ In h (intervals (run CONFIG w' inputs))).
Proof.
  cbv zeta. split.
  - intros i Hloud.
    destruct i as [h env|h clock|priceData|joiner username bet clock
                  |shooter roundId clock];
      try (rewrite quiet_emittedBy in Hloud;
           [discriminate | apply step_quiet; discriminate]).
    destruct (phase (reached CONFIG clock0 history)) eqn:Hphase.
    + split; [reflexivity|]. exists h, clock. split; [reflexivity|].
      destruct (in_dec Nat.eq_dec h
                  (intervals (reached CONFIG clock0 history))) as [Hin|Hout];
        [exact Hin|].
      rewrite quiet_emittedBy in Hloud; [discriminate|].
      apply step_quiet. intros h0 clock1 [= <- <-]. tauto.
    + rewrite quiet_emittedBy in Hloud; [discriminate|].
      apply step_quiet. intros h0 clock1 _ [_ Hl]. congruence.
  - intros h clock Hlive Hphase.
    pose proof (reached_allocated CONFIG clock0 history h Hlive) as Hlt.
    assert (Hex : existsb (Nat.eqb h)
                    (intervals (reached CONFIG clock0 history)) = true).
    { apply existsb_exists. exists h. split; [exact Hlive|].
      apply Nat.eqb_refl. }
    simpl. rewrite Hex. simpl. unfold lobbyUpdateCallback.
    destruct (phase (reached CONFIG clock0 history)) eqn:Hp;
      [contradiction|].
    simpl.
    split; [reflexivity|]. split; [exact Hp|]. intros inputs.
    apply cancelled_stays_cancelled.
    + exact Hlt.
    + simpl. intros Hin. apply filter_In in Hin as [_ Hne].
      rewrite Nat.eqb_refl in Hne. discriminate.
Qed.

Lemma lobby_update_only_in_LOBBY_witness :
  let w :=
    reached default_CONFIG 0%Z
      [JoinLobby "a" "alice" 10 5%Z;
       TimeoutFires 0 (sampleEnv 20000%Z 100)] in
  let w' := snd (step default_CONFIG w (IntervalFires 1 20500%Z)) in
  phase w = ROUND
  /\ emitted w' = emitted w
  /\ ~ In 1%nat
       (intervals
          (run default_CONFIG w'
             [TimeoutFires 2 (idleEnv 50000%Z); IntervalFires 1 51000%Z])).
Proof.
  cbv zeta.
  destruct (lobby_update_only_in_LOBBY default_CONFIG 0%Z
              [JoinLobby "a" "alice" 10 5%Z;
               TimeoutFires 0 (sampleEnv 20000%Z 100)]) as [_ Hcancel].
  assert (Hlive : In 1%nat
            (intervals
               (reached default_CONFIG 0%Z
                  [JoinLobby "a" "alice" 10 5%Z;
                   TimeoutFires 0 (sampleEnv 20000%Z 100)])))
    by (left; reflexivity).
  assert (Hphase : phase
            (reached default_CONFIG 0%Z
               [JoinLobby "a" "alice" 10 5%Z;
                TimeoutFires 0 (sampleEnv 20000%Z 100)]) <> LOBBY)
    by discriminate.
  destruct (Hcancel 1%nat 20500%Z Hlive Hphase) as (Hlog & _ & Hgone).
  split; [reflexivity|]. split; [exact Hlog|]. apply Hgone.
Defined.

(** ** Settlement of a position that was shot *)

Lemma player_update_found (playerId : string)
    (data : Prisma.PlayerRow -> Prisma.PlayerRow) (d : Prisma.t)
    (row : Prisma.PlayerRow) :
  Prisma.player_findUnique playerId d = Some row ->
  (forall r, Prisma.id (data r) = Prisma.id r) ->
  exists d',
    Prisma.player_update playerId data d = Some d'
    /\ Prisma.player_findUnique playerId d' = Some (data row)
    /\ Prisma.round d' = Prisma.round d.
Proof.
  unfold Prisma.player_update, Prisma.player_findUnique.
  intros Hfind Hid. rewrite Hfind. eexists. split; [reflexivity|].
  split; [|reflexivity]. simpl.
  induction (Prisma.player d) as [|r rows IH]; simpl in *; [discriminate|].
  destruct (String.eqb (Prisma.id r) playerId) eqn:E.
  - injection Hfind as ->. simpl. now rewrite Hid, E.
  - simpl. rewrite E. now apply IH.
Qed.

(** What [shoot] writes to the player row. *)
Lemma shoot_credits (playerId roundId : string) (clock : Z) (w : World)
    (position : PlayerPosition.t) (row : Prisma.PlayerRow) :
  fst (shoot playerId roundId clock w) = Done tt ->
  positionOf playerId w = Some position ->
  Prisma.player_findUnique playerId (db w) = Some row ->
  exists row',
    Prisma.player_findUnique playerId
      (db (snd (shoot playerId roundId clock w))) = Some row'
    /\ Prisma.demoBalance row'
       = Prisma.demoBalance row
         + calculatePayout (PlayerPosition.betAmount position)
             (PlayerPosition.currentPnl position) true false
    /\ Prisma.totalPnl row'
       = Prisma.totalPnl row + PlayerPosition.currentPnl position.
Proof.
  intros Hok Hpos Hrow.
  destruct (shoot_success _ _ _ _ Hok)
    as (p & Hpos' & Hterm & Hphase & Hid & _).
  rewrite Hpos in Hpos'. injection Hpos' as <-.
  unfold terminal in Hterm. apply orb_false_iff in Hterm as [Hliq Hshot].
  unfold positionOf, roundIdOf in *.
  destruct (currentRound w) as [round|] eqn:Hround; [|discriminate].
  simpl in Hid. injection Hid as Hid.
  unfold shoot. unfold_op. rewrite Hphase, Hround, Hid, String.eqb_refl.
  cbn [negb]. rewrite Hpos, Hshot, Hliq. cbn [fst snd].
  match goal with
  | |- context [Prisma.player_update ?k ?f ?d] =>
      destruct (player_update_found k f d row) as (d' & -> & Hfound & _);
        [exact Hrow | reflexivity |]
  end.
  simpl. eexists. split; [exact Hfound|]. split; reflexivity.
Qed.

(** What [endRound] writes to the player row of a round whose only
    position was shot: the payout and the P&L, once more. *)
Lemma endRound_credits_shot (CONFIG : Config) (reason : string) (clock : Z)
    (w : World) (round : RoundState.t) (playerId : string)
    (position : PlayerPosition.t) (row : Prisma.PlayerRow) :
  phase w = ROUND ->
  currentRound w = Some round ->
  RoundState.positions round = [(playerId, position)] ->
  PlayerPosition.didShoot position = true ->
  PlayerPosition.liquidated position = false ->
  Prisma.player_findUnique playerId (db w) = Some row ->
  exists row',
    Prisma.player_findUnique playerId
      (db (snd (endRound CONFIG reason clock w))) = Some row'
    /\ Prisma.demoBalance row'
       = Prisma.demoBalance row
         + calculatePayout (PlayerPosition.betAmount position)
             (PlayerPosition.currentPnl position) true false
    /\ Prisma.totalPnl row'
       = Prisma.totalPnl row + PlayerPosition.currentPnl position.
Proof.
  intros Hphase Hround Hpositions Hshot Hliq Hrow.
  unfold endRound. unfold_op. rewrite Hphase, Hround. cbn [fst snd].
  unfold JsMap.entries. rewrite Hpositions. simpl. unfold_op.
  rewrite Hshot, Hliq. simpl.
  match goal with
  | |- context [Prisma.player_update ?k ?f ?d] =>
      destruct (player_update_found k f d row) as (d' & -> & Hfound & _);
        [exact Hrow | reflexivity |]
  end.
  simpl.
  match goal with
  | |- context [Prisma.round_update ?k ?f ?d] =>
      unfold Prisma.round_update; destruct (existsb _ (Prisma.round d))
  end; simpl; eexists; (split; [exact Hfound|]); split; reflexivity.
Qed.

(** C1 is not what the code does.  In a round with one position, a
    successful [shoot] credits the player row with the payout and the P&L
    of the frozen position, and [endRound], settling the same position,
    adds the same payout and the same P&L to the row a second time. *)
Theorem shot_position_is_credited_twice (CONFIG : Config)
    (playerId roundId reason : string) (clock clock' : Z) (w : World)
    (round : RoundState.t) (position : PlayerPosition.t)
    (row : Prisma.PlayerRow) :
  currentRound w = Some round ->
  RoundState.positions round = [(playerId, position)] ->
  Prisma.player_findUnique playerId (db w) = Some row ->
  fst (shoot playerId roundId clock w) = Done tt ->
  let payout :=
    calculatePayout (PlayerPosition.betAmount position)
      (PlayerPosition.currentPnl position) true false in
  let pnl := PlayerPosition.currentPnl position in
  let shot := snd (shoot playerId roundId clock w) in
  let settled := snd (endRound CONFIG reason clock' shot) in
  exists row1 row2,
    Prisma.player_findUnique playerId (db shot) = Some row1
    /\ Prisma.demoBalance row1 = Prisma.demoBalance row + payout
    /\ Prisma.totalPnl row1 = Prisma.totalPnl row + pnl
    /\ Prisma.player_findUnique playerId (db settled) = Some row2
    /\ Prisma.demoBalance row2 = Prisma.demoBalance row + payout + payout
    /\ Prisma.totalPnl row2 = Prisma.totalPnl row + pnl + pnl.
Proof.
  intros Hround Hpositions Hrow Hok. cbv zeta.
  assert (Hpos : positionOf playerId w = Some position).
  { unfold positionOf. rewrite Hround, Hpositions. simpl.
    now rewrite String.eqb_refl. }
  destruct (shoot_credits _ _ _ _ position row Hok Hpos Hrow)
    as (row1 & Hrow1 & Hbal1 & Hpnl1).
  destruct (shoot_success _ _ _ _ Hok)
    as (p & Hpos' & Hterm & _ & _ & _ & Hphase1 & _).
  rewrite Hpos in Hpos'. injection Hpos' as <-.
  unfold terminal in Hterm. apply orb_false_iff in Hterm as [Hliq Hshot].
  destruct (shoot_gameState playerId roundId clock w)
    as [[Hfail _]|(round0 & p & _ & Hround0 & _ & Hget & _ & _ & Hgs)].
  { rewrite Hok in Hfail. discriminate. }
  rewrite Hround in Hround0. injection Hround0 as <-.
  rewrite Hpositions in Hget, Hgs. simpl in Hget, Hgs.
  rewrite String.eqb_refl in Hget, Hgs. injection Hget as <-.
  destruct (endRound_credits_shot CONFIG reason clock'
              (snd (shoot playerId roundId clock w))
              (RoundState.with_positions
                 [(playerId, shotPosition clock position)] round)
              playerId (shotPosition clock position) row1)
    as (row2 & Hrow2 & Hbal2 & Hpnl2);
    try reflexivity; try assumption.
  - unfold currentRound. rewrite Hgs. reflexivity.
  - exists row1, row2. simpl in Hbal2, Hpnl2.
    rewrite Hbal2, Hpnl2, Hbal1, Hpnl1.
    repeat (split; [assumption || reflexivity|]). reflexivity.
Qed.

Lemma shot_position_is_credited_twice_witness :
  exists before after,
    balanceOf "a" sampleTicked = Some before
    /\ balanceOf "a"
         (snd (endRound default_CONFIG "time_expired" 50000%Z
                 (snd (shoot "a" "round-1" 21000%Z sampleTicked))))
       = Some after
    /\ before == 90
    /\ after == 90 + 15 + 15.
Proof.
  pose proof (shot_position_is_credited_twice default_CONFIG "a" "round-1"
                "time_expired" 21000%Z 50000%Z sampleTicked) as H.
  specialize (H _ _ _ eq_refl eq_refl eq_refl eq_refl).
  destruct H as (row1 & row2 & _ & _ & _ & Hrow2 & Hbal2 & _).
  eexists. exists (Prisma.demoBalance row2).
  split; [reflexivity|]. split; [|split].
  - unfold balanceOf. rewrite Hrow2. reflexivity.
  - reflexivity.
  - rewrite Hbal2. reflexivity.
Defined.

(** ** [selectRandomPair] *)

Lemma sortInsert_perm {A : Type} (compare : A -> A -> Q) (x : A)
    (l : list A) :
  Permutation (x :: l) (sortInsert compare x l).
Proof.
  induction l as [|y l IH]; simpl.
  - apply Permutation_refl.
  - destruct (Qle_bool (compare x y) 0).
    + apply Permutation_refl.
    + rewrite perm_swap. now apply perm_skip.
Qed.

Lemma sort_perm {A : Type} (compare : A -> A -> Q) (l : list A) :
  Permutation l (sort compare l).
Proof.
  unfold sort. induction l as [|x l IH]; simpl.
  - apply Permutation_refl.
  - rewrite <- sortInsert_perm. now apply perm_skip.
Qed.

Lemma sortInsert_descending (x : VolatilityData.t)
    (l : list VolatilityData.t) :
  descending l -> descending (sortInsert byVolatilityDesc x l).
Proof.
  induction l as [|y l IH]; simpl.
  - intros _. split; [intros ? [] | exact I].
  - intros [Hy Hl].
    destruct (Qle_bool (byVolatilityDesc x y) 0) eqn:E.
    + apply Qle_bool_iff in E. unfold byVolatilityDesc in E.
      simpl. split; [|split; assumption].
      intros z [<-|Hz]; [lra|]. specialize (Hy z Hz). lra.
    + assert (Hlt : VolatilityData.volatility x
                    < VolatilityData.volatility y).
      { destruct (Qlt_le_dec (VolatilityData.volatility x)
                    (VolatilityData.volatility y)) as [H|H]; [exact H|].
        assert (Hle : byVolatilityDesc x y <= 0)
          by (unfold byVolatilityDesc; lra).
        apply Qle_bool_iff in Hle. congruence. }
      simpl. split; [|now apply IH].
      intros z Hz.
      apply (Permutation_in z (Permutation_sym
                                 (sortInsert_perm byVolatilityDesc x l)))
        in Hz.
      destruct Hz as [<-|Hz]; [lra | now apply Hy].
Qed.

Lemma sort_descending (l : list VolatilityData.t) :
  descending (sort byVolatilityDesc l).
Proof.
  unfold sort. induction l as [|x l IH]; simpl.
  - exact I.
  - now apply sortInsert_descending.
Qed.

Lemma countAbove_perm (v : Q) (l l' : list VolatilityData.t) :
  Permutation l l' -> countAbove v l = countAbove v l'.
Proof.
  unfold countAbove. induction 1; simpl.
  - reflexivity.
  - destruct (Qlt_bool v (VolatilityData.volatility x)); simpl; congruence.
  - destruct (Qlt_bool v (VolatilityData.volatility x)),
             (Qlt_bool v (VolatilityData.volatility y)); reflexivity.
  - congruence.
Qed.

Lemma countAbove_le_length (v : Q) (l : list VolatilityData.t) :
  (countAbove v l <= List.length l)%nat.
Proof. unfold countAbove. apply filter_length_le. Qed.

Lemma countAbove_descending_tail (d : VolatilityData.t)
    (l : list VolatilityData.t) :
  descending (d :: l) ->
  countAbove (VolatilityData.volatility d) (d :: l) = 0%nat.
Proof.
  intros [Hd _]. unfold countAbove.
  assert (Hnone : forall x, In x (d :: l) ->
            Qlt_bool (VolatilityData.volatility d)
              (VolatilityData.volatility x) = false).
  { intros x Hx. destruct (Qlt_bool _ _) eqn:E; [|reflexivity].
    apply Qlt_bool_iff in E. destruct Hx as [<-|Hx]; [lra|].
    specialize (Hd x Hx). lra. }
  induction (d :: l) as [|x r IH]; simpl; [reflexivity|].
  rewrite Hnone by now left. apply IH. intros y Hy. apply Hnone. now right.
Qed.

Lemma descending_app_r (l1 l2 : list VolatilityData.t) :
  descending (l1 ++ l2) -> descending l2.
Proof.
  induction l1 as [|x l1 IH]; simpl; [auto|]. intros [_ H]. now apply IH.
Qed.

Lemma at_index_Some {A : Type} (l : list A) (index : Z) (a : A) :
  at_index l index = Some a -> nth_error l (Z.to_nat index) = Some a.
Proof. unfold at_index. destruct (index <? 0)%Z; [discriminate | auto]. Qed.

Lemma topSlice_pos (n : nat) : (1 <= topSlice n)%nat.
Proof. unfold topSlice. lia. Qed.

(** X4. [selectRandomPair] answers null for an empty list; for a
    non-empty one and a random number in [0, 1) it answers a pair; and
    every pair it answers belongs to a candidate that fewer than
    [max(1, ceil(0.3 n))] candidates exceed in volatility. *)
Theorem selectRandomPair_top_slice (volatilityData : list VolatilityData.t)
    (random : Q) :
  (volatilityData = [] -> selectRandomPair volatilityData random = None)
  /\ (volatilityData <> [] -> 0 <= random < 1 ->
      exists p, selectRandomPair volatilityData random = Some p)
  /\ (forall p,
        selectRandomPair volatilityData random = Some p ->
        exists d,
          In d volatilityData
          /\ VolatilityData.pair d = p
          /\ (countAbove (VolatilityData.volatility d) volatilityData
              < topSlice (List.length volatilityData))%nat).
Proof.
  pose proof (sort_perm byVolatilityDesc volatilityData) as Hperm.
  pose proof (Permutation_length Hperm) as Hlen.
  pose proof (sort_descending volatilityData) as Hdesc.
  unfold selectRandomPair. cbv zeta. fold (topSlice (List.length
    (sort byVolatilityDesc volatilityData))). rewrite <- Hlen.
  split; [intros ->; reflexivity|]. split.
  - intros Hne [Hr0 Hr1].
    destruct volatilityData as [|d0 rest]; [contradiction|].
    change (Nat.eqb (List.length (d0 :: rest)) 0) with false. cbv iota.
    set (sorted := sort byVolatilityDesc (d0 :: rest)) in *.
    set (top := firstn (topSlice (List.length (d0 :: rest))) sorted).
    assert (Htop : (1 <= List.length top)%nat).
    { unfold top. rewrite length_firstn, <- Hlen.
      pose proof (topSlice_pos (List.length (d0 :: rest))). simpl in *. lia. }
    set (n := inject_Z (Z.of_nat (List.length top))).
    assert (Hn : 1 <= n).
    { unfold n. change 1 with (inject_Z 1). rewrite <- Zle_Qle. lia. }
    assert (Hlo : (0 <= Qfloor (random * n))%Z).
    { rewrite <- (Qfloor_Z 0) at 1. apply Qfloor_resp_le.
      change (inject_Z 0) with 0. nra. }
    assert (Hhi : (Qfloor (random * n) < Z.of_nat (List.length top))%Z).
    { rewrite Zlt_Qlt. apply Qle_lt_trans with (random * n).
      - apply Qfloor_le.
      - fold n. nra. }
    unfold at_index.
    destruct (Z.ltb_spec (Qfloor (random * n)) 0); [lia|].
    destruct (nth_error top (Z.to_nat (Qfloor (random * n)))) as [d|] eqn:E.
    + simpl. eauto.
    + apply nth_error_None in E. lia.
  - intros p Hsel.
    destruct (Nat.eqb (List.length volatilityData) 0); [discriminate|].
    set (sorted := sort byVolatilityDesc volatilityData) in *.
    set (k := topSlice (List.length volatilityData)) in *.
    destruct (at_index (firstn k sorted) _) as [d|] eqn:E; [|discriminate].
    injection Hsel as <-.
    apply at_index_Some in E.
    set (i := Z.to_nat _) in E.
    assert (Hi : (i < k)%nat).
    { assert (Hsome : nth_error (firstn k sorted) i <> None) by congruence.
      apply nth_error_Some in Hsome. rewrite length_firstn in Hsome. lia. }
    rewrite nth_error_firstn in E.
    destruct (Nat.ltb_spec i k); [|lia].
    apply nth_error_split in E as (l1 & l2 & Hsplit & Hl1).
    exists d. split; [|split; [reflexivity|]].
    + apply (Permutation_in d (Permutation_sym Hperm)).
      fold sorted. rewrite Hsplit. apply in_or_app. right. now left.
    + rewrite (countAbove_perm _ _ _ Hperm). fold sorted. rewrite Hsplit.
      fold sorted in Hdesc. rewrite Hsplit in Hdesc.
      apply descending_app_r in Hdesc.
      unfold countAbove. rewrite filter_app, length_app.
      fold (countAbove (VolatilityData.volatility d) l1).
      fold (countAbove (VolatilityData.volatility d) (d :: l2)).
      rewrite (countAbove_descending_tail d l2 Hdesc).
      pose proof (countAbove_le_length (VolatilityData.volatility d) l1).
      lia.
Qed.

Lemma selectRandomPair_top_slice_witness :
  selectRandomPair [] (1 # 2) = None
  /\ (exists p, selectRandomPair sampleCandidates (1 # 2) = Some p)
  /\ selectRandomPair sampleCandidates (1 # 2) = Some "DDD"%string
  /\ exists d,
       In d sampleCandidates
       /\ VolatilityData.pair d = "DDD"%string
       /\ (countAbove (VolatilityData.volatility d) sampleCandidates < 2)%nat.
Proof.
  destruct (selectRandomPair_top_slice [] (1 # 2)) as (Hnil & _ & _).
  destruct (selectRandomPair_top_slice sampleCandidates (1 # 2))
    as (_ & Hsome & Htop).
  split; [apply Hnil; reflexivity|].
  split; [apply Hsome; [discriminate | split; [discriminate | reflexivity]]|].
  split; [reflexivity|].
  apply (Htop "DDD"%string). reflexivity.
Defined.

(** ** [generateRandomDuration] *)

Lemma Math_round_near (x : Q) :
  x - (1 # 2) < inject_Z (Math_round x) /\ inject_Z (Math_round x) <= x + (1 # 2).
Proof.
  unfold Math_round.
  pose proof (Qfloor_le (x + (1 # 2))) as Hle.
  pose proof (Qlt_floor (x + (1 # 2))) as Hlt.
  rewrite inject_Z_plus in Hlt. change (inject_Z 1) with 1 in Hlt.
  split; lra.
Qed.

Lemma Math_round_between (x : Q) (a b : Z) :
  inject_Z a <= x -> x <= inject_Z b ->
  (a <= Math_round x <= b)%Z.
Proof.
  intros Ha Hb. unfold Math_round. split.
  - rewrite <- (Qfloor_Z a). apply Qfloor_resp_le. lra.
  - assert (H : (Qfloor (x + (1 # 2)) < b + 1)%Z); [|lia].
    rewrite Zlt_Qlt, inject_Z_plus. change (inject_Z 1) with 1.
    pose proof (Qfloor_le (x + (1 # 2))). lra.
Qed.

(** X5. For a positive leverage, a random number in [0, 1] and a minimum
    not above the adjusted maximum [min(max * 500 / leverage, max * 5)],
    the generated duration is a whole number of hundredths within half a
    hundredth of the interval from the minimum to the adjusted maximum, and
    inside that interval when its two ends are whole hundredths. *)
Theorem generateRandomDuration_bounds
    (leverage minSeconds maxSeconds random : Q) :
  0 < leverage ->
  0 <= random <= 1 ->
  let adjustedMax := Qmin (maxSeconds * (500 / leverage)) (maxSeconds * 5) in
  minSeconds <= adjustedMax ->
  let duration :=
    generateRandomDuration leverage minSeconds maxSeconds random in
  (exists hundredths, duration == inject_Z hundredths / 100)
  /\ minSeconds - (1 # 200) <= duration <= adjustedMax + (1 # 200)
  /\ duration <= maxSeconds * 5 + (1 # 200)
  /\ (forall a b,
        minSeconds * 100 == inject_Z a ->
        adjustedMax * 100 == inject_Z b ->
        minSeconds <= duration <= adjustedMax).
Proof.
  intros _ [Hr0 Hr1] adjustedMax Hmin duration.
  unfold duration, generateRandomDuration. cbv zeta. fold adjustedMax.
  set (raw := minSeconds + random * (adjustedMax - minSeconds)).
  assert (Hraw : minSeconds <= raw <= adjustedMax) by (unfold raw; nra).
  destruct (Math_round_near (raw * 100)) as [Hlo Hhi].
  set (z := Math_round (raw * 100)) in *.
  assert (Hcap : adjustedMax <= maxSeconds * 5) by apply Q.le_min_r.
  assert (Hdiv : inject_Z z / 100 == inject_Z z * (1 # 100)) by (field).
  split; [exists z; reflexivity|].
  split; [rewrite Hdiv; lra|].
  split; [rewrite Hdiv; lra|].
  intros a b Ha Hb.
  destruct (Math_round_between (raw * 100) a b) as [Hza Hzb];
    [lra | lra |]. fold z in Hza, Hzb.
  rewrite Zle_Qle in Hza, Hzb. rewrite Hdiv. lra.
Qed.

Lemma generateRandomDuration_bounds_witness :
  10 <= generateRandomDuration 500 10 120 (1 # 3) <= 120.
Proof.
  assert (Hl : 0 < 500) by reflexivity.
  assert (Hr : 0 <= 1 # 3 <= 1) by (split; discriminate).
  assert (Hmin : 10 <= Qmin (120 * (500 / 500)) (120 * 5)) by discriminate.
  destruct (generateRandomDuration_bounds 500 10 120 (1 # 3) Hl Hr Hmin)
    as (_ & _ & _ & Hin).
  apply (Hin 1000%Z 12000%Z); reflexivity.
Defined.

(** ** [weightedRandomSelection] *)

Section WeightedSelection.

Import Floats.
Local Open Scope float_scope.

Lemma remainder_cons (w : float) (weights : list float) (random : float)
    (n : nat) :
  Double.remainder (w :: weights) random (S n)
  = Double.remainder weights (random - w) n.
Proof. reflexivity. Qed.

Lemma weightedLoop_first {T : Type} (items : list T)
    (weights : list float) (random : float) :
  List.length items = List.length weights ->
  match Double.weightedLoop items weights random with
  | Some item =>
      exists i,
        nth_error items i = Some item
        /\ (Double.remainder weights random (S i) <=? 0) = true
        /\ forall j, (j < i)%nat ->
             (Double.remainder weights random (S j) <=? 0) = false
  | None =>
      forall j, (j < List.length items)%nat ->
        (Double.remainder weights random (S j) <=? 0) = false
  end.
Proof.
  revert weights random. induction items as [|x items IH];
    intros weights random Hlen; simpl.
  - intros j Hj. lia.
  - destruct weights as [|w weights]; [discriminate|].
    injection Hlen as Hlen.
    destruct (random - w <=? 0) eqn:E.
    + exists 0%nat. split; [reflexivity|]. split; [exact E|].
      intros j Hj. lia.
    + specialize (IH weights (random - w) Hlen).
      destruct (Double.weightedLoop items weights (random - w)) as [item|].
      * destruct IH as (i & Hnth & Hle & Hbefore). exists (S i).
        split; [exact Hnth|]. split; [now rewrite remainder_cons|].
        intros [|j] Hj; [exact E|].
        rewrite remainder_cons. apply Hbefore. lia.
      * intros [|j] Hj; [exact E|].
        rewrite remainder_cons. apply IH. lia.
Qed.

(** X6. On doubles, as the code computes: [weightedRandomSelection] answers
    null exactly when there are no items or the two lists differ in length,
    and otherwise one of the items: the first at which what is left of
    [random * totalWeight], after the weights up to it have been subtracted
    one by one, is at most 0, and the last item when that happens at
    none. *)
Theorem weightedRandomSelection_first_exhausted {T : Type}
    (items : list T) (weights : list float) (random : float) :
  let total := fold_left (fun sum w => sum + w) weights 0 in
  let rest := Double.remainder weights (random * total) in
  (Double.weightedRandomSelection items weights random = None <->
     items = [] \/ List.length items <> List.length weights)
  /\ (forall item,
        Double.weightedRandomSelection items weights random = Some item ->
        In item items)
  /\ (forall item,
        Double.weightedRandomSelection items weights random = Some item ->
        exists i,
          nth_error items i = Some item
          /\ (forall j, (j < i)%nat -> (rest (S j) <=? 0) = false)
          /\ ((rest (S i) <=? 0) = true
              \/ (S i = List.length items /\ (rest (S i) <=? 0) = false))).
Proof.
  cbv zeta. unfold Double.weightedRandomSelection. cbv zeta.
  set (total := fold_left (fun sum w => sum + w) weights 0).
  destruct items as [|x items].
  { simpl. split; [tauto|]. split; intros; discriminate. }
  change (Nat.eqb (List.length (x :: items)) 0) with false. cbn [orb].
  destruct (Nat.eqb_spec (List.length (x :: items)) (List.length weights))
    as [Hlen|Hlen]; cbn [negb].
  2:{ split; [split; [intros _; now right | reflexivity]|].
      split; intros; discriminate. }
  pose proof (weightedLoop_first (x :: items) weights (random * total) Hlen)
    as Hloop.
  destruct (Double.weightedLoop (x :: items) weights (random * total))
    as [found|] eqn:E.
  - destruct Hloop as (i & Hnth & Hle & Hbefore).
    split; [split; [discriminate | intros [H|H]; [discriminate | tauto]]|].
    split.
    + intros item [= <-]. eapply nth_error_In. exact Hnth.
    + intros item [= <-]. exists i. split; [exact Hnth|].
      split; [exact Hbefore | now left].
  - assert (Hlast : exists last,
              nth_error (x :: items) (List.length (x :: items) - 1)
              = Some last).
    { destruct (nth_error (x :: items) (List.length (x :: items) - 1)) eqn:N;
        [eauto|]. apply nth_error_None in N. simpl in N. lia. }
    destruct Hlast as (last & Hlast). rewrite Hlast.
    split; [split; [discriminate | intros [H|H]; [discriminate | tauto]]|].
    split.
    + intros item [= <-]. eapply nth_error_In. exact Hlast.
    + intros item [= <-]. exists (List.length (x :: items) - 1)%nat.
      split; [exact Hlast|]. split.
      * intros j Hj. apply Hloop. simpl in *. lia.
      * right. split; [simpl; lia|]. apply Hloop. simpl. lia.
Qed.

(** With the weights 0.1, 0.2 and 0.3 and the random number 0.5, what is
    left after the second weight is a rounding error above 0: the third item
    is answered. *)
Lemma weightedRandomSelection_first_exhausted_witness :
  Double.weightedRandomSelection ["a"; "b"; "c"]%string
    [1 / 10; 2 / 10; 3 / 10] (1 / 2) = Some "c"%string
  /\ In "c"%string ["a"; "b"; "c"]%string.
Proof.
  split; [reflexivity|].
  destruct (weightedRandomSelection_first_exhausted ["a"; "b"; "c"]%string
              [1 / 10; 2 / 10; 3 / 10] (1 / 2)) as (_ & Hin & _).
  apply Hin. reflexivity.
Defined.

End WeightedSelection.

(** ** What each handler does to the control state *)

Lemma sameControl_refl (w : World) : sameControl w w.
Proof. unfold sameControl. now destruct w. Qed.

Lemma sameControl_trans (a b c : World) :
  sameControl a b -> sameControl b c -> sameControl a c.
Proof. unfold sameControl. intros Hab ->. rewrite Hab. reflexivity. Qed.

Lemma sameControl_db (w : World) (d : Prisma.t) : sameControl w (with_db d w).
Proof. reflexivity. Qed.

Lemma sameControl_emit (w : World) (e : Event) : sameControl w (emit e w).
Proof. reflexivity. Qed.

Lemma createPositions_sameControl (roundId : string) (entryPrice : Q)
    (assignments : list (string * Side))
    (positions : JsMap.t PlayerPosition.t) (w : World) :
  sameControl w
    (snd (createPositions roundId entryPrice assignments positions w)).
Proof.
  apply keeps_createPositions;
    [exact sameControl_refl | exact sameControl_trans | exact sameControl_db].
Qed.

Lemma settlePositions_sameControl (round : RoundState.t) (finalPrice : Q)
    (entries : list (string * PlayerPosition.t))
    (payouts : list (string * Q * Q * bool)) (w : World) :
  sameControl w (snd (settlePositions round finalPrice entries payouts w)).
Proof.
  apply keeps_settlePositions;
    [exact sameControl_refl | exact sameControl_trans | exact sameControl_db].
Qed.

Lemma updatePositions_sameControl (round : RoundState.t) (price : Q)
    (entries : list (string * PlayerPosition.t)) (w : World) :
  sameControl w (snd (updatePositions round price entries w)).
Proof.
  apply keeps_updatePositions;
    [exact sameControl_refl | exact sameControl_trans | exact sameControl_db
    | intros ? ? _; apply sameControl_emit].
Qed.

(** [startRound]: a new lobby when no price arrives; nothing but database
    writes when a write fails; otherwise the round. *)
Lemma startRound_shape (CONFIG : Config) (selected : string) (env : Env)
    (w : World) :
  let result := fst (startRound CONFIG selected env w) in
  let w' := snd (startRound CONFIG selected env w) in
  (priceSample env = None /\ result = Done tt
   /\ w' = startLobby CONFIG (now env) w)
  \/ (is_Done result = false /\ sameControl w w')
  \/ (exists priceData positions w1,
        priceSample env = Some priceData
        /\ result = Done tt
        /\ createPositions (newRoundId env) (PriceData.price priceData)
             (assignRandomPositions (sortRandom env)
                (JsMap.keys (lobbyPlayers w)))
             JsMap.empty
             (with_db (Prisma.round_create
                         (Prisma.mkRound (newRoundId env) selected
                            (PriceData.price priceData)
                            (DEFAULT_LEVERAGE CONFIG) (randomDuration env)
                            (now env) Prisma.active None None) (db w)) w)
           = (Done positions, w1)
        /\ db w' = Prisma.lobbyEntry_deleteMany
                     (JsMap.keys (lobbyPlayers w)) (db w1)
        /\ w' = mkWorld
                  (GameState.mk ROUND
                     (Some (RoundState.mk (newRoundId env) selected
                              (PriceData.price priceData)
                              (PriceData.price priceData)
                              (DEFAULT_LEVERAGE CONFIG) (now env) None
                              (randomDuration env)
                              (sumBets (JsMap.values (lobbyPlayers w)))
                              positions))
                     (GameState.lobbyStartTime (gameState w))
                     (GameState.lobbyEndTime (gameState w)))
                  JsMap.empty (lobbyTimer w) (Some (nextHandle w))
                  (Some selected)
                  (timeouts w ++ [(nextHandle w, endRound_cb)])
                  (intervals w) (lobbyInterval w) (S (nextHandle w))
                  (db w') (emitted w')).
Proof.
  cbv zeta. unfold startRound.
  destruct (priceSample env) as [priceData|]; [|left; tauto].
  right. unfold_op. cbn [fst snd]. unfold JsMap.entries.
  match goal with
  | |- context [createPositions ?r ?e ?a ?p ?w0] =>
      pose proof (createPositions_sameControl r e a p w0) as Hsame;
      destruct (createPositions r e a p w0) as [[positions|e'] w1] eqn:E
  end; cbn [fst snd] in *.
  - right. exists priceData, positions, w1.
    split; [first [assumption | reflexivity]|]. split; [first [assumption | reflexivity]|]. split; [exact E|].
    split; [first [assumption | reflexivity]|].
    rewrite Hsame. reflexivity.
  - left. split; [first [assumption | reflexivity]|]. exact Hsame.
Qed.

(** [endRound]: nothing outside a round; the subscription dropped and
    database writes when a write fails; otherwise a new lobby on top of
    that. *)
Lemma endRound_shape (CONFIG : Config) (reason : string) (clock : Z)
    (w : World) :
  let result := fst (endRound CONFIG reason clock w) in
  let w' := snd (endRound CONFIG reason clock w) in
  ((phase w <> ROUND \/ currentRound w = None)
   /\ result = Done tt /\ w' = w)
  \/ (exists round,
        phase w = ROUND /\ currentRound w = Some round
        /\ is_Done result = false
        /\ sameControl (with_priceUnsubscribe None w) w')
  \/ (exists round payouts w1 w2,
        phase w = ROUND /\ currentRound w = Some round
        /\ result = Done tt
        /\ settlePositions round (RoundState.currentPrice round)
             (RoundState.positions round) [] (with_priceUnsubscribe None w)
           = (Done payouts, w1)
        /\ sameControl w1 w2
        /\ Prisma.player (db w2) = Prisma.player (db w1)
        /\ w' = startLobby CONFIG clock w2).
Proof.
  cbv zeta. unfold endRound. unfold_op.
  destruct (phase w) eqn:Hphase.
  { left. split; [left; discriminate | tauto]. }
  destruct (currentRound w) as [round|] eqn:Hround.
  2:{ left. split; [now right | tauto]. }
  right. cbn [fst snd]. unfold JsMap.entries.
  match goal with
  | |- context [settlePositions ?r ?f ?e ?p ?w0] =>
      pose proof (settlePositions_sameControl r f e p w0) as Hsame;
      destruct (settlePositions r f e p w0) as [[payouts|e'] w1] eqn:E
  end; cbn [fst snd] in *.
  - unfold Prisma.round_update.
    destruct (existsb _ (Prisma.round (db w1))); cbn [option_map fst snd].
    + right. exists round, payouts, w1. eexists.
      split; [first [assumption | reflexivity]|]. split; [first [assumption | reflexivity]|]. split; [first [assumption | reflexivity]|].
      split; [exact E|].
      refine (conj _ (conj _ _)); cycle 2.
      * reflexivity.
      * eapply sameControl_trans;
          [apply sameControl_db | apply sameControl_emit].
      * reflexivity.
    + left. exists round. repeat (split; [first [assumption | reflexivity]|]). exact Hsame.
  - left. exists round. repeat (split; [first [assumption | reflexivity]|]). exact Hsame.
Qed.

Lemma endLobby_shape (CONFIG : Config) (env : Env) (w : World) :
  let result := fst (endLobby CONFIG env w) in
  let w' := snd (endLobby CONFIG env w) in
  ((lobbyPlayers w = [] \/ selectedPair env = None)
   /\ result = Done tt /\ w' = startLobby CONFIG (now env) w)
  \/ (exists selected,
        lobbyPlayers w <> [] /\ selectedPair env = Some selected
        /\ result = fst (startRound CONFIG selected env w)
        /\ w' = snd (startRound CONFIG selected env w)).
Proof.
  cbv zeta. unfold endLobby. unfold_op. unfold JsMap.size.
  destruct (lobbyPlayers w) as [|entry roster] eqn:Hroster; simpl.
  { left. tauto. }
  destruct (selectedPair env) as [selected|].
  - right. exists selected. repeat split. discriminate.
  - left. tauto.
Qed.

(** [joinLobby]: database writes at most when it throws before the roster
    write; one more roster entry, checked against the minimum and the
    balance, when it returns or [lobbyEntry.create] is refused. *)
Lemma joinLobby_shape (CONFIG : Config) (playerId username : string)
    (betAmount : Q) (clock : Z) (w : World) :
  let result := fst (joinLobby CONFIG playerId username betAmount clock w) in
  let w' := snd (joinLobby CONFIG playerId username betAmount clock w) in
  (is_Done result = false /\ sameControl w w')
  \/ (exists player d,
        (result = Done tt \/ result = Thrown PrismaError)
        /\ phase w = LOBBY
        /\ ~ In playerId (JsMap.keys (lobbyPlayers w))
        /\ MIN_BET_AMOUNT CONFIG <= betAmount
        /\ betAmount <= Prisma.demoBalance player
        /\ Prisma.player_upsert username playerId
             (DEFAULT_DEMO_BALANCE CONFIG) (db w) = Some (player, d)
        /\ Prisma.player (db w') = Prisma.player d
        /\ sameControl
             (with_lobbyPlayers
                (lobbyPlayers w
                   ++ [(playerId,
                        LobbyPlayer.mk playerId username betAmount
                          (Prisma.demoBalance player) clock)]) w) w').
Proof.
  cbv zeta. unfold joinLobby. unfold_op.
  destruct (GamePhase_eqb (phase w) LOBBY) eqn:Hphase; cbn [negb];
    [|left; split; [reflexivity | apply sameControl_refl]].
  destruct (Qlt_bool betAmount (MIN_BET_AMOUNT CONFIG)) eqn:Hmin;
    [left; split; [reflexivity | apply sameControl_refl]|].
  destruct (JsMap.has playerId (lobbyPlayers w)) eqn:Hhas;
    [left; split; [reflexivity | apply sameControl_refl]|].
  destruct (Prisma.player_upsert username playerId
              (DEFAULT_DEMO_BALANCE CONFIG) (db w)) as [[player d]|] eqn:Hup;
    [|left; split; [reflexivity | apply sameControl_refl]].
  destruct (Qlt_bool (Prisma.demoBalance player) betAmount) eqn:Hbal;
    cbn [fst snd]; [left; split; [reflexivity | apply sameControl_db]|].
  right. exists player, d.
  apply JsMap_has_false_iff in Hhas.
  cbn [db with_db with_lobbyPlayers].
  rewrite JsMap_set_fresh by exact Hhas.
  assert (Hplayers : forall row d',
            Prisma.lobbyEntry_create row d = Some d' ->
            Prisma.player d' = Prisma.player d).
  { intros row d'. unfold Prisma.lobbyEntry_create.
    destruct (Prisma.lobbyEntryConstraint d row (Prisma.lobbyEntry d));
      [|discriminate]. now intros [= <-]. }
  destruct (Prisma.lobbyEntry_create
              (Prisma.mkLobbyEntry playerId betAmount) d) as [d'|] eqn:Hcreate;
    cbn [option_map fst snd];
    [specialize (Hplayers _ _ Hcreate) | clear Hplayers].
  all: split; [first [now left | now right]|].
  all: split; [now destruct (phase w)|].
  all: split; [exact Hhas|].
  all: split;
    [destruct (Qlt_le_dec betAmount (MIN_BET_AMOUNT CONFIG)) as [H|H];
       [apply Qlt_bool_iff in H; congruence | exact H]|].
  all: split;
    [destruct (Qlt_le_dec (Prisma.demoBalance player) betAmount) as [H|H];
       [apply Qlt_bool_iff in H; congruence | exact H]|].
  all: split; [reflexivity|]. all: split; [|reflexivity].
  - exact Hplayers.
  - reflexivity.
Qed.

Lemma shoot_shape (playerId roundId : string) (clock : Z) (w : World) :
  let w' := snd (shoot playerId roundId clock w) in
  w' = w
  \/ (exists round position,
        phase w = ROUND
        /\ currentRound w = Some round
        /\ JsMap.get playerId (RoundState.positions round) = Some position
        /\ sameControl
             (with_gameState
                (GameState.with_currentRound
                   (Some (RoundState.with_positions
                            (JsMap.set playerId (shotPosition clock position)
                               (RoundState.positions round)) round))
                   (gameState w)) w) w').
Proof.
  cbv zeta. unfold shoot. unfold_op.
  destruct (phase w) eqn:Hphase; [left; reflexivity|].
  destruct (currentRound w) as [round|] eqn:Hround; [|left; reflexivity].
  destruct (negb _); [left; reflexivity|].
  destruct (JsMap.get playerId (RoundState.positions round))
    as [position|] eqn:Hget; [|left; reflexivity].
  destruct (PlayerPosition.didShoot position); [left; reflexivity|].
  destruct (PlayerPosition.liquidated position); [left; reflexivity|].
  right. exists round, position.
  split; [first [assumption | reflexivity]|]. split; [first [assumption | reflexivity]|]. split; [first [assumption | reflexivity]|].
  cbn [fst snd].
  match goal with
  | |- context [option_map _ ?u] => destruct u
  end; reflexivity.
Qed.

Lemma handlePriceUpdate_shape (priceData : PriceData.t) (w : World) :
  let w' := handlePriceUpdate priceData w in
  w' = w
  \/ (exists round,
        phase w = ROUND
        /\ currentRound w = Some round
        /\ sameControl
             (with_gameState
                (GameState.with_currentRound
                   (Some (RoundState.with_positions
                            (fst (updatePositions round
                                    (PriceData.price priceData)
                                    (RoundState.positions round) w))
                            (RoundState.with_currentPrice
                               (PriceData.price priceData) round)))
                   (gameState w)) w) w').
Proof.
  cbv zeta. unfold handlePriceUpdate.
  destruct (phase w) eqn:Hphase; [left; reflexivity|].
  destruct (currentRound w) as [round|] eqn:Hround; [|left; reflexivity].
  right. exists round. split; [first [assumption | reflexivity]|]. split; [first [assumption | reflexivity]|].
  unfold JsMap.entries.
  pose proof (updatePositions_sameControl round (PriceData.price priceData)
                (RoundState.positions round) w) as Hsame.
  destruct (updatePositions _ _ _ w) as [positions w1]. cbn [fst snd] in *.
  rewrite Hsame. reflexivity.
Qed.

(** ** Life cycle: phase, round, timers and subscription *)

Lemma lifecycle_view (w : World) :
  lifecycle w <->
  let '(ph, pr, roster, pending, lt, rt, sub) := controlView w in
  ((ph = ROUND <-> pr <> None) /\ (ph = ROUND -> roster = []))
  /\ (pending = []
      \/ (exists h, pending = [(h, endLobby_cb)] /\ ph = LOBBY /\ lt = Some h)
      \/ (exists h, pending = [(h, endRound_cb)] /\ ph = ROUND /\ rt = Some h
                    /\ exists p, pr = Some p /\ sub = Some p))
  /\ (forall s, sub = Some s -> ph = ROUND /\ pr = Some s).
Proof.
  unfold lifecycle, phaseMatchesRound, timersMatchPhase,
    subscriptionMatchesRound, controlView.
  destruct (currentRound w) as [round|]; simpl.
  - split.
    + intros ((Hp & Hr) & Ht & Hs). split; [|split].
      * split; [|exact Hr]. split; intros H; [discriminate|].
        apply Hp. discriminate.
      * destruct Ht as [Ht|[Ht|(h & H1 & H2 & H3 & r & [= <-] & H5)]];
          [now left | right; now left |].
        right. right. exists h. repeat (split; [assumption|]). eauto.
      * intros s Hsub. destruct (Hs s Hsub) as (H1 & r & [= <-] & <-).
        tauto.
    + intros ((Hp & Hr) & Ht & Hs). split; [|split].
      * split; [|exact Hr]. split; intros H; [discriminate|].
        apply Hp. discriminate.
      * destruct Ht as [Ht|[Ht|(h & H1 & H2 & H3 & p & [= <-] & H5)]];
          [now left | right; now left |].
        right. right. exists h. repeat (split; [assumption|]). eauto.
      * intros s Hsub. destruct (Hs s Hsub) as (H1 & [= <-]). eauto.
  - split.
    + intros ((Hp & Hr) & Ht & Hs). split; [|split].
      * split; [|exact Hr]. split; intros H; [|contradiction].
        apply Hp in H. contradiction.
      * destruct Ht as [Ht|[Ht|(h & _ & _ & _ & r & Hr' & _)]];
          [now left | right; now left | discriminate].
      * intros s Hsub. destruct (Hs s Hsub) as (_ & r & Hr' & _).
        discriminate.
    + intros ((Hp & Hr) & Ht & Hs). split; [|split].
      * split; [|exact Hr]. split; intros H; [|contradiction].
        apply Hp in H. contradiction.
      * destruct Ht as [Ht|[Ht|(h & _ & _ & _ & p & Hp' & _)]];
          [now left | right; now left | discriminate].
      * intros s Hsub. destruct (Hs s Hsub) as (_ & Hp'). discriminate.
Qed.

Lemma lifecycle_ext (w w' : World) :
  controlView w' = controlView w -> lifecycle w -> lifecycle w'.
Proof.
  intros Hview H. apply lifecycle_view. apply lifecycle_view in H.
  now rewrite Hview.
Qed.

Lemma sameControl_view (w w' : World) :
  sameControl w w' -> controlView w' = controlView w.
Proof. unfold sameControl. intros ->. reflexivity. Qed.

Lemma lifecycle_startLobby (CONFIG : Config) (clock : Z) (w : World) :
  priceUnsubscribe w = None -> timeouts w = [] ->
  lifecycle (startLobby CONFIG clock w).
Proof.
  intros Hsub Hpending. apply lifecycle_view. simpl.
  rewrite Hsub, Hpending. simpl.
  split; [split; [split; [discriminate | intros H; contradiction]
                 | discriminate]|].
  split; [|discriminate].
  right. left. eauto.
Qed.

Lemma pendingTimeout_lifecycle (w : World) (h : nat) (cb : TimeoutCallback) :
  lifecycle w ->
  pendingTimeout h w = Some cb ->
  timeouts w = [(h, cb)] /\ timeouts (dropTimeout h w) = [].
Proof.
  intros (_ & Ht & _) Hp. unfold pendingTimeout in Hp.
  destruct Ht as [Ht|[(h0 & Ht & _)|(h0 & Ht & _)]]; rewrite Ht in Hp;
    simpl in Hp; try discriminate;
    destruct (Nat.eqb_spec h0 h) as [->|]; try discriminate;
    injection Hp as <-; unfold dropTimeout; simpl; rewrite Ht; simpl;
    rewrite Nat.eqb_refl; auto.
Qed.

Lemma dropTimeout_view (h : nat) (w : World) :
  timeouts (dropTimeout h w) = [] ->
  controlView (dropTimeout h w)
  = (phase w, option_map RoundState.pair (currentRound w), lobbyPlayers w,
     [], lobbyTimer w, roundTimer w, priceUnsubscribe w).
Proof. unfold controlView. intros ->. reflexivity. Qed.

Ltac view_of_record :=
  unfold controlView, phase, currentRound;
  cbn [gameState lobbyPlayers timeouts lobbyTimer roundTimer
       priceUnsubscribe GameState.phase GameState.currentRound
       RoundState.pair option_map].

Lemma step_lifecycle (CONFIG : Config) (w : World) (i : Input) :
  lifecycle w -> lifecycle (snd (step CONFIG w i)).
Proof.
  intros Hinv.
  destruct i as [h env|h clock|priceData|joiner username bet clock
                |shooter roundId clock]; simpl.
  - destruct (pendingTimeout h w) as [cb|] eqn:Hp; [|exact Hinv].
    destruct (pendingTimeout_lifecycle w h cb Hinv Hp) as [Hone Hnone].
    pose proof Hinv as ((Hphase & Hroster) & Htimers & Hsub).
    unfold timersMatchPhase, subscriptionMatchesRound in Htimers, Hsub.
    assert (Hcb : (cb = endLobby_cb /\ phase w = LOBBY)
                  \/ (cb = endRound_cb /\ phase w = ROUND)).
    { rewrite Hone in Htimers.
      destruct Htimers as [H|[(h0 & [= <- <-] & H & _)
                             |(h0 & [= <- <-] & H & _)]];
        [discriminate | now left | now right]. }
    destruct Hcb as [[-> Hlobby]|[-> Hround]].
    + assert (Hnosub : priceUnsubscribe w = None).
      { destruct (priceUnsubscribe w) as [s|] eqn:E; [|reflexivity].
        destruct (Hsub s eq_refl) as [H _]. congruence. }
      destruct (endLobby_shape CONFIG env (dropTimeout h w))
        as [(_ & _ & ->)|(selected & _ & _ & _ & ->)].
      { now apply lifecycle_startLobby. }
      destruct (startRound_shape CONFIG selected env (dropTimeout h w))
        as [(_ & _ & ->)|[(_ & Hsame)
                        |(pd & positions & w1 & _ & _ & _ & _ & ->)]].
      * now apply lifecycle_startLobby.
      * apply lifecycle_view.
        rewrite (sameControl_view _ _ Hsame), (dropTimeout_view _ _ Hnone).
        apply lifecycle_view in Hinv. unfold controlView in Hinv.
        rewrite Hone in Hinv. destruct Hinv as (H1 & _ & H3). tauto.
      * apply lifecycle_view. view_of_record. rewrite Hnone. simpl.
        split; [split; [split; [discriminate | reflexivity] | reflexivity]|].
        split; [|intros s [= <-]; tauto].
        right. right. eauto 10.
    + destruct (endRound_shape CONFIG "time_expired" (now env)
                  (dropTimeout h w))
        as [(_ & _ & ->)
           |[(round & _ & _ & _ & Hsame)
            |(round & payouts & w1 & w2 & _ & _ & _ & Hsettle & Hsame2 & _
              & ->)]].
      * apply lifecycle_view. rewrite (dropTimeout_view _ _ Hnone).
        apply lifecycle_view in Hinv. unfold controlView in Hinv.
        rewrite Hone in Hinv. destruct Hinv as (H1 & _ & H3). tauto.
      * apply lifecycle_view. rewrite (sameControl_view _ _ Hsame).
        assert (Hview : controlView
                          (with_priceUnsubscribe None (dropTimeout h w))
                        = (phase w,
                           option_map RoundState.pair (currentRound w),
                           lobbyPlayers w, [], lobbyTimer w, roundTimer w,
                           None)).
        { unfold controlView, phase, currentRound.
          cbn [with_priceUnsubscribe gameState lobbyPlayers timeouts
               lobbyTimer roundTimer priceUnsubscribe].
          rewrite Hnone. reflexivity. }
        rewrite Hview.
        apply lifecycle_view in Hinv. unfold controlView in Hinv.
        rewrite Hone in Hinv. destruct Hinv as (H1 & _ & H3).
        split; [exact H1|]. split; [now left | discriminate].
      * pose proof (settlePositions_sameControl round
                      (RoundState.currentPrice round)
                      (RoundState.positions round) []
                      (with_priceUnsubscribe None (dropTimeout h w)))
          as Hsame1.
        rewrite Hsettle in Hsame1. simpl in Hsame1.
        pose proof (sameControl_trans _ _ _ Hsame1 Hsame2) as Hsame.
        apply lifecycle_startLobby.
        -- rewrite Hsame. reflexivity.
        -- rewrite Hsame. simpl. exact Hnone.
  - destruct (existsb _ _); simpl; [|exact Hinv].
    apply (lifecycle_ext w); [|exact Hinv].
    unfold lobbyUpdateCallback. destruct (negb _); reflexivity.
  - destruct (priceUnsubscribe w); [|exact Hinv].
    destruct (String.eqb _ _); simpl; [|exact Hinv].
    destruct (handlePriceUpdate_shape priceData w)
      as [->|(round & Hphase & Hround & Hsame)]; [exact Hinv|].
    apply (lifecycle_ext w); [|exact Hinv].
    rewrite (sameControl_view _ _ Hsame). unfold controlView, phase,
      currentRound in *. simpl. rewrite Hround. reflexivity.
  - destruct (joinLobby_shape CONFIG joiner username bet clock w)
      as [(_ & Hsame)|(player & d & _ & Hphase & _ & _ & _ & _ & _ & Hsame)].
    + apply (lifecycle_ext w); [|exact Hinv]. now apply sameControl_view.
    + apply lifecycle_view. rewrite (sameControl_view _ _ Hsame).
      apply lifecycle_view in Hinv.
      unfold controlView, phase, currentRound in *.
      cbn [with_lobbyPlayers gameState lobbyPlayers timeouts lobbyTimer
           roundTimer priceUnsubscribe].
      rewrite Hphase in *.
      destruct Hinv as ((H1 & _) & H2 & H3).
      split; [split; [exact H1 | discriminate]|]. split; assumption.
  - destruct (shoot_shape shooter roundId clock w)
      as [->|(round & position & Hphase & Hround & _ & Hsame)];
      [exact Hinv|].
    apply (lifecycle_ext w); [|exact Hinv].
    rewrite (sameControl_view _ _ Hsame). unfold controlView, phase,
      currentRound in *. simpl. rewrite Hround. reflexivity.
Qed.

Lemma reached_lifecycle (CONFIG : Config) (clock : Z)
    (history : list Input) :
  lifecycle (reached CONFIG clock history).
Proof.
  unfold reached, run.
  assert (Hinit : lifecycle
            (initialize CONFIG clock (constructor CONFIG clock)))
    by (apply lifecycle_startLobby; reflexivity).
  revert Hinit. generalize (initialize CONFIG clock (constructor CONFIG clock)).
  induction history as [|i history IH]; intros w Hinv; simpl.
  - exact Hinv.
  - apply IH. now apply step_lifecycle.
Qed.

(** X7. In every state the process reaches, the phase is ROUND exactly
    when a round is present, and LOBBY exactly when none is. *)
Theorem reached_phase_matches_round (CONFIG : Config) (clock : Z)
    (history : list Input) :
  let w := reached CONFIG clock history in
  (phase w = ROUND <-> currentRound w <> None)
  /\ (phase w = LOBBY <-> currentRound w = None).
Proof.
  cbv zeta.
  destruct (reached_lifecycle CONFIG clock history) as ((Hround & _) & _).
  split; [exact Hround|].
  destruct (phase (reached CONFIG clock history)) eqn:Hphase;
    destruct (currentRound (reached CONFIG clock history)) eqn:Hcurrent;
    split; intros H; try reflexivity; try discriminate.
  - exfalso. assert (Hsome : Some t <> None) by discriminate.
    apply Hround in Hsome. discriminate.
  - exfalso. now apply (proj1 Hround).
Qed.

(** X9. In every state the process reaches, a subscription held by the
    manager is for the pair of the round in progress; while the phase is
    LOBBY no subscription is held and a tick of any pair leaves the state
    as it is. *)
Theorem reached_subscription_matches_round (CONFIG : Config) (clock : Z)
    (history : list Input) :
  let w := reached CONFIG clock history in
  subscriptionMatchesRound w
  /\ (phase w = LOBBY ->
      priceUnsubscribe w = None
      /\ forall priceData,
           step CONFIG w (PriceTick priceData) = (Done tt, w)).
Proof.
  cbv zeta.
  destruct (reached_lifecycle CONFIG clock history) as (_ & _ & Hs).
  split; [exact Hs|]. intros Hphase.
  assert (Hnone : priceUnsubscribe (reached CONFIG clock history) = None).
  { destruct (priceUnsubscribe _) as [s|] eqn:E; [|reflexivity].
    destruct (Hs s E) as [H _]. congruence. }
  split; [exact Hnone|]. intros priceData. simpl. now rewrite Hnone.
Qed.

Lemma reached_subscription_matches_round_witness :
  step default_CONFIG sampleLobby1 (PriceTick (sampleTick 90))
  = (Done tt, sampleLobby1).
Proof.
  destruct (reached_subscription_matches_round default_CONFIG 0%Z
              [JoinLobby "a" "alice" 10 5%Z]) as [_ Hlobby].
  destruct (Hlobby eq_refl) as [_ Htick].
  exact (Htick (sampleTick 90)).
Defined.

(** ** One entry per player: the roster and the positions *)

Lemma JsMap_In_set_key {V : Type} (k k' : string) (v v' : V)
    (m : JsMap.t V) :
  In (k', v') (JsMap.set k v m) ->
  In (k', v') m \/ (k' = k /\ v' = v).
Proof.
  induction m as [|[k0 v0] m IH]; simpl.
  - intros [[= <- <-]|[]]. now right.
  - destruct (String.eqb_spec k k0) as [->|Hne]; simpl.
    + intros [[= <- <-]|H]; [now right | left; now right].
    + intros [H|H]; [left; now left|].
      destruct (IH H); [left; now right | now right].
Qed.

Lemma JsMap_set_NoDup {V : Type} (k : string) (v : V) (m : JsMap.t V) :
  NoDup (JsMap.keys m) -> NoDup (JsMap.keys (JsMap.set k v m)).
Proof.
  intros Hnd. destruct (in_dec string_dec k (JsMap.keys m)) as [Hin|Hout].
  - now rewrite JsMap_keys_set.
  - rewrite JsMap_set_fresh by exact Hout. unfold JsMap.keys in *.
    rewrite map_app. simpl. apply NoDup_app; [exact Hnd | | ].
    + repeat constructor. intros [].
    + intros x Hx [<-|[]]. contradiction.
Qed.

Lemma JsMap_get_Some_In_keys {V : Type} (k : string) (v : V)
    (m : JsMap.t V) :
  JsMap.get k m = Some v -> In k (JsMap.keys m).
Proof.
  intros H. destruct (in_dec string_dec k (JsMap.keys m)) as [Hin|Hout];
    [exact Hin|].
  apply JsMap_get_None_iff in Hout. congruence.
Qed.

Lemma JsMap_In_get {V : Type} (k : string) (v : V) (m : JsMap.t V) :
  NoDup (JsMap.keys m) -> In (k, v) m -> JsMap.get k m = Some v.
Proof.
  induction m as [|[k0 v0] m IH]; simpl; [contradiction|].
  intros Hnd [[= -> ->]|Hin].
  - now rewrite String.eqb_refl.
  - apply NoDup_cons_iff in Hnd as [Hout Hnd].
    destruct (String.eqb_spec k k0) as [->|Hne]; [|now apply IH].
    exfalso. apply Hout. unfold JsMap.keys.
    apply in_map_iff. exists (k0, v). tauto.
Qed.

Lemma roster_ext (CONFIG : Config) (w w' : World) :
  lobbyPlayers w' = lobbyPlayers w ->
  rosterWellFormed CONFIG w -> rosterWellFormed CONFIG w'.
Proof. unfold rosterWellFormed. now intros ->. Qed.

Lemma roster_empty (CONFIG : Config) (w : World) :
  lobbyPlayers w = [] -> rosterWellFormed CONFIG w.
Proof.
  unfold rosterWellFormed. intros ->. split; [constructor | intros ? ? []].
Qed.

Lemma sameControl_roster (w w' : World) :
  sameControl w w' -> lobbyPlayers w' = lobbyPlayers w.
Proof. unfold sameControl. intros ->. reflexivity. Qed.

Lemma step_roster (CONFIG : Config) (w : World) (i : Input) :
  rosterWellFormed CONFIG w -> rosterWellFormed CONFIG (snd (step CONFIG w i)).
Proof.
  intros Hinv.
  destruct i as [h env|h clock|priceData|joiner username bet clock
                |shooter roundId clock]; simpl.
  - destruct (pendingTimeout h w) as [[|]|]; [| |exact Hinv].
    + destruct (endLobby_shape CONFIG env (dropTimeout h w))
        as [(_ & _ & ->)|(selected & _ & _ & _ & ->)];
        [now apply roster_empty|].
      destruct (startRound_shape CONFIG selected env (dropTimeout h w))
        as [(_ & _ & ->)|[(_ & Hsame)
                        |(pd & positions & w1 & _ & _ & _ & _ & ->)]].
      * now apply roster_empty.
      * apply (roster_ext CONFIG w); [|exact Hinv].
        now rewrite (sameControl_roster _ _ Hsame).
      * now apply roster_empty.
    + destruct (endRound_shape CONFIG "time_expired" (now env)
                  (dropTimeout h w))
        as [(_ & _ & ->)
           |[(round & _ & _ & _ & Hsame)
            |(round & payouts & w1 & w2 & _ & _ & _ & _ & _ & _ & ->)]].
      * exact Hinv.
      * apply (roster_ext CONFIG w); [|exact Hinv].
        now rewrite (sameControl_roster _ _ Hsame).
      * now apply roster_empty.
  - destruct (existsb _ _); simpl; [|exact Hinv].
    apply (roster_ext CONFIG w); [|exact Hinv].
    unfold lobbyUpdateCallback. destruct (negb _); reflexivity.
  - destruct (priceUnsubscribe w); [|exact Hinv].
    destruct (String.eqb _ _); simpl; [|exact Hinv].
    destruct (handlePriceUpdate_shape priceData w)
      as [->|(round & _ & _ & Hsame)]; [exact Hinv|].
    apply (roster_ext CONFIG w); [|exact Hinv].
    now rewrite (sameControl_roster _ _ Hsame).
  - destruct (joinLobby_shape CONFIG joiner username bet clock w)
      as [(_ & Hsame)
         |(player & d & _ & _ & Hfresh & Hmin & Hbal & _ & _ & Hsame)].
    + apply (roster_ext CONFIG w); [|exact Hinv].
      now rewrite (sameControl_roster _ _ Hsame).
    + destruct Hinv as [Hnd Hentries]. unfold rosterWellFormed.
      rewrite (sameControl_roster _ _ Hsame). simpl. split.
      * unfold JsMap.keys in *. rewrite map_app. simpl.
        apply NoDup_app; [exact Hnd | | ].
        -- repeat constructor. intros [].
        -- intros x Hx [<-|[]]. contradiction.
      * intros k entry Hin. apply in_app_or in Hin as [Hin|[[= <- <-]|[]]].
        -- now apply Hentries.
        -- simpl. tauto.
  - destruct (shoot_shape shooter roundId clock w)
      as [->|(round & position & _ & _ & _ & Hsame)]; [exact Hinv|].
    apply (roster_ext CONFIG w); [|exact Hinv].
    now rewrite (sameControl_roster _ _ Hsame).
Qed.

(** X10. In every state the process reaches, the lobby roster has at most
    one entry per player id, every entry is filed under the id it carries,
    its bet is at least the configured minimum and its balance snapshot
    covers the bet. *)
Theorem reached_roster_well_formed (CONFIG : Config) (clock : Z)
    (history : list Input) :
  rosterWellFormed CONFIG (reached CONFIG clock history).
Proof.
  unfold reached, run.
  assert (Hinit : rosterWellFormed CONFIG
            (initialize CONFIG clock (constructor CONFIG clock)))
    by (now apply roster_empty).
  revert Hinit. generalize (initialize CONFIG clock (constructor CONFIG clock)).
  induction history as [|i history IH]; intros w Hinv; simpl.
  - exact Hinv.
  - apply IH. now apply step_roster.
Qed.

Lemma createPositions_wellFormed (roundId : string) (entryPrice : Q)
    (assignments : list (string * Side))
    (positions0 positions : JsMap.t PlayerPosition.t) (w : World) :
  fst (createPositions roundId entryPrice assignments positions0 w)
    = Done positions ->
  NoDup (JsMap.keys positions0) ->
  (forall k p, In (k, p) positions0 ->
     PlayerPosition.playerId p = k
     /\ PlayerPosition.entryPrice p = entryPrice) ->
  NoDup (JsMap.keys positions)
  /\ forall k p, In (k, p) positions ->
       PlayerPosition.playerId p = k
       /\ PlayerPosition.entryPrice p = entryPrice.
Proof.
  revert positions0 w.
  induction assignments as [|[playerId positionType] rest IH];
    intros positions0 w; simpl; unfold_op.
  - intros [= <-]. auto.
  - destruct (JsMap.get playerId (lobbyPlayers w)) as [lobbyPlayer|];
      [|discriminate].
    simpl.
    match goal with
    | |- context [option_map _ ?u] => destruct u; simpl; [|discriminate]
    end.
    intros Hdone Hnd Hentries.
    apply (IH _ _ Hdone).
    + now apply JsMap_set_NoDup.
    + intros k p Hin.
      apply JsMap_In_set_key in Hin as [Hin|[-> ->]];
        [now apply Hentries | simpl; tauto].
Qed.

Lemma updatePositions_keys (round : RoundState.t) (price : Q)
    (entries : list (string * PlayerPosition.t)) (w : World) :
  JsMap.keys (fst (updatePositions round price entries w))
  = JsMap.keys entries.
Proof.
  revert w. induction entries as [|[k p] rest IH]; intros w; simpl.
  - reflexivity.
  - destruct (updatePosition round price k p w) as [p1 w1].
    specialize (IH w1).
    destruct (updatePositions round price rest w1) as [r w2].
    simpl in *. now rewrite IH.
Qed.

Lemma updatePosition_fixed (round : RoundState.t) (price : Q)
    (playerId : string) (position : PlayerPosition.t) (w : World) :
  let p' := fst (updatePosition round price playerId position w) in
  PlayerPosition.playerId p' = PlayerPosition.playerId position
  /\ PlayerPosition.positionType p' = PlayerPosition.positionType position
  /\ PlayerPosition.betAmount p' = PlayerPosition.betAmount position
  /\ PlayerPosition.entryPrice p' = PlayerPosition.entryPrice position
  /\ PlayerPosition.didShoot p' = PlayerPosition.didShoot position
  /\ PlayerPosition.shotAt p' = PlayerPosition.shotAt position
  /\ (PlayerPosition.liquidated position = true ->
      PlayerPosition.liquidated p' = true).
Proof.
  cbv zeta. unfold updatePosition.
  destruct (_ || _); [simpl; tauto|]. cbv zeta.
  destruct (isLiquidated _ _ _ _); simpl; tauto.
Qed.

Lemma positions_ext (w w' : World) :
  currentRound w' = currentRound w ->
  positionsWellFormed w -> positionsWellFormed w'.
Proof. unfold positionsWellFormed. now intros ->. Qed.

Lemma positions_none (w : World) :
  currentRound w = None -> positionsWellFormed w.
Proof. unfold positionsWellFormed. intros -> ? [=]. Qed.

Lemma sameControl_round (w w' : World) :
  sameControl w w' -> currentRound w' = currentRound w.
Proof. unfold sameControl. intros ->. reflexivity. Qed.

Lemma handlePriceUpdate_positions (priceData : PriceData.t) (w : World) :
  positionsWellFormed w -> positionsWellFormed (handlePriceUpdate priceData w).
Proof.
  intros Hinv.
  destruct (handlePriceUpdate_shape priceData w)
    as [->|(round & _ & Hround & Hsame)]; [exact Hinv|].
  destruct (Hinv round Hround) as [Hnd Hentries].
  intros round' Hr. rewrite (sameControl_round _ _ Hsame) in Hr.
  unfold currentRound in Hr. simpl in Hr. injection Hr as <-. simpl.
  split; [now rewrite updatePositions_keys|].
  intros k p' Hin.
  apply updatePositions_In in Hin as (p & w' & Hp & ->).
  destruct (updatePosition_fixed round (PriceData.price priceData) k p w')
    as (-> & _ & _ & -> & _).
  now apply Hentries.
Qed.

Lemma shoot_positions (playerId roundId : string) (clock : Z) (w : World) :
  positionsWellFormed w ->
  positionsWellFormed (snd (shoot playerId roundId clock w)).
Proof.
  intros Hinv.
  destruct (shoot_shape playerId roundId clock w)
    as [->|(round & position & _ & Hround & Hget & Hsame)]; [exact Hinv|].
  destruct (Hinv round Hround) as [Hnd Hentries].
  intros round' Hr. rewrite (sameControl_round _ _ Hsame) in Hr.
  unfold currentRound in Hr. simpl in Hr. injection Hr as <-. simpl.
  split; [now apply JsMap_set_NoDup|].
  intros k p' Hin.
  apply JsMap_In_set_key in Hin as [Hin|[-> ->]]; [now apply Hentries|].
  simpl. apply Hentries. now apply JsMap_get_In.
Qed.

Lemma step_positions (CONFIG : Config) (w : World) (i : Input) :
  positionsWellFormed w -> positionsWellFormed (snd (step CONFIG w i)).
Proof.
  intros Hinv.
  destruct i as [h env|h clock|priceData|joiner username bet clock
                |shooter roundId clock]; simpl.
  - destruct (pendingTimeout h w) as [[|]|]; [| |exact Hinv].
    + destruct (endLobby_shape CONFIG env (dropTimeout h w))
        as [(_ & _ & ->)|(selected & _ & _ & _ & ->)];
        [now apply positions_none|].
      destruct (startRound_shape CONFIG selected env (dropTimeout h w))
        as [(_ & _ & ->)|[(_ & Hsame)
                        |(pd & positions & w1 & _ & _ & Hcreate & _ & ->)]].
      * now apply positions_none.
      * apply (positions_ext w); [|exact Hinv].
        now rewrite (sameControl_round _ _ Hsame).
      * intros round [= <-]. simpl.
        eapply createPositions_wellFormed.
        -- rewrite Hcreate. reflexivity.
        -- constructor.
        -- intros ? ? [].
    + destruct (endRound_shape CONFIG "time_expired" (now env)
                  (dropTimeout h w))
        as [(_ & _ & ->)
           |[(round & _ & _ & _ & Hsame)
            |(round & payouts & w1 & w2 & _ & _ & _ & _ & _ & _ & ->)]].
      * exact Hinv.
      * apply (positions_ext w); [|exact Hinv].
        now rewrite (sameControl_round _ _ Hsame).
      * now apply positions_none.
  - destruct (existsb _ _); simpl; [|exact Hinv].
    apply (positions_ext w); [|exact Hinv].
    unfold lobbyUpdateCallback. destruct (negb _); reflexivity.
  - destruct (priceUnsubscribe w); [|exact Hinv].
    destruct (String.eqb _ _); simpl; [|exact Hinv].
    now apply handlePriceUpdate_positions.
  - destruct (joinLobby_shape CONFIG joiner username bet clock w)
      as [(_ & Hsame)|(player & d & _ & _ & _ & _ & _ & _ & _ & Hsame)];
      (apply (positions_ext w); [|exact Hinv]);
      now rewrite (sameControl_round _ _ Hsame).
  - now apply shoot_positions.
Qed.

(** X11. In every state the process reaches, the active round has at
    most one position per player id, every position is filed under the id
    it carries, and its entry price is the entry price of the round. *)
Theorem reached_positions_well_formed (CONFIG : Config) (clock : Z)
    (history : list Input) :
  positionsWellFormed (reached CONFIG clock history).
Proof.
  unfold reached, run.
  assert (Hinit : positionsWellFormed
            (initialize CONFIG clock (constructor CONFIG clock)))
    by (now apply positions_none).
  revert Hinit. generalize (initialize CONFIG clock (constructor CONFIG clock)).
  induction history as [|i history IH]; intros w Hinv; simpl.
  - exact Hinv.
  - apply IH. now apply step_positions.
Qed.

(** ** Starting a round *)

Lemma player_update_other (k k' : string)
    (data : Prisma.PlayerRow -> Prisma.PlayerRow) (d d' : Prisma.t) :
  Prisma.player_update k data d = Some d' ->
  (forall r, Prisma.id (data r) = Prisma.id r) ->
  k' <> k ->
  Prisma.player_findUnique k' d' = Prisma.player_findUnique k' d.
Proof.
  unfold Prisma.player_update, Prisma.player_findUnique.
  destruct (find _ (Prisma.player d)); [|discriminate].
  intros [= <-] Hid Hne. simpl.
  induction (Prisma.player d) as [|r rows IH]; simpl; [reflexivity|].
  destruct (String.eqb_spec (Prisma.id r) k) as [Heq|Hneq].
  - rewrite Hid. destruct (String.eqb_spec (Prisma.id r) k'); [congruence|].
    exact IH.
  - destruct (String.eqb (Prisma.id r) k'); [reflexivity | exact IH].
Qed.

Lemma player_update_Some (k : string)
    (data : Prisma.PlayerRow -> Prisma.PlayerRow) (d d' : Prisma.t) :
  Prisma.player_update k data d = Some d' ->
  exists row, Prisma.player_findUnique k d = Some row.
Proof.
  unfold Prisma.player_update.
  destruct (Prisma.player_findUnique k d) as [row|]; [eauto | discriminate].
Qed.

Lemma createPositions_effect (roundId : string) (entryPrice : Q)
    (assignments : list (string * Side))
    (positions0 positions : JsMap.t PlayerPosition.t) (w w' : World) :
  NoDup (map fst assignments) ->
  (forall k, In k (JsMap.keys positions0) -> ~ In k (map fst assignments)) ->
  createPositions roundId entryPrice assignments positions0 w
    = (Done positions, w') ->
  positions
    = positions0 ++ map (openedPosition (lobbyPlayers w) entryPrice)
                      assignments
  /\ (forall k side,
        In (k, side) assignments ->
        exists entry row,
          JsMap.get k (lobbyPlayers w) = Some entry
          /\ playerRow k w = Some row
          /\ option_map Prisma.demoBalance (playerRow k w')
             = Some (Prisma.demoBalance row - LobbyPlayer.betAmount entry))
  /\ (forall k, ~ In k (map fst assignments) ->
        playerRow k w' = playerRow k w).
Proof.
  revert positions0 w.
  induction assignments as [|[playerId positionType] rest IH];
    intros positions0 w Hnd Hfresh; simpl; unfold_op.
  - intros [= <- <-]. rewrite app_nil_r.
    split; [reflexivity|]. split; [intros ? ? [] | reflexivity].
  - destruct (JsMap.get playerId (lobbyPlayers w)) as [entry|] eqn:Hentry;
      [|discriminate].
    cbn [fst snd].
    match goal with
    | |- context [Prisma.player_update ?k ?f ?d] =>
        destruct (Prisma.player_update k f d) as [d2|] eqn:Hup;
          [|discriminate];
        pose proof (player_update_Some k f d d2 Hup) as (row & Hrow);
        pose proof (player_update_found k f d row Hrow
                      (fun r => eq_refl)) as (d2' & Hup' & Hfound & _);
        rewrite Hup in Hup'; injection Hup' as <-;
        pose proof (fun k' => player_update_other k k' f d d2 Hup
                                (fun r => eq_refl)) as Hother
    end.
    cbn [option_map fst snd].
    intros Hcreate.
    apply NoDup_cons_iff in Hnd as [Hhead Hnd].
    assert (Hkey : ~ In playerId (JsMap.keys positions0)).
    { intros Hin. apply (Hfresh _ Hin). now left. }
    rewrite JsMap_set_fresh in Hcreate by exact Hkey.
    apply IH in Hcreate; [|exact Hnd|].
    2:{ intros k Hk. unfold JsMap.keys in Hk. rewrite map_app in Hk.
        apply in_app_or in Hk as [Hk|[<-|[]]]; [|exact Hhead].
        intros Hin. apply (Hfresh _ Hk). now right. }
    cbn [lobbyPlayers with_db] in Hcreate.
    destruct Hcreate as (Hpositions & Hmembers & Hrest).
    split; [|split].
    + rewrite Hpositions, <- app_assoc. simpl. unfold openedPosition at 2.
      simpl. unfold betOf. now rewrite Hentry.
    + intros k side [[= <- <-]|Hin].
      * exists entry, row. split; [exact Hentry|]. split; [exact Hrow|].
        rewrite (Hrest playerId Hhead). unfold playerRow. simpl.
        rewrite Hfound. reflexivity.
      * destruct (Hmembers k side Hin) as (e & r & He & Hr & Hbal).
        exists e, r. split; [exact He|]. split; [|exact Hbal].
        unfold playerRow in *. simpl in Hr. rewrite <- Hr.
        symmetry. apply Hother. intros ->. apply Hhead.
        apply in_map_iff. exists (playerId, side). tauto.
    + intros k Hk. rewrite Hrest by tauto.
      unfold playerRow. simpl. apply Hother. intros ->. apply Hk. now left.
Qed.

Lemma assignRandomPositions_keys (sortRandom : list string -> list string)
    (playerIds : list string) :
  NoDup (sortRandom playerIds) ->
  map fst (assignRandomPositions sortRandom playerIds) = sortRandom playerIds.
Proof.
  intros Hnd. rewrite assignRandomPositions_entries by exact Hnd.
  rewrite map_map.
  rewrite <- (indexed_snd (sortRandom playerIds)) at 2.
  apply map_ext. now intros [i k].
Qed.

(** X12. When [startRound] returns with a price sample, for a roster
    without duplicate ids and a random sort that permutes it: the phase is
    ROUND, the roster is empty, the round carries the sampled price as entry
    and current price and the sum of the bets as total, its positions are
    those of exactly the roster members, and every member has an open
    position with its own bet, no P&L yet, and a balance lowered by the
    bet. *)
Theorem startRound_opens_positions_for_roster (CONFIG : Config)
    (selected : string) (env : Env) (w : World) (priceData : PriceData.t) :
  NoDup (JsMap.keys (lobbyPlayers w)) ->
  Permutation (JsMap.keys (lobbyPlayers w))
    (sortRandom env (JsMap.keys (lobbyPlayers w))) ->
  priceSample env = Some priceData ->
  fst (startRound CONFIG selected env w) = Done tt ->
  let w' := snd (startRound CONFIG selected env w) in
  exists round,
    phase w' = ROUND
    /\ currentRound w' = Some round
    /\ lobbyPlayers w' = []
    /\ RoundState.pair round = selected
    /\ RoundState.entryPrice round = PriceData.price priceData
    /\ RoundState.currentPrice round = PriceData.price priceData
    /\ RoundState.totalWagered round
       = sumBets (JsMap.values (lobbyPlayers w))
    /\ Permutation (JsMap.keys (lobbyPlayers w))
         (JsMap.keys (RoundState.positions round))
    /\ forall playerId entry,
         JsMap.get playerId (lobbyPlayers w) = Some entry ->
         exists position row,
           JsMap.get playerId (RoundState.positions round) = Some position
           /\ PlayerPosition.betAmount position
              = LobbyPlayer.betAmount entry
           /\ PlayerPosition.entryPrice position = PriceData.price priceData
           /\ PlayerPosition.currentPnl position = 0
           /\ terminal position = false
           /\ playerRow playerId w = Some row
           /\ option_map Prisma.demoBalance (playerRow playerId w')
              = Some (Prisma.demoBalance row - LobbyPlayer.betAmount entry).
Proof.
  intros Hnd Hperm Hprice Hok. cbv zeta.
  destruct (startRound_shape CONFIG selected env w)
    as [(Hnone & _)|[(Hfail & _)
                    |(pd & positions & w1 & Hpd & _ & Hcreate & Hdb & Hw')]].
  { congruence. }
  { rewrite Hok in Hfail. discriminate. }
  rewrite Hprice in Hpd. injection Hpd as <-.
  set (roster := lobbyPlayers w) in *.
  assert (Hnd' : NoDup (sortRandom env (JsMap.keys roster)))
    by (eapply Permutation_NoDup; eassumption).
  pose proof (assignRandomPositions_keys (sortRandom env)
                (JsMap.keys roster) Hnd') as Hkeys.
  apply createPositions_effect in Hcreate;
    [|now rewrite Hkeys | intros ? []].
  unfold JsMap.empty in Hcreate.
  cbn [lobbyPlayers with_db app] in Hcreate. fold roster in Hcreate.
  destruct Hcreate as (Hpositions & Hmembers & _).
  assert (Hposkeys : JsMap.keys positions
                     = sortRandom env (JsMap.keys roster)).
  { etransitivity; [|exact Hkeys].
    rewrite Hpositions. unfold JsMap.keys at 1. rewrite map_map.
    apply map_ext. now intros [k side]. }
  eexists. rewrite Hw'.
  split; [reflexivity|]. split; [reflexivity|]. split; [reflexivity|].
  cbn [RoundState.pair RoundState.entryPrice RoundState.currentPrice
       RoundState.totalWagered RoundState.positions].
  split; [reflexivity|]. split; [reflexivity|]. split; [reflexivity|].
  split; [reflexivity|]. split; [now rewrite Hposkeys|].
  intros playerId entry Hentry.
  assert (Hin : In playerId (sortRandom env (JsMap.keys roster))).
  { eapply Permutation_in; [exact Hperm|].
    eapply JsMap_get_Some_In_keys. exact Hentry. }
  rewrite <- Hkeys in Hin. apply in_map_iff in Hin as ([k side] & Hk & Hin).
  simpl in Hk. subst k.
  destruct (Hmembers playerId side Hin) as (entry' & row & He & Hrow & Hbal).
  rewrite Hentry in He. injection He as <-.
  exists (snd (openedPosition roster (PriceData.price priceData)
                 (playerId, side))), row.
  split.
  { apply JsMap_In_get; [now rewrite Hposkeys|].
    rewrite Hpositions. apply in_map_iff. exists (playerId, side).
    split; [reflexivity | exact Hin]. }
  unfold openedPosition, betOf. simpl. rewrite Hentry.
  repeat (split; [reflexivity|]).
  split; [exact Hrow|].
  rewrite <- Hbal. unfold playerRow. simpl. rewrite Hdb. reflexivity.
Qed.

Lemma startRound_opens_positions_for_roster_witness :
  let w' := snd (startRound default_CONFIG "BTC/USD"
                   (sampleEnv 20000%Z 100) sampleLobby1) in
  phase w' = ROUND
  /\ exists position,
       positionOf "a" w' = Some position
       /\ PlayerPosition.betAmount position = 10
       /\ balanceOf "a" w' = Some (100 - 10).
Proof.
  assert (Hnd : NoDup (JsMap.keys (lobbyPlayers sampleLobby1))).
  { repeat constructor. intros []. }
  destruct (startRound_opens_positions_for_roster default_CONFIG "BTC/USD"
              (sampleEnv 20000%Z 100) sampleLobby1
              (PriceData.mk "BTC/USD" 100 1 0%Z 20000%Z) Hnd
              (shuffle_by_perm _ _) eq_refl eq_refl)
    as (round & Hphase & Hround & _ & _ & _ & _ & _ & _ & Hmembers).
  split; [exact Hphase|].
  destruct (Hmembers "a"%string
              (LobbyPlayer.mk "a" "alice" 10 100 5%Z) eq_refl)
    as (position & row & Hget & Hbet & _ & _ & _ & Hrow & Hbal).
  exists position. unfold positionOf. rewrite Hround.
  split; [exact Hget|]. split; [exact Hbet|].
  unfold balanceOf. unfold playerRow in Hbal. rewrite Hbal.
  vm_compute in Hrow. injection Hrow as <-. reflexivity.
Defined.

(** X13. When the lobby timer expires on an empty roster, or no volatile
    pair is selected, [endLobby] returns with a fresh lobby: phase LOBBY, no
    round, an empty roster, a new lobby timer and broadcast interval, one
    [lobby:start] event, and a database that no write has touched. *)
Theorem endLobby_restarts_lobby (CONFIG : Config) (env : Env) (w : World) :
  lobbyPlayers w = [] \/ selectedPair env = None ->
  let w' := snd (endLobby CONFIG env w) in
  fst (endLobby CONFIG env w) = Done tt
  /\ phase w' = LOBBY
  /\ currentRound w' = None
  /\ lobbyPlayers w' = []
  /\ db w' = db w
  /\ timeouts w' = timeouts w ++ [(nextHandle w, endLobby_cb)]
  /\ lobbyTimer w' = Some (nextHandle w)
  /\ intervals w' = intervals w ++ [S (nextHandle w)]
  /\ emitted w'
     = emitted w
       ++ [lobby_start (now env + LOBBY_DURATION_SECONDS CONFIG * 1000)%Z
             (LOBBY_DURATION_SECONDS CONFIG)].
Proof.
  intros Hcase. cbv zeta.
  assert (Hrestart : fst (endLobby CONFIG env w) = Done tt
                     /\ snd (endLobby CONFIG env w)
                        = startLobby CONFIG (now env) w).
  { destruct (endLobby_shape CONFIG env w)
      as [(_ & Hr & Hw)|(selected & Hroster & Hsel & Hr & Hw)]; [tauto|].
    destruct Hcase as [H|H]; [contradiction | congruence]. }
  destruct Hrestart as [-> ->]. repeat split.
Qed.

Lemma endLobby_restarts_lobby_witness :
  phase (snd (endLobby default_CONFIG (idleEnv 20000%Z) sampleLobby1))
    = LOBBY
  /\ db (snd (endLobby default_CONFIG (idleEnv 20000%Z) sampleLobby1))
     = db sampleLobby1
  /\ lobbyPlayers
       (snd (endLobby default_CONFIG (idleEnv 20000%Z) sampleLobby1)) = [].
Proof.
  destruct (endLobby_restarts_lobby default_CONFIG (idleEnv 20000%Z)
              sampleLobby1) as (_ & Hphase & _ & Hroster & Hdb & _).
  - right. reflexivity.
  - split; [exact Hphase|]. split; [exact Hdb | exact Hroster].
Defined.

(** ** What a tick does *)



(** ** Money: ticks, settlement, balance queries *)

Lemma player_update_untouched (k k' : string)
    (data : Prisma.PlayerRow -> Prisma.PlayerRow) (d d' : Prisma.t) :
  Prisma.player_update k data d = Some d' ->
  (forall r, Prisma.id (data r) = Prisma.id r) ->
  (forall r, untouchedByTick (data r) = untouchedByTick r) ->
  option_map untouchedByTick (Prisma.player_findUnique k' d')
  = option_map untouchedByTick (Prisma.player_findUnique k' d).
Proof.
  intros Hup Hid Hsame.
  destruct (String.eqb_spec k' k) as [->|Hne].
  - destruct (player_update_Some _ _ _ _ Hup) as (row & Hrow).
    destruct (player_update_found k data d row Hrow Hid)
      as (d2 & Hup2 & Hfound & _).
    rewrite Hup in Hup2. injection Hup2 as <-.
    rewrite Hfound, Hrow. simpl. now rewrite Hsame.
  - now rewrite (player_update_other k k' data d d' Hup Hid Hne).
Qed.

Lemma updatePosition_untouched (round : RoundState.t) (price : Q)
    (playerId : string) (position : PlayerPosition.t) (w : World)
    (k : string) :
  option_map untouchedByTick
    (playerRow k (snd (updatePosition round price playerId position w)))
  = option_map untouchedByTick (playerRow k w).
Proof.
  unfold updatePosition.
  destruct (_ || _); [reflexivity|]. cbv zeta.
  destruct (isLiquidated _ _ _ _); [|reflexivity]. cbn [snd].
  match goal with
  | |- context [Prisma.player_update ?a ?f ?d] =>
      destruct (Prisma.player_update a f d) as [d'|] eqn:Hup
  end; [|reflexivity].
  unfold playerRow. simpl.
  rewrite (player_update_untouched _ k _ _ _ Hup); reflexivity.
Qed.

Lemma updatePositions_untouched (round : RoundState.t) (price : Q)
    (entries : list (string * PlayerPosition.t)) (w : World) (k : string) :
  option_map untouchedByTick
    (playerRow k (snd (updatePositions round price entries w)))
  = option_map untouchedByTick (playerRow k w).
Proof.
  revert w. induction entries as [|[playerId position] rest IH];
    intros w; simpl; [reflexivity|].
  pose proof (updatePosition_untouched round price playerId position w k)
    as H1.
  destruct (updatePosition round price playerId position w) as [p w1].
  specialize (IH w1).
  destruct (updatePositions round price rest w1) as [r w2].
  simpl in *. congruence.
Qed.

(** X15. A tick changes no player's balance, games-played count or
    games-won count, whatever it liquidates; and it creates or removes no
    player row. *)
Theorem tick_leaves_balances (priceData : PriceData.t) (w : World)
    (playerId : string) :
  option_map untouchedByTick
    (playerRow playerId (handlePriceUpdate priceData w))
  = option_map untouchedByTick (playerRow playerId w)
  /\ (getPlayerBalance playerId (handlePriceUpdate priceData w) = None
      <-> getPlayerBalance playerId w = None).
Proof.
  assert (H : option_map untouchedByTick
                (playerRow playerId (handlePriceUpdate priceData w))
              = option_map untouchedByTick (playerRow playerId w)).
  { unfold handlePriceUpdate.
    destruct (phase w); [reflexivity|].
    destruct (currentRound w) as [round|]; [|reflexivity].
    pose proof (updatePositions_untouched round (PriceData.price priceData)
                  (JsMap.entries (RoundState.positions round)) w playerId)
      as Hrows.
    destruct (updatePositions _ _ _ w) as [positions w1]. exact Hrows. }
  split; [exact H|]. unfold getPlayerBalance. unfold playerRow in H.
  destruct (Prisma.player_findUnique playerId (db w)),
    (Prisma.player_findUnique playerId
       (db (handlePriceUpdate priceData w))); simpl in H;
    try discriminate; split; intros; (reflexivity || discriminate).
Qed.

Lemma settlePositions_effect (round : RoundState.t)
    (entries : list (string * PlayerPosition.t))
    (payouts payouts' : list (string * Q * Q * bool)) (w w' : World) :
  NoDup (map fst entries) ->
  settlePositions round (RoundState.currentPrice round) entries payouts w
    = (Done payouts', w') ->
  (forall k p,
      In (k, p) entries ->
      exists row,
        playerRow k w = Some row
        /\ playerRow k w' = Some (settledRow round p row))
  /\ (forall k, ~ In k (map fst entries) -> playerRow k w' = playerRow k w).
Proof.
  revert payouts w.
  induction entries as [|[playerId position] rest IH];
    intros payouts w Hnd; simpl; unfold_op.
  - intros [= _ <-]. split; [intros ? ? [] | reflexivity].
  - cbn [fst snd].
    match goal with
    | |- context [Prisma.player_update ?k ?f ?d] =>
        destruct (Prisma.player_update k f d) as [d2|] eqn:Hup;
          [|discriminate];
        pose proof (player_update_Some k f d d2 Hup) as (row & Hrow);
        pose proof (player_update_found k f d row Hrow
                      (fun r => eq_refl)) as (d2' & Hup' & Hfound & _);
        rewrite Hup in Hup'; injection Hup' as <-;
        pose proof (fun k' => player_update_other k k' f d d2 Hup
                                (fun r => eq_refl)) as Hother
    end.
    cbn [option_map fst snd]. intros Hsettle.
    apply NoDup_cons_iff in Hnd as [Hhead Hnd].
    apply IH in Hsettle; [|exact Hnd].
    destruct Hsettle as [Hmembers Hrest].
    split.
    + intros k p [[= <- <-]|Hin].
      * exists row. split; [exact Hrow|].
        rewrite (Hrest playerId Hhead). unfold playerRow. simpl.
        rewrite Hfound. reflexivity.
      * destruct (Hmembers k p Hin) as (r & Hr & Hr').
        exists r. split; [|exact Hr'].
        unfold playerRow in *. simpl in Hr. rewrite <- Hr.
        symmetry. apply Hother. intros ->. apply Hhead.
        apply in_map_iff. exists (playerId, p). tauto.
    + intros k Hk. rewrite Hrest by tauto.
      unfold playerRow. simpl. apply Hother. intros ->. apply Hk. now left.
Qed.

(** X16. When [endRound] returns in a round with one position per
    player: the phase is LOBBY again with no round, an empty roster and no
    feed subscription, and the row of every participant has received the
    payout of the position on its balance, the settled P&L (the frozen one
    of a closed position, the one at the last price of an open position)
    on its total, and one more game played. *)
Theorem endRound_settles_every_position (CONFIG : Config) (reason : string)
    (clock : Z) (w : World) (round : RoundState.t) :
  phase w = ROUND ->
  currentRound w = Some round ->
  NoDup (JsMap.keys (RoundState.positions round)) ->
  fst (endRound CONFIG reason clock w) = Done tt ->
  let w' := snd (endRound CONFIG reason clock w) in
  phase w' = LOBBY
  /\ currentRound w' = None
  /\ lobbyPlayers w' = []
  /\ priceUnsubscribe w' = None
  /\ (forall playerId position,
        JsMap.get playerId (RoundState.positions round) = Some position ->
        exists row,
          playerRow playerId w = Some row
          /\ playerRow playerId w' = Some (settledRow round position row))
  /\ (forall playerId,
        JsMap.get playerId (RoundState.positions round) = None ->
        playerRow playerId w' = playerRow playerId w).
Proof.
  intros Hphase Hround Hnd Hok. cbv zeta.
  destruct (endRound_shape CONFIG reason clock w)
    as [([H|H] & _)
       |[(r & _ & _ & Hfail & _)
        |(r & payouts & w1 & w2 & _ & Hr & _ & Hsettle & Hsame & Hplayers
          & Hw')]]; try congruence.
  { rewrite Hok in Hfail. discriminate. }
  rewrite Hround in Hr. injection Hr as <-.
  pose proof (settlePositions_sameControl round
                (RoundState.currentPrice round)
                (RoundState.positions round) []
                (with_priceUnsubscribe None w)) as Hsame1.
  rewrite Hsettle in Hsame1. simpl in Hsame1.
  apply settlePositions_effect in Hsettle; [|exact Hnd].
  destruct Hsettle as [Hmembers Hrest].
  assert (Hrow : forall k, playerRow k (snd (endRound CONFIG reason clock w))
                           = playerRow k w1).
  { intros k. rewrite Hw'. unfold playerRow, Prisma.player_findUnique.
    simpl. now rewrite Hplayers. }
  rewrite Hw' at 1 2 3 4.
  split; [reflexivity|]. split; [reflexivity|]. split; [reflexivity|].
  split.
  { simpl. rewrite Hsame, Hsame1. reflexivity. }
  split.
  - intros playerId position Hget. rewrite Hrow.
    apply Hmembers. now apply JsMap_get_In.
  - intros playerId Hget. rewrite Hrow.
    apply Hrest. now apply JsMap_get_None_iff.
Qed.

Lemma endRound_settles_every_position_witness :
  let w' := snd (endRound default_CONFIG "time_expired" 50000%Z
                   sampleTicked) in
  phase w' = LOBBY
  /\ exists row,
       playerRow "a" w' = Some row
       /\ Prisma.demoBalance row == 105
       /\ Prisma.gamesPlayed row = 1%Z.
Proof.
  pose proof (endRound_settles_every_position default_CONFIG "time_expired"
                50000%Z sampleTicked) as H.
  specialize (H _ eq_refl eq_refl).
  destruct H as (Hphase & _ & _ & _ & Hmembers & _).
  - repeat constructor. intros [].
  - reflexivity.
  - split; [exact Hphase|].
    specialize (Hmembers "a"%string _ eq_refl).
    destruct Hmembers as (row & Hrow & Hrow').
    eexists. split; [exact Hrow'|].
    vm_compute in Hrow. injection Hrow as <-. split; reflexivity.
Defined.

Lemma upsert_findUnique (username new_id : string) (balance : Q)
    (d d' : Prisma.t) (row : Prisma.PlayerRow) :
  Prisma.player_upsert username new_id balance d = Some (row, d') ->
  Prisma.player_findUnique new_id d' = Some row.
Proof.
  unfold Prisma.player_upsert, Prisma.player_findByUsername,
    Prisma.player_findUnique.
  destruct (existsb _ (Prisma.player d)) eqn:Hclash; [discriminate|].
  assert (Hown : forall r, In r (Prisma.player d) ->
            String.eqb (Prisma.id r) new_id = true ->
            String.eqb (Prisma.username r) username = true).
  { intros r Hin Hid.
    destruct (String.eqb (Prisma.username r) username) eqn:E;
      [reflexivity|].
    assert (Hex : existsb
              (fun r => String.eqb (Prisma.id r) new_id
                        && negb (String.eqb (Prisma.username r) username))
              (Prisma.player d) = true).
    { apply existsb_exists. exists r. rewrite Hid, E. tauto. }
    congruence. }
  clear Hclash.
  destruct (find _ (Prisma.player d)) as [old|] eqn:Hfind.
  - intros [= <- <-]. simpl.
    induction (Prisma.player d) as [|r rows IH]; simpl in *; [discriminate|].
    destruct (String.eqb (Prisma.username r) username) eqn:E.
    + simpl. now rewrite String.eqb_refl.
    + destruct (String.eqb (Prisma.id r) new_id) eqn:Eid.
      * rewrite (Hown r (or_introl eq_refl) Eid) in E. discriminate.
      * apply IH; [|exact Hfind]. intros r' Hr'. apply Hown. now right.
  - intros [= <- <-]. simpl.
    induction (Prisma.player d) as [|r rows IH]; simpl in *.
    + now rewrite String.eqb_refl.
    + destruct (String.eqb (Prisma.username r) username) eqn:E;
        [discriminate|].
      destruct (String.eqb (Prisma.id r) new_id) eqn:Eid.
      * rewrite (Hown r (or_introl eq_refl) Eid) in E. discriminate.
      * apply IH; [|exact Hfind]. intros r' Hr'. apply Hown. now right.
Qed.

Lemma upsert_new (username new_id : string) (balance : Q)
    (d d' : Prisma.t) (row : Prisma.PlayerRow) :
  Prisma.player_findByUsername username d = None ->
  Prisma.player_upsert username new_id balance d = Some (row, d') ->
  row = Prisma.mkPlayer new_id username balance 0 0%Z 0%Z 0%Z.
Proof.
  unfold Prisma.player_upsert. intros ->.
  destruct (existsb _ _); [discriminate|]. now intros [= <- _].
Qed.

(** X17. After a successful [joinLobby] the roster holds an entry for the
    player whose balance snapshot is the balance [getPlayerBalance] answers
    for that id, and it covers the bet.  For a username that had no record
    the balance is the default demo balance; for a known username it is the
    stored balance. *)
Theorem joinLobby_snapshot_is_balance (CONFIG : Config)
    (playerId username : string) (betAmount : Q) (clock : Z) (w : World) :
  fst (joinLobby CONFIG playerId username betAmount clock w) = Done tt ->
  let w' := snd (joinLobby CONFIG playerId username betAmount clock w) in
  exists entry totalPnl gamesPlayed,
    JsMap.get playerId (lobbyPlayers w') = Some entry
    /\ getPlayerBalance playerId w'
       = Some (LobbyPlayer.balance entry, totalPnl, gamesPlayed)
    /\ betAmount <= LobbyPlayer.balance entry
    /\ (Prisma.player_findByUsername username (db w) = None ->
        LobbyPlayer.balance entry = DEFAULT_DEMO_BALANCE CONFIG)
    /\ (forall stored,
          Prisma.player_findByUsername username (db w) = Some stored ->
          LobbyPlayer.balance entry = Prisma.demoBalance stored).
Proof.
  intros Hok. cbv zeta.
  destruct (joinLobby_shape CONFIG playerId username betAmount clock w)
    as [(Hfail & _)
       |(player & d & _ & _ & Hfresh & _ & Hbal & Hup & Hplayers & Hsame)].
  { rewrite Hok in Hfail. discriminate. }
  exists (LobbyPlayer.mk playerId username betAmount
            (Prisma.demoBalance player) clock),
    (Prisma.totalPnl player), (Prisma.gamesPlayed player).
  split.
  { rewrite (sameControl_roster _ _ Hsame). simpl.
    rewrite <- JsMap_set_fresh by exact Hfresh. apply JsMap_get_set_same. }
  split.
  { unfold getPlayerBalance, Prisma.player_findUnique. rewrite Hplayers.
    pose proof (upsert_findUnique _ _ _ _ _ _ Hup) as Hfound.
    unfold Prisma.player_findUnique in Hfound. now rewrite Hfound. }
  split; [exact Hbal|]. split.
  - intros Hnew. rewrite (upsert_new _ _ _ _ _ _ Hnew Hup). reflexivity.
  - intros stored Hstored.
    destruct (upsert_row _ _ _ _ _ _ Hup) as (_ & _ & _ & _ & Heq).
    rewrite Hstored in Heq. exact Heq.
Qed.

Lemma joinLobby_snapshot_is_balance_witness :
  exists entry totalPnl gamesPlayed,
    JsMap.get "a" (lobbyPlayers sampleLobby1) = Some entry
    /\ getPlayerBalance "a" sampleLobby1
       = Some (LobbyPlayer.balance entry, totalPnl, gamesPlayed)
    /\ LobbyPlayer.balance entry = 100.
Proof.
  destruct (joinLobby_snapshot_is_balance default_CONFIG "a" "alice" 10 5%Z
              sampleLobby eq_refl)
    as (entry & totalPnl & gamesPlayed & Hget & Hbalance & _ & Hnew & _).
  exists entry, totalPnl, gamesPlayed.
  split; [exact Hget|]. split; [exact Hbalance | exact (Hnew eq_refl)].
Defined.

(** ** The price feed client *)

Lemma JsMap_set_set {V : Type} (k : string) (v v0 : V) (m : JsMap.t V) :
  JsMap.set k v (JsMap.set k v0 m) = JsMap.set k v m.
Proof.
  induction m as [|[k' v'] m IH]; simpl.
  - now rewrite String.eqb_refl.
  - destruct (String.eqb k k') eqn:E; simpl; rewrite E; [reflexivity|].
    now rewrite IH.
Qed.

Lemma JsMap_set_id {V : Type} (k : string) (v : V) (m : JsMap.t V) :
  JsMap.get k m = Some v -> JsMap.set k v m = m.
Proof.
  induction m as [|[k' v'] m IH]; simpl; [discriminate|].
  destruct (String.eqb_spec k k') as [->|Hne].
  - now intros [= ->].
  - intros H. now rewrite IH.
Qed.

Lemma JsMap_delete_fresh {V : Type} (k : string) (m : JsMap.t V) :
  ~ In k (JsMap.keys m) -> JsMap_delete k m = m.
Proof.
  unfold JsMap_delete. induction m as [|[k' v'] m IH]; simpl; [reflexivity|].
  intros H. destruct (String.eqb_spec k k') as [->|Hne].
  - exfalso. apply H. now left.
  - simpl. rewrite IH; [reflexivity | tauto].
Qed.

Lemma JsMap_get_delete {V : Type} (k k' : string) (m : JsMap.t V) :
  JsMap.get k' (JsMap_delete k m)
  = if String.eqb k k' then None else JsMap.get k' m.
Proof.
  unfold JsMap_delete. induction m as [|[k0 v0] m IH]; simpl.
  - now destruct (String.eqb k k').
  - destruct (String.eqb_spec k k0) as [->|Hne]; simpl.
    + rewrite IH. destruct (String.eqb_spec k0 k') as [->|Hne'].
      * reflexivity.
      * destruct (String.eqb_spec k' k0); [congruence | reflexivity].
    + rewrite IH. destruct (String.eqb_spec k k') as [->|Hne'].
      * destruct (String.eqb_spec k' k0); [congruence | reflexivity].
      * reflexivity.
Qed.

Lemma Set_delete_fresh (x : nat) (s : list nat) :
  ~ In x s -> Set_delete x s = s.
Proof.
  unfold Set_delete. induction s as [|y s IH]; simpl; [reflexivity|].
  intros H. destruct (Nat.eqb_spec x y) as [->|Hne].
  - exfalso. apply H. now left.
  - simpl. rewrite IH; [reflexivity | tauto].
Qed.

Lemma Set_delete_not_In (x : nat) (s : list nat) : ~ In x (Set_delete x s).
Proof.
  unfold Set_delete. intros H. apply filter_In in H as [_ H].
  now rewrite Nat.eqb_refl in H.
Qed.

Lemma Set_delete_other (x y : nat) (s : list nat) :
  y <> x -> (In y (Set_delete x s) <-> In y s).
Proof.
  unfold Set_delete. intros Hne. rewrite filter_In.
  destruct (Nat.eqb_spec x y); [congruence | tauto].
Qed.

Lemma Set_add_In (x : nat) (s : list nat) : In x (Set_add x s).
Proof.
  unfold Set_add. destruct (existsb (Nat.eqb x) s) eqn:E.
  - apply existsb_exists in E as (y & Hy & Heq).
    apply Nat.eqb_eq in Heq. now subst.
  - apply in_or_app. right. now left.
Qed.

Lemma Set_add_fresh (x : nat) (s : list nat) :
  ~ In x s -> Set_add x s = s ++ [x].
Proof.
  unfold Set_add. intros H. destruct (existsb (Nat.eqb x) s) eqn:E;
    [|reflexivity].
  apply existsb_exists in E as (y & Hy & Heq).
  apply Nat.eqb_eq in Heq. now subst.
Qed.

Lemma Set_add_nonempty (x : nat) (s : list nat) : Set_add x s <> [].
Proof. intros H. pose proof (Set_add_In x s) as Hin. now rewrite H in Hin. Qed.

(** X18. On a connected client that keeps no empty callback set,
    subscribing a callback that is new for the pair succeeds, and calling
    the function it returns restores the subscription table; the only
    control messages written are a [subscribe] followed by an [unsubscribe]
    when the pair had no subscriber, none otherwise. *)
Theorem subscribe_unsubscribe_round_trip (pair : string) (callback : nat)
    (c : PriceFeedClient.t) :
  PriceFeedClient.ws c = true ->
  PriceFeedClient.connected c = true ->
  PriceFeedClient.noEmptySet c ->
  (forall callbacks,
      JsMap.get pair (PriceFeedClient.subscriptions c) = Some callbacks ->
      ~ In callback callbacks) ->
  exists c1,
    PriceFeedClient.subscribeToPair pair callback c = Some c1
    /\ PriceFeedClient.noEmptySet c1
    /\ PriceFeedClient.subscriptions
         (PriceFeedClient.unsubscribeFrom pair callback c1)
       = PriceFeedClient.subscriptions c
    /\ PriceFeedClient.sent
         (PriceFeedClient.unsubscribeFrom pair callback c1)
       = if JsMap.has pair (PriceFeedClient.subscriptions c)
         then PriceFeedClient.sent c
         else PriceFeedClient.sent c
              ++ [PriceFeedClient.subscribe pair;
                  PriceFeedClient.unsubscribe pair].
Proof.
  intros Hws Hconn Hwf Hnew.
  unfold PriceFeedClient.subscribeToPair. rewrite Hws, Hconn. cbn [negb orb].
  unfold JsMap.has.
  destruct (JsMap.get pair (PriceFeedClient.subscriptions c))
    as [callbacks|] eqn:Hget; cbn [negb].
  - rewrite Hget. eexists. split; [reflexivity|].
    specialize (Hnew callbacks eq_refl).
    assert (Hne : callbacks <> []).
    { apply (Hwf pair). now apply JsMap_get_In. }
    rewrite (Set_add_fresh _ _ Hnew).
    split.
    { intros p s Hin. simpl in Hin.
      apply JsMap_In_set_key in Hin as [Hin|[_ ->]];
        [now apply (Hwf p) | now destruct callbacks]. }
    unfold PriceFeedClient.unsubscribeFrom. simpl.
    rewrite JsMap_get_set_same.
    assert (Hdel : Set_delete callback (callbacks ++ [callback]) = callbacks).
    { unfold Set_delete. rewrite filter_app. simpl.
      rewrite Nat.eqb_refl. simpl. rewrite app_nil_r.
      now apply Set_delete_fresh. }
    rewrite Hdel.
    destruct (Nat.eqb_spec (List.length callbacks) 0) as [H0|_].
    { destruct callbacks; [contradiction | discriminate]. }
    simpl. rewrite JsMap_set_set, (JsMap_set_id _ _ _ Hget). tauto.
  - simpl. rewrite JsMap_get_set_same. eexists. split; [reflexivity|].
    assert (Hfresh : ~ In pair (JsMap.keys (PriceFeedClient.subscriptions c)))
      by now apply JsMap_get_None_iff.
    rewrite JsMap_set_set. cbn [Set_add existsb app].
    split.
    { intros p s Hin. simpl in Hin.
      apply JsMap_In_set_key in Hin as [Hin|[_ ->]];
        [now apply (Hwf p) | discriminate]. }
    unfold PriceFeedClient.unsubscribeFrom. simpl.
    rewrite JsMap_get_set_same. simpl. rewrite Nat.eqb_refl. simpl.
    rewrite JsMap_set_set. simpl.
    rewrite (JsMap_set_fresh _ _ _ Hfresh).
    unfold JsMap_delete. rewrite filter_app. simpl.
    rewrite String.eqb_refl. simpl. rewrite app_nil_r.
    fold (JsMap_delete pair (PriceFeedClient.subscriptions c)).
    rewrite (JsMap_delete_fresh _ _ Hfresh), <- app_assoc. tauto.
Qed.

Lemma subscribe_unsubscribe_round_trip_witness :
  exists c1,
    PriceFeedClient.subscribeToPair "ETH/USD" 3 sampleClient = Some c1
    /\ PriceFeedClient.subscriptions
         (PriceFeedClient.unsubscribeFrom "ETH/USD" 3 c1)
       = PriceFeedClient.subscriptions sampleClient
    /\ PriceFeedClient.sent (PriceFeedClient.unsubscribeFrom "ETH/USD" 3 c1)
       = [PriceFeedClient.subscribe "ETH/USD";
          PriceFeedClient.unsubscribe "ETH/USD"].
Proof.
  destruct (subscribe_unsubscribe_round_trip "ETH/USD" 3 sampleClient
              eq_refl eq_refl) as (c1 & Hsub & _ & Hsubs & Hsent).
  - intros p s [[= <- <-]|[]]. discriminate.
  - intros callbacks H. discriminate H.
  - exists c1. split; [exact Hsub|]. split; [exact Hsubs | exact Hsent].
Defined.

(** X19. A price update for a non-empty pair reaches a callback that was
    just subscribed to it and never a callback that was just unsubscribed
    from it; unsubscribing one callback changes the delivery neither to the
    other callbacks of the pair nor to any other pair. *)
Theorem feed_delivers_to_subscribers (pair : string) (callback : nat)
    (c : PriceFeedClient.t) (priceData : PriceData.t) :
  pair <> ""%string ->
  (forall c1,
      PriceFeedClient.subscribeToPair pair callback c = Some c1 ->
      In (callback, priceData)
        (PriceFeedClient.handleMessage
           (PriceFeedClient.priceUpdate pair priceData) c1))
  /\ ~ In (callback, priceData)
         (PriceFeedClient.handleMessage
            (PriceFeedClient.priceUpdate pair priceData)
            (PriceFeedClient.unsubscribeFrom pair callback c))
  /\ (forall other,
        other <> callback ->
        In (other, priceData)
          (PriceFeedClient.handleMessage
             (PriceFeedClient.priceUpdate pair priceData)
             (PriceFeedClient.unsubscribeFrom pair callback c))
        <-> In (other, priceData)
              (PriceFeedClient.handleMessage
                 (PriceFeedClient.priceUpdate pair priceData) c))
  /\ (forall pair',
        pair' <> pair ->
        PriceFeedClient.handleMessage
          (PriceFeedClient.priceUpdate pair' priceData)
          (PriceFeedClient.unsubscribeFrom pair callback c)
        = PriceFeedClient.handleMessage
            (PriceFeedClient.priceUpdate pair' priceData) c).
Proof.
  intros Hpair.
  assert (Hnonempty : String.eqb pair "" = false)
    by now apply String.eqb_neq.
  assert (Hin_map : forall cb (s : list nat),
            In (cb, priceData) (map (fun x => (x, priceData)) s) <-> In cb s).
  { intros cb s. rewrite in_map_iff. split.
    - intros (x & [= ->] & Hx). exact Hx.
    - intros H. exists cb. tauto. }
  split; [|split; [|split]].
  - intros c1. unfold PriceFeedClient.subscribeToPair.
    destruct (_ || _); [discriminate|].
    match goal with
    | |- context [JsMap.get pair (PriceFeedClient.subscriptions ?x)] =>
        destruct (JsMap.get pair (PriceFeedClient.subscriptions x))
          as [callbacks|]; [|discriminate]
    end.
    intros [= <-]. unfold PriceFeedClient.handleMessage. simpl.
    rewrite Hnonempty, JsMap_get_set_same. apply Hin_map, Set_add_In.
  - unfold PriceFeedClient.unsubscribeFrom, PriceFeedClient.handleMessage.
    simpl. rewrite Hnonempty.
    destruct (JsMap.get pair (PriceFeedClient.subscriptions c))
      as [callbacks|] eqn:Hget; [|rewrite Hget; intros []].
    destruct (Nat.eqb _ 0); simpl.
    + rewrite JsMap_get_delete, String.eqb_refl. intros [].
    + rewrite JsMap_get_set_same, Hin_map. apply Set_delete_not_In.
  - intros other Hother.
    unfold PriceFeedClient.unsubscribeFrom, PriceFeedClient.handleMessage.
    simpl. rewrite Hnonempty.
    destruct (JsMap.get pair (PriceFeedClient.subscriptions c))
      as [callbacks|] eqn:Hget; [|rewrite Hget; tauto].
    destruct (Nat.eqb_spec (List.length (Set_delete callback callbacks)) 0)
      as [Hempty|_]; simpl.
    + rewrite JsMap_get_delete, String.eqb_refl, Hin_map.
      rewrite <- (Set_delete_other callback other callbacks Hother).
      apply length_zero_iff_nil in Hempty. rewrite Hempty. tauto.
    + rewrite JsMap_get_set_same, !Hin_map.
      now apply Set_delete_other.
  - intros pair' Hne.
    unfold PriceFeedClient.unsubscribeFrom, PriceFeedClient.handleMessage.
    simpl. destruct (String.eqb pair' ""); [reflexivity|].
    destruct (JsMap.get pair (PriceFeedClient.subscriptions c))
      as [callbacks|]; [|reflexivity].
    destruct (Nat.eqb _ 0); simpl.
    + rewrite JsMap_get_delete.
      destruct (String.eqb_spec pair pair'); [congruence|].
      now rewrite JsMap_get_set_other.
    + now rewrite JsMap_get_set_other.
Qed.

Lemma feed_delivers_to_subscribers_witness :
  PriceFeedClient.handleMessage
    (PriceFeedClient.priceUpdate "BTC/USD" (sampleTick 100))
    (PriceFeedClient.unsubscribeFrom "BTC/USD" 1 sampleClient)
  = [(2%nat, sampleTick 100)]
  /\ ~ In (1%nat, sampleTick 100)
         (PriceFeedClient.handleMessage
            (PriceFeedClient.priceUpdate "BTC/USD" (sampleTick 100))
            (PriceFeedClient.unsubscribeFrom "BTC/USD" 1 sampleClient)).
Proof.
  split; [reflexivity|].
  destruct (feed_delivers_to_subscribers "BTC/USD" 1 sampleClient
              (sampleTick 100)) as (_ & Hgone & _).
  - discriminate.
  - exact Hgone.
Defined.

(** X20. After [n] closes in a row from a client that counted no attempt,
    the [k]-th close (counted from 1) has set a reconnection timer of
    [min(1000 * 2^k, 30000)] ms when [k <= 10] and none when [k > 10]; the
    attempt counter is [min(n, 10)], and an open resets it to 0. *)
Theorem reconnect_backoff (n : nat) (c : PriceFeedClient.t) :
  PriceFeedClient.reconnectAttempts c = 0%nat ->
  let c' := fst (PriceFeedClient.closes n c) in
  let delays := snd (PriceFeedClient.closes n c) in
  PriceFeedClient.reconnectAttempts c' = Nat.min n 10
  /\ List.length delays = n
  /\ (forall k,
        (k < n)%nat ->
        nth_error delays k
        = Some (if (S k <=? 10)%nat
                then Some (Z.min (1000 * 2 ^ Z.of_nat (S k)) 30000)
                else None))
  /\ PriceFeedClient.reconnectAttempts (PriceFeedClient.onOpen c') = 0%nat
  /\ PriceFeedClient.subscriptions c' = PriceFeedClient.subscriptions c.
Proof.
  intros Hzero. cbv zeta. induction n as [|n IH].
  - simpl. rewrite Hzero. repeat split. intros k Hk. lia.
  - simpl. destruct (PriceFeedClient.closes n c) as [c1 delays].
    simpl in IH. destruct IH as (Hatt & Hlen & Hnth & _ & Hsubs).
    unfold PriceFeedClient.onClose, PriceFeedClient.attemptReconnect.
    cbn [PriceFeedClient.reconnectAttempts].
    unfold PriceFeedClient.MAX_RECONNECT_ATTEMPTS. rewrite Hatt.
    destruct (Nat.leb_spec 10 (Nat.min n 10)) as [Hfull|Hroom]; cbn [fst snd].
    + assert (Hn : (10 <= n)%nat) by lia.
      split; [cbn [PriceFeedClient.reconnectAttempts]; lia|].
      split; [rewrite length_app; simpl; lia|].
      split; [|split; [reflexivity | exact Hsubs]].
      intros k Hk. destruct (Nat.eq_dec k n) as [->|Hne].
      * rewrite nth_error_app2 by lia. rewrite Hlen, Nat.sub_diag. simpl.
        destruct (Nat.leb_spec n 9); [lia | reflexivity].
      * rewrite nth_error_app1 by lia. apply Hnth. lia.
    + assert (Hn : (n < 10)%nat) by lia.
      rewrite Nat.min_l in * by lia.
      split; [cbn [PriceFeedClient.reconnectAttempts]; lia|].
      split; [rewrite length_app; simpl; lia|].
      split; [|split; [reflexivity | exact Hsubs]].
      intros k Hk. destruct (Nat.eq_dec k n) as [->|Hne].
      * rewrite nth_error_app2 by lia. rewrite Hlen, Nat.sub_diag. simpl.
        destruct (Nat.leb_spec n 9); [reflexivity | lia].
      * rewrite nth_error_app1 by lia. apply Hnth. lia.
Qed.

Lemma reconnect_backoff_witness :
  snd (PriceFeedClient.closes 12 sampleClient)
  = [Some 2000; Some 4000; Some 8000; Some 16000; Some 30000; Some 30000;
     Some 30000; Some 30000; Some 30000; Some 30000; None; None]%Z
  /\ nth_error (snd (PriceFeedClient.closes 12 sampleClient)) 10 = Some None.
Proof.
  split; [reflexivity|].
  destruct (reconnect_backoff 12 sampleClient eq_refl)
    as (_ & _ & Hnth & _).
  exact (Hnth 10%nat ltac:(repeat constructor)).
Defined.

(** ** The volatility service *)

Lemma lastn_short {A : Type} (n : nat) (l : list A) :
  (List.length l <= n)%nat -> lastn n l = l.
Proof.
  unfold lastn. intros H.
  replace (List.length l - n)%nat with 0%nat by lia. reflexivity.
Qed.

Lemma lastn_length {A : Type} (n : nat) (l : list A) :
  List.length (lastn n l) = Nat.min n (List.length l).
Proof. unfold lastn. rewrite length_skipn. lia. Qed.

Lemma skipn_tl_snoc {A : Type} (k : nat) (a : list A) (p : A) :
  (k <= List.length a)%nat ->
  tl (skipn k a ++ [p]) = skipn (S k) (a ++ [p]).
Proof.
  revert a. induction k as [|k IH]; intros a Hk.
  - simpl. destruct a; reflexivity.
  - destruct a as [|x a]; simpl in Hk; [lia|].
    change (skipn (S k) (x :: a)) with (skipn k a).
    change (skipn (S (S k)) ((x :: a) ++ [p])) with (skipn (S k) (a ++ [p])).
    apply IH. lia.
Qed.

(** One tick on a history that fits the window. *)
Lemma push_shift_lastn (window : Z) (a : list Q) (p : Q) :
  (0 <= window)%Z ->
  let history := lastn (Z.to_nat window) a ++ [p] in
  (if (window <? Z.of_nat (List.length history))%Z
   then tl history else history)
  = lastn (Z.to_nat window) (a ++ [p]).
Proof.
  intros Hw. cbv zeta.
  rewrite length_app, lastn_length. simpl.
  destruct (Z.ltb_spec window
              (Z.of_nat (Nat.min (Z.to_nat window) (List.length a) + 1)))
    as [Hfull|Hroom].
  - assert (Hlen : (Z.to_nat window <= List.length a)%nat) by lia.
    unfold lastn. rewrite skipn_tl_snoc by lia.
    rewrite length_app.
    change (List.length [p]) with 1%nat.
    replace (List.length a + 1 - Z.to_nat window)%nat
      with (S (List.length a - Z.to_nat window)) by lia.
    reflexivity.
  - assert (Hlen : (List.length a < Z.to_nat window)%nat) by lia.
    rewrite !lastn_short; [reflexivity | rewrite length_app; simpl; lia | lia].
Qed.

Lemma feed_cons (window : Z) (pair : string) (p : Q) (prices : list Q)
    (s : VolatilityService.t) :
  VolatilityService.feed window pair (p :: prices) s
  = VolatilityService.feed window pair prices
      (VolatilityService.handlePriceUpdate window pair p s).
Proof. reflexivity. Qed.

Lemma handlePriceUpdate_tracked (window : Z) (pair : string) (p : Q)
    (s : VolatilityService.t) (seen : list Q) :
  (0 <= window)%Z ->
  JsMap.get pair (VolatilityService.priceHistories s)
    = Some (lastn (Z.to_nat window) seen) ->
  VolatilityService.handlePriceUpdate window pair p s
  = VolatilityService.mk
      (JsMap.set pair (lastn (Z.to_nat window) (seen ++ [p]))
         (VolatilityService.priceHistories s))
      (VolatilityService.volatilityData s).
Proof.
  intros Hw Hget. unfold VolatilityService.handlePriceUpdate.
  rewrite Hget. cbv zeta. now rewrite (push_shift_lastn window seen p Hw).
Qed.

Lemma feed_history (window : Z) (pair : string) (prices : list Q)
    (s : VolatilityService.t) (seen : list Q) :
  (0 <= window)%Z ->
  JsMap.get pair (VolatilityService.priceHistories s)
    = Some (lastn (Z.to_nat window) seen) ->
  JsMap.get pair
    (VolatilityService.priceHistories
       (VolatilityService.feed window pair prices s))
  = Some (lastn (Z.to_nat window) (seen ++ prices))
  /\ (forall other,
        other <> pair ->
        JsMap.get other
          (VolatilityService.priceHistories
             (VolatilityService.feed window pair prices s))
        = JsMap.get other (VolatilityService.priceHistories s))
  /\ VolatilityService.volatilityData
       (VolatilityService.feed window pair prices s)
     = VolatilityService.volatilityData s.
Proof.
  intros Hw. revert s seen.
  induction prices as [|p prices IH]; intros s seen Hget.
  - simpl. rewrite app_nil_r. tauto.
  - rewrite feed_cons.
    rewrite (handlePriceUpdate_tracked window pair p s seen Hw Hget).
    match goal with
    | |- context [VolatilityService.feed window pair prices ?s1] =>
        destruct (IH s1 (seen ++ [p])) as (H1 & H2 & H3)
    end.
    { simpl. apply JsMap_get_set_same. }
    rewrite <- app_assoc in H1. simpl in H1.
    split; [exact H1|]. split; [|exact H3].
    intros other Hother. rewrite (H2 other Hother). simpl.
    now apply JsMap_get_set_other.
Qed.

Lemma feed_untracked (window : Z) (pair : string) (prices : list Q)
    (s : VolatilityService.t) :
  JsMap.get pair (VolatilityService.priceHistories s) = None ->
  VolatilityService.feed window pair prices s = s.
Proof.
  intros Hnone.
  induction prices as [|p prices IH]; [reflexivity|].
  rewrite feed_cons. unfold VolatilityService.handlePriceUpdate.
  rewrite Hnone. exact IH.
Qed.

(** X21. For a non-negative window, the history of a tracked pair after
    any run of its ticks holds the last [WINDOW_SECONDS] prices seen, oldest
    first, so never more than the window; the ticks touch neither the
    histories of other pairs nor the volatility records, and ticks of a pair
    that is not tracked change nothing. *)
Theorem price_history_is_sliding_window (window : Z) (pair : string)
    (prices : list Q) (s : VolatilityService.t) (history : list Q) :
  (0 <= window)%Z ->
  JsMap.get pair (VolatilityService.priceHistories s) = Some history ->
  (List.length history <= Z.to_nat window)%nat ->
  let s' := VolatilityService.feed window pair prices s in
  JsMap.get pair (VolatilityService.priceHistories s')
    = Some (lastn (Z.to_nat window) (history ++ prices))
  /\ (List.length (lastn (Z.to_nat window) (history ++ prices))
      <= Z.to_nat window)%nat
  /\ (forall other,
        other <> pair ->
        JsMap.get other (VolatilityService.priceHistories s')
        = JsMap.get other (VolatilityService.priceHistories s))
  /\ VolatilityService.volatilityData s'
     = VolatilityService.volatilityData s
  /\ (forall untracked,
        JsMap.get untracked (VolatilityService.priceHistories s) = None ->
        VolatilityService.feed window untracked prices s = s).
Proof.
  intros Hw Hget Hlen. cbv zeta.
  rewrite <- (lastn_short (Z.to_nat window) history Hlen) in Hget.
  destruct (feed_history window pair prices s history Hw Hget)
    as (H1 & H2 & H3).
  split; [exact H1|]. split; [rewrite lastn_length; lia|].
  split; [exact H2|]. split; [exact H3|].
  intros untracked Hnone. now apply feed_untracked.
Qed.

Lemma price_history_is_sliding_window_witness :
  JsMap.get "BTC/USD"
    (VolatilityService.priceHistories
       (VolatilityService.feed 3 "BTC/USD" [1; 2; 3; 4; 5]
          (VolatilityService.initialize ["BTC/USD"%string]
             VolatilityService.initial)))
  = Some [3; 4; 5].
Proof.
  destruct (price_history_is_sliding_window 3 "BTC/USD" [1; 2; 3; 4; 5]
              (VolatilityService.initialize ["BTC/USD"%string]
                 VolatilityService.initial) [])
    as (Hhistory & _).
  - discriminate.
  - reflexivity.
  - simpl. lia.
  - exact Hhistory.
Defined.

(** *** Recalculation *)

Lemma calculateAllVolatility_fold (sd : list Q -> Q) (clock : Z)
    (s : VolatilityService.t) :
  VolatilityService.calculateAllVolatility sd clock s
  = fold_left (VolatilityService.recordVolatility sd clock)
      (JsMap.entries (VolatilityService.priceHistories s)) s.
Proof. reflexivity. Qed.

Lemma record_histories (sd : list Q -> Q) (clock : Z)
    (es : list (string * list Q)) (s : VolatilityService.t) :
  VolatilityService.priceHistories
    (fold_left (VolatilityService.recordVolatility sd clock) es s)
  = VolatilityService.priceHistories s.
Proof.
  revert s. induction es as [|[k h] es IH]; intros s; simpl; [reflexivity|].
  rewrite IH. now destruct (List.length h <? 10)%nat.
Qed.

Lemma record_get (sd : list Q -> Q) (clock : Z)
    (es : list (string * list Q)) (s : VolatilityService.t)
    (k : string) :
  NoDup (JsMap.keys es) ->
  JsMap.get k
    (VolatilityService.volatilityData
       (fold_left (VolatilityService.recordVolatility sd clock) es s))
  = match JsMap.get k es with
    | Some history =>
        if (List.length history <? 10)%nat
        then JsMap.get k (VolatilityService.volatilityData s)
        else Some (VolatilityData.mk k (sd history) history clock)
    | None => JsMap.get k (VolatilityService.volatilityData s)
    end.
Proof.
  revert s. induction es as [|[k0 h0] es IH]; intros s Hnd; [reflexivity|].
  apply NoDup_cons_iff in Hnd as [Hout Hnd]. simpl in Hout.
  cbn [fold_left JsMap.get]. rewrite (IH _ Hnd).
  destruct (String.eqb_spec k k0) as [->|Hne].
  - apply JsMap_get_None_iff in Hout. rewrite Hout. simpl.
    destruct (List.length h0 <? 10)%nat; [reflexivity|].
    simpl. apply JsMap_get_set_same.
  - assert (Hsame :
      JsMap.get k
        (VolatilityService.volatilityData
           (VolatilityService.recordVolatility sd clock s (k0, h0)))
      = JsMap.get k (VolatilityService.volatilityData s)).
    { simpl. destruct (List.length h0 <? 10)%nat; [reflexivity|].
      simpl. now apply JsMap_get_set_other. }
    rewrite Hsame. reflexivity.
Qed.

Lemma record_consistent (sd : list Q -> Q) (clock : Z)
    (es : list (string * list Q)) (s : VolatilityService.t) :
  VolatilityService.consistent sd s ->
  VolatilityService.consistent sd
    (fold_left (VolatilityService.recordVolatility sd clock) es s).
Proof.
  revert s. induction es as [|[k h] es IH]; intros s Hs; [exact Hs|].
  cbn [fold_left]. apply IH. simpl.
  destruct (Nat.ltb_spec (List.length h) 10) as [|Hten]; [exact Hs|].
  destruct Hs as (Hh & Hv & Hrec). repeat split; simpl.
  - exact Hh.
  - now apply JsMap_set_NoDup.
  - apply JsMap_In_set_key in H as [H|[-> ->]]; [now apply (Hrec k0 d)|].
    reflexivity.
  - apply JsMap_In_set_key in H as [H|[-> ->]]; [now apply (Hrec k0 d)|].
    reflexivity.
  - apply JsMap_In_set_key in H as [H|[-> ->]]; [now apply (Hrec k0 d)|].
    exact Hten.
Qed.


Lemma initialize_consistent (sd : list Q -> Q) (pairs : list string)
    (s : VolatilityService.t) :
  VolatilityService.consistent sd s ->
  VolatilityService.consistent sd (VolatilityService.initialize pairs s).
Proof.
  unfold VolatilityService.initialize. revert s.
  induction pairs as [|k pairs IH]; intros s Hs; [exact Hs|].
  simpl. apply IH. destruct Hs as (Hh & Hv & Hrec).
  repeat split; simpl; try (now apply (Hrec k0 d)).
  - now apply JsMap_set_NoDup.
  - exact Hv.
Qed.

Lemma call_consistent (window : Z) (sd : list Q -> Q)
    (c : VolatilityService.Call) (s : VolatilityService.t) :
  VolatilityService.consistent sd s ->
  VolatilityService.consistent sd (VolatilityService.call window sd c s).
Proof.
  intros Hs. destruct c as [pairs|k price|clock|]; simpl.
  - now apply initialize_consistent.
  - unfold VolatilityService.handlePriceUpdate.
    destruct (JsMap.get k (VolatilityService.priceHistories s)); [|exact Hs].
    destruct Hs as (Hh & Hv & Hrec).
    repeat split; simpl; try (now apply (Hrec k0 d)).
    + now apply JsMap_set_NoDup.
    + exact Hv.
  - rewrite calculateAllVolatility_fold. now apply record_consistent.
  - repeat split; simpl; try constructor; contradiction.
Qed.

Lemma run_consistent (window : Z) (sd : list Q -> Q)
    (calls : list VolatilityService.Call) (s : VolatilityService.t) :
  VolatilityService.consistent sd s ->
  VolatilityService.consistent sd (VolatilityService.run window sd calls s).
Proof.
  unfold VolatilityService.run. revert s.
  induction calls as [|c calls IH]; intros s Hs; [exact Hs|].
  simpl. apply IH. now apply call_consistent.
Qed.

Lemma initial_consistent (sd : list Q -> Q) :
  VolatilityService.consistent sd VolatilityService.initial.
Proof. repeat split; simpl; try constructor; contradiction. Qed.

(** X22. On a service that went through any calls since its creation, a
    recalculation leaves the histories as they are and files, for each
    tracked pair with at least ten samples, a record of the pair, the
    deviation of its history, the history and the time; the record of any
    other pair is the one it had, if it had one. *)
Theorem recalculation_records_tracked_pairs (window : Z)
    (sd : list Q -> Q) (calls : list VolatilityService.Call) (clock : Z) :
  let s := VolatilityService.run window sd calls VolatilityService.initial in
  let s' := VolatilityService.calculateAllVolatility sd clock s in
  VolatilityService.priceHistories s' = VolatilityService.priceHistories s
  /\ forall pair,
       VolatilityService.getVolatility pair s'
       = match JsMap.get pair (VolatilityService.priceHistories s) with
         | Some history =>
             if (List.length history <? 10)%nat
             then VolatilityService.getVolatility pair s
             else Some (VolatilityData.mk pair (sd history) history clock)
         | None => VolatilityService.getVolatility pair s
         end.
Proof.
  cbv zeta. rewrite calculateAllVolatility_fold. split.
  - apply record_histories.
  - intros pair. unfold VolatilityService.getVolatility.
    apply record_get.
    apply (run_consistent window sd calls), initial_consistent.
Qed.

(** *** The pairs offered for a round *)

Lemma sort_sorted (l : list VolatilityData.t) :
  descending l -> sort byVolatilityDesc l = l.
Proof.
  unfold sort. induction l as [|x l IH]; [reflexivity|].
  intros [Hx Hl]. simpl. rewrite (IH Hl).
  destruct l as [|y l]; [reflexivity|]. simpl.
  assert (Hle : Qle_bool (byVolatilityDesc x y) 0 = true).
  { apply Qle_bool_iff. unfold byVolatilityDesc.
    specialize (Hx y (or_introl eq_refl)). lra. }
  now rewrite Hle.
Qed.

Lemma selectRandomPair_In (l : list VolatilityData.t) (random : Q)
    (selected : string) :
  selectRandomPair l random = Some selected ->
  exists d, In d l /\ VolatilityData.pair d = selected.
Proof.
  unfold selectRandomPair.
  destruct (Nat.eqb (List.length l) 0); [discriminate|].
  cbv zeta.
  match goal with
  | |- option_map _ (at_index ?top ?i) = _ -> _ =>
      destruct (at_index top i) as [d|] eqn:E; [|discriminate]
  end.
  intros [= <-]. exists d. split; [|reflexivity].
  apply at_index_Some, nth_error_In in E.
  apply (Permutation_in d (Permutation_sym (sort_perm byVolatilityDesc l))).
  match type of E with
  | In _ (firstn ?n _) =>
      rewrite <- (firstn_skipn n (sort byVolatilityDesc l))
  end.
  apply in_or_app. left. exact E.
Qed.

Lemma offered_In (window : Z) (sd : list Q -> Q)
    (calls : list VolatilityService.Call) (threshold : Q)
    (d : VolatilityData.t) :
  let s := VolatilityService.run window sd calls VolatilityService.initial in
  In d (VolatilityService.getHighVolatilityPairs threshold s)
  <-> VolatilityService.getVolatility (VolatilityData.pair d) s = Some d
      /\ threshold <= VolatilityData.volatility d.
Proof.
  cbv zeta.
  pose proof (run_consistent window sd calls _ (initial_consistent sd))
    as (_ & Hnd & Hrec).
  set (s := VolatilityService.run window sd calls VolatilityService.initial)
    in *.
  unfold VolatilityService.getHighVolatilityPairs,
    VolatilityService.getVolatility. cbv zeta.
  split.
  - intros Hin.
    apply (Permutation_in d (Permutation_sym (sort_perm _ _))) in Hin.
    apply filter_In in Hin as [Hin Hth]. apply Qle_bool_iff in Hth.
    split; [|exact Hth].
    unfold JsMap.values in Hin.
    apply in_map_iff in Hin as ([k d'] & Heq & Hin).
    simpl in Heq. subst d'.
    destruct (Hrec k d Hin) as (Hk & _). subst k.
    now apply JsMap_In_get.
  - intros [Hget Hth]. apply (Permutation_in d (sort_perm _ _)).
    apply filter_In. split; [|now apply Qle_bool_iff].
    apply JsMap_get_In in Hget. unfold JsMap.values.
    apply in_map_iff. now exists (VolatilityData.pair d, d).
Qed.

(** X23. On a service that went through any calls since its creation, the
    pairs offered for a round are exactly the filed records whose deviation
    reaches the threshold, in descending order of deviation, so that the
    sort [selectRandomPair] starts with changes nothing; and the pair
    [endLobby] draws from them has a record that reaches the threshold and
    holds at least ten samples and their deviation. *)
Theorem offered_pairs_meet_threshold (window : Z) (sd : list Q -> Q)
    (calls : list VolatilityService.Call) (threshold : Q) :
  let s := VolatilityService.run window sd calls VolatilityService.initial in
  let offered := VolatilityService.getHighVolatilityPairs threshold s in
  descending offered
  /\ sort byVolatilityDesc offered = offered
  /\ (forall d,
        In d offered
        <-> VolatilityService.getVolatility (VolatilityData.pair d) s = Some d
            /\ threshold <= VolatilityData.volatility d)
  /\ forall random selected,
       selectRandomPair offered random = Some selected ->
       exists d,
         VolatilityService.getVolatility selected s = Some d
         /\ threshold <= VolatilityData.volatility d
         /\ VolatilityData.volatility d = sd (VolatilityData.priceHistory d)
         /\ (10 <= List.length (VolatilityData.priceHistory d))%nat.
Proof.
  cbv zeta.
  assert (Hdesc :
    descending
      (VolatilityService.getHighVolatilityPairs threshold
         (VolatilityService.run window sd calls VolatilityService.initial)))
    by apply sort_descending.
  split; [exact Hdesc|]. split; [now apply sort_sorted|].
  split; [intros d; apply offered_In|].
  intros random selected Hsel.
  apply selectRandomPair_In in Hsel as (d & Hin & <-).
  apply offered_In in Hin as [Hget Hth].
  exists d. split; [exact Hget|]. split; [exact Hth|].
  pose proof (run_consistent window sd calls _ (initial_consistent sd))
    as (_ & _ & Hrec).
  apply JsMap_get_In in Hget.
  destruct (Hrec _ _ Hget) as (_ & Hsd & Hten). now split.
Qed.

Lemma offered_pairs_meet_threshold_witness :
  exists d,
    VolatilityService.getVolatility "BTC/USD"
      (VolatilityService.run 300 sampleDeviation sampleCalls
         VolatilityService.initial) = Some d
    /\ (1 # 1000) <= VolatilityData.volatility d
    /\ VolatilityData.volatility d
       = sampleDeviation (VolatilityData.priceHistory d)
    /\ (10 <= List.length (VolatilityData.priceHistory d))%nat.
Proof.
  destruct (offered_pairs_meet_threshold 300 sampleDeviation sampleCalls
              (1 # 1000)) as (_ & _ & _ & Hdrawn).
  apply (Hdrawn (1 # 2) "BTC/USD"%string). reflexivity.
Defined.
